(** * Trajectory evaluation for vision-and-language navigation

    A shallow embedding of [eval.py] (class [Evaluation]) and of the graph
    loader [load_nav_graphs] of [utils.py], together with a model of the
    shortest-path routine the evaluator calls.

    Conventions.
    - Python exceptions are values of [exn]; a computation that may raise
      returns a [result].  Methods that append to [self.scores] thread the
      score lists explicitly and hand them back even when they raise, the
      way the Python object keeps what was appended before the exception.
    - Dictionaries are [gmap]s, sets are [gset]s, Python lists are lists.
    - Python computes distances in binary64.  The graph code is written
      over an interface of the arithmetic it uses ([Num.ops]), read with
      exact rationals ([Qc]) and with binary64 ([float]); the scorer works
      on rationals.  Statements that only hold without rounding carry the
      laws of exact arithmetic ([Num.exact]) as a hypothesis.
    - The diagnostic [print] calls of [eval.py] only write to the terminal
      and are left out, except for the division evaluated inside the last
      one, which can raise.

    The second half of the definitions embeds more of [utils.py]: the
    class [Tokenizer], [build_vocab], [write_vocab] and [read_vocab], the
    class [AverageMeter], [save_checkpoint] and the class [EarlyStopping],
    and [pad_tensor], [find_length] and [pad_list_tensors].
    - A [str] is the [string] of its code points, for text below U+0100.
    - Files are kept by path in a [gmap]; an object that a call changes
      before it raises is handed back together with the exception. *)

From Stdlib Require Import Ascii String QArith Qcanon Floats Lqa.
From stdpp Require Import base option list gmap strings numbers pretty sorting.

Open Scope string_scope.

(** ** Python exceptions and results *)

Module Py.

Inductive exn :=
| AssertionError (msg : string)
| IndexError
| KeyError
| ValueError
| ZeroDivisionError
| FileNotFoundError.

Inductive result (A : Type) :=
| Ok (a : A)
| Raise (e : exn).
Arguments Ok {A} a.
Arguments Raise {A} e.

Definition is_ok {A} (r : result A) : bool :=
  match r with Ok _ => true | Raise _ => false end.

#[global] Instance result_ret : MRet result := @Ok.
#[global] Instance result_bind : MBind result := λ A B f r,
  match r with Ok a => f a | Raise e => Raise e end.

(** [d[k]] on a dictionary. *)
Definition getitem `{Countable K} {V} (d : gmap K V) (k : K) : result V :=
  match d !! k with Some v => Ok v | None => Raise KeyError end.

(** [l[i]] on a list, for a non-negative index. *)
Definition index {A} (l : list A) (i : nat) : result A :=
  match l !! i with Some x => Ok x | None => Raise IndexError end.

(** [l[-1]]. *)
Definition index_last {A} (l : list A) : result A :=
  match last l with Some x => Ok x | None => Raise IndexError end.

(** [assert c, msg]. *)
Definition assert (c : bool) (msg : string) : result unit :=
  if c then Ok tt else Raise (AssertionError msg).

(** *** [int(s)] for the text before the first underscore of an id *)

(** [s.split('_')[0]]: the text before the first underscore, the whole
    string when there is none. *)
Fixpoint split_underscore_0 (s : string) : string :=
  match s with
  | EmptyString => EmptyString
  | String c s' =>
      if Ascii.eqb c "_"%char then EmptyString
      else String c (split_underscore_0 s')
  end.

Definition is_space (c : ascii) : bool :=
  let n := Ascii.nat_of_ascii c in
  (n =? 32)%nat || ((9 <=? n)%nat && (n <=? 13)%nat)
  || ((28 <=? n)%nat && (n <=? 31)%nat).

Definition digit_of (c : ascii) : option Z :=
  let n := Z.of_nat (Ascii.nat_of_ascii c) in
  if ((48 <=? n) && (n <=? 57))%Z then Some (n - 48)%Z else None.

Fixpoint lstrip (s : string) : string :=
  match s with
  | String c s' => if is_space c then lstrip s' else s
  | EmptyString => EmptyString
  end.

(** Digits, then optional trailing white space; [acc] is the value read so
    far and [seen] says whether a digit was read. *)
Fixpoint int_digits (s : string) (acc : Z) (seen : bool) : option Z :=
  match s with
  | EmptyString => if seen then Some acc else None
  | String c s' =>
      match digit_of c with
      | Some d => int_digits s' (10 * acc + d)%Z true
      | None =>
          if seen && is_space c && bool_decide (lstrip s' = EmptyString)
          then Some acc else None
      end
  end.

(** [int(s)] on a [str]: white space around an optionally signed run of
    ASCII digits; anything else is a [ValueError].  (Digit characters
    outside ASCII and underscores between digits, which [int] also takes,
    cannot occur here: ids are produced with ['%d_%d'] and split on the
    underscore.) *)
Definition int_of_str (s : string) : result Z :=
  let r :=
    match lstrip s with
    | String "-" s' => Z.opp <$> int_digits s' 0 false
    | String "+" s' => int_digits s' 0 false
    | s' => int_digits s' 0 false
    end in
  match r with Some z => Ok z | None => Raise ValueError end.

(** Unfold the bind of [result]. *)
Ltac unfold_result :=
  unfold mbind, result_bind, mret, result_ret in *.

End Py.
Import Py.

(** ** Numbers

    The graph code only adds, subtracts, multiplies, takes [x ** 0.5] and
    compares.  It is written once over these operations, so that it can be
    read both with exact rationals and with the binary64 numbers Python
    uses. *)

Module Num.

Class ops (T : Type) := Ops {
  zero : T;
  add : T → T → T;
  sub : T → T → T;
  mul : T → T → T;
  pow_half : T → T;
  ltb : T → T → bool;
  eqb : T → T → bool
}.

(** [a <= b] read as "not [b < a]". *)
Definition le `{ops T} (a b : T) : Prop := ltb b a = false.

(** The laws of exact arithmetic that the proofs about shortest paths
    use.  The rationals satisfy them ([exact_Qc]); binary64 addition is
    not associative and does not. *)
Class exact (T : Type) `{ops T} : Prop := Exact {
  add_comm : ∀ a b : T, add a b = add b a;
  add_assoc : ∀ a b c : T, add a (add b c) = add (add a b) c;
  add_zero_l : ∀ a : T, add zero a = a;
  ltb_irrefl : ∀ a : T, ltb a a = false;
  ltb_trans : ∀ a b c : T, ltb a b = true → ltb b c = true → ltb a c = true;
  ltb_total : ∀ a b : T, ltb a b = false → ltb b a = false → a = b;
  ltb_add_r : ∀ a b c : T, ltb (add a c) (add b c) = ltb a b;
  eqb_eq : ∀ a b : T, eqb a b = true ↔ a = b;
  pow_half_nonneg : ∀ a : T, ltb (pow_half a) zero = false
}.

(** Exact rationals, for a given reading [root] of [x ** 0.5]. *)
Definition for_Qc (root : Qc → Qc) : ops Qc :=
  Ops Qc 0%Qc Qcplus Qcminus Qcmult root
      (λ a b, bool_decide (a < b)%Qc) (λ a b, bool_decide (a = b)).

(** A square root on [Qc] that is exact on squares of rationals. *)
Definition sqrt_Qc (q : Qc) : Qc :=
  Q2Qc (Z.sqrt (Qnum (this q)) # Pos.sqrt (Qden (this q))).

(** Python's [float]: IEEE 754 binary64.  [x ** 0.5] is read as the
    correctly rounded square root and [x ** 2] as [x * x]. *)
Definition for_float : ops float :=
  Ops float 0%float PrimFloat.add PrimFloat.sub PrimFloat.mul PrimFloat.sqrt
      PrimFloat.ltb PrimFloat.eqb.

End Num.

(** ** The part of [networkx] the evaluator uses

    The source of [networkx] is not among the repository's files: the
    undirected graph and the distance table builder are modelled from the
    specification (an undirected weighted graph; single-source shortest
    paths with non-negative weights, Dijkstra's algorithm, run from every
    node; only reachable pairs are present).  The details follow the
    library's [_dijkstra_multisource]: a heap of
    [(distance, counter, node)] entries, the dictionaries [dist] of final
    distances and [seen] of tentative ones, distances added up from the
    source on.  The heap is kept as a list from which the least entry is
    taken; adjacency dictionaries are [gmap]s, so neighbours are visited
    in key order rather than insertion order. *)

Module Nx.

(** [G._adj]: node, then neighbour, then the edge's [weight]. *)
Abbreviation adjacency T := (gmap string (gmap string T)).

Record Graph (T : Type) := MkGraph {
  adj : adjacency T;
  node_position : gmap string (T * T * T)
}.
Arguments MkGraph {T} adj node_position.
Arguments adj {T} g.
Arguments node_position {T} g.

Definition empty_graph {T} : Graph T := MkGraph ∅ ∅.

Section Graphs.
Context {T : Type} `{Num.ops T}.

(** [G._adj[u][v] = w], creating the node [u] when needed. *)
Definition set_adj (u v : string) (w : T) (a : adjacency T) : adjacency T :=
  <[u := <[v := w]> (default ∅ (a !! u))]> a.

(** Modelled from the spec: [G.add_edge(u, v, weight=w)] of the library's
    undirected [Graph], whose source is missing.  Both directions share
    the weight, a later call replaces it. *)
Definition add_edge (u v : string) (w : T) (a : adjacency T) : adjacency T :=
  set_adj v u w (set_adj u v w a).

(** [v in G[u]] with [G[u][v]['weight'] == w]. *)
Definition has_edge (a : adjacency T) (u v : string) (w : T) : Prop :=
  ∃ nbrs, a !! u = Some nbrs ∧ nbrs !! v = Some w.

(** A heap entry [(distance, counter, node)]. *)
Abbreviation entry := (T * nat * string)%type.

(** Tuple comparison: by distance, then by the counter. *)
Definition entry_lt (e1 e2 : entry) : bool :=
  if Num.eqb e1.1.1 e2.1.1 then (e1.1.2 <? e2.1.2)%nat
  else Num.ltb e1.1.1 e2.1.1.

(** [heappop]: the least entry and the remaining ones. *)
Fixpoint pop_min (l : list entry) : option (entry * list entry) :=
  match l with
  | [] => None
  | e :: l' =>
      match pop_min l' with
      | None => Some (e, [])
      | Some (m, rest) =>
          if entry_lt m e then Some (m, e :: rest) else Some (e, l')
      end
  end.

Record dijkstra_state := DState {
  dist : gmap string T;
  seen : gmap string T;
  fringe : list entry;
  counter : nat
}.

(** One turn of the loop over [G_succ[v].items()], for the neighbour [u]
    joined by an edge of weight [cost]; [dv] is [dist[v]]. *)
Definition relax (dv : T) (st : dijkstra_state) (uw : string * T)
    : result dijkstra_state :=
  let vu_dist := Num.add dv uw.2 in
  match dist st !! uw.1 with
  | Some u_dist =>
      if Num.ltb vu_dist u_dist then Raise ValueError else Ok st
  | None =>
      let push :=
        DState (dist st) (<[uw.1 := vu_dist]> (seen st))
               ((vu_dist, counter st, uw.1) :: fringe st) (S (counter st)) in
      match seen st !! uw.1 with
      | None => Ok push
      | Some su => if Num.ltb vu_dist su then Ok push else Ok st
      end
  end.

Fixpoint relax_all (dv : T) (st : dijkstra_state) (l : list (string * T))
    : result dijkstra_state :=
  match l with
  | [] => Ok st
  | uw :: l' => st' ← relax dv st uw; relax_all dv st' l'
  end.

(** Modelled from the spec: the loop of the library's Dijkstra run, whose
    source is missing (shortest paths from one node, non-negative
    weights).  [None] means that [fuel] turns were not enough to empty
    the heap. *)
Fixpoint dijkstra_loop (fuel : nat) (a : adjacency T) (st : dijkstra_state)
    : option (result (gmap string T)) :=
  match fuel with
  | O => None
  | S fuel' =>
      match pop_min (fringe st) with
      | None => Some (Ok (dist st))
      | Some ((d, _, v), rest) =>
          if decide (is_Some (dist st !! v)) then
            dijkstra_loop fuel' a
              (DState (dist st) (seen st) rest (counter st))
          else
            match a !! v with
            | None => Some (Raise KeyError)
            | Some nbrs =>
                match relax_all d
                        (DState (<[v := d]> (dist st)) (seen st) rest
                                (counter st))
                        (map_to_list nbrs) with
                | Raise e => Some (Raise e)
                | Ok st' => dijkstra_loop fuel' a st'
                end
            end
      end
  end.

(** Every turn takes one entry off the heap and only the first visit of a
    node adds entries, one per neighbour at most: this many turns always
    suffice ([single_source_fuel_enough]). *)
Definition degree_sum (a : adjacency T) : nat :=
  sum_list (size <$> (map_to_list a).*2).

Definition dijkstra_fuel (a : adjacency T) : nat := 2 + degree_sum a.

(** [single_source_dijkstra_path_length(G, source)]. *)
Definition single_source_dijkstra_path_length (a : adjacency T)
    (source : string) : option (result (gmap string T)) :=
  dijkstra_loop (dijkstra_fuel a) a
    (DState ∅ {[source := Num.zero]} [(Num.zero, 0%nat, source)] 1).

(** Modelled from the spec: [dict(nx.all_pairs_dijkstra_path_length(G))],
    the distance table builder, whose source is missing: one run per
    node. *)
Fixpoint all_pairs_loop (a : adjacency T) (nodes : list string)
    : option (result (adjacency T)) :=
  match nodes with
  | [] => Some (Ok ∅)
  | n :: nodes' =>
      match single_source_dijkstra_path_length a n with
      | None => None
      | Some (Raise e) => Some (Raise e)
      | Some (Ok d) =>
          match all_pairs_loop a nodes' with
          | Some (Ok t) => Some (Ok (<[n := d]> t))
          | r => r
          end
      end
  end.

Definition all_pairs_dijkstra_path_length (g : Graph T)
    : option (result (adjacency T)) :=
  all_pairs_loop (adj g) (map_to_list (adj g)).*1.

(** *** Notions the statements about distances are phrased with *)

(** [n in G]. *)
Definition is_node (a : adjacency T) (n : string) : Prop := is_Some (a !! n).

(** Every edge can be taken in both directions, at the same weight. *)
Definition undirected (a : adjacency T) : Prop :=
  ∀ u v w, has_edge a u v w → has_edge a v u w.

(** No edge has a negative weight. *)
Definition nonnegative (a : adjacency T) : Prop :=
  ∀ u v w, has_edge a u v w → Num.le Num.zero w.

(** A walk from [s] to [v], with the sum of its weights added up from
    [s] on. *)
Inductive walk (a : adjacency T) (s : string) : string → T → Prop :=
| walk_here : walk a s s Num.zero
| walk_step (u v : string) (d w : T) :
    walk a s u d → has_edge a u v w → walk a s v (Num.add d w).

(** [d] is the weight of a lightest walk from [s] to [v]. *)
Definition shortest (a : adjacency T) (s v : string) (d : T) : Prop :=
  walk a s v d ∧ ∀ d', walk a s v d' → Num.le d d'.

(** [table[s][v] == d], both keys being present. *)
Definition table_at (t : adjacency T) (s v : string) : option T :=
  row ← t !! s; row !! v.

(** *** Notions the proofs about the loop are phrased with *)

(** The degrees of the nodes that are not settled yet. *)
Definition pending (d : gmap string T) (kv : string * gmap string T) : nat :=
  if d !! kv.1 is Some _ then 0%nat else size kv.2.

Definition pending_degree (a : adjacency T) (d : gmap string T) : nat :=
  sum_list (pending d <$> map_to_list a).

(** The edge of weight [w] from a settled node at distance [dv] to [u]
    has been looked at: [u] is settled, or its tentative distance is at
    most [dv + w]. *)
Definition relaxed (st : dijkstra_state) (dv : T) (u : string) (w : T)
    : Prop :=
  is_Some (dist st !! u)
  ∨ ∃ su, seen st !! u = Some su ∧ Num.le su (Num.add dv w).

(** The invariant of the loop of a run from [s]: [v0] is the node whose
    neighbours are being visited and [todo] the neighbours still to
    visit. *)
Record dijkstra_inv (a : adjacency T) (s v0 : string)
    (todo : list (string * T)) (st : dijkstra_state) : Prop := Inv {
  inv_dist_walk : ∀ v x, dist st !! v = Some x → walk a s v x;
  inv_dist_min : ∀ v x, dist st !! v = Some x → ∀ y, walk a s v y → Num.le x y;
  inv_fringe : ∀ x c v, (x, c, v) ∈ fringe st → walk a s v x;
  inv_seen : ∀ v x, seen st !! v = Some x → dist st !! v = None →
                    ∃ c, (x, c, v) ∈ fringe st;
  inv_relaxed : ∀ v dv u w, dist st !! v = Some dv → has_edge a v u w →
                            (v = v0 ∧ (u, w) ∈ todo) ∨ relaxed st dv u w;
  inv_source : dist st !! s = None → ∃ c, (Num.zero, c, s) ∈ fringe st
}.

End Graphs.

Arguments dijkstra_state T : clear implicits.
Arguments inv_dist_walk {T _ a s v0 todo st} _.
Arguments inv_dist_min {T _ a s v0 todo st} _.
Arguments inv_fringe {T _ a s v0 todo st} _.
Arguments inv_seen {T _ a s v0 todo st} _.
Arguments inv_relaxed {T _ a s v0 todo st} _.
Arguments inv_source {T _ a s v0 todo st} _.

End Nx.

(** ** [utils.py]: [load_nav_graphs] *)

Module Utils.

(** One record of a connectivity file. *)
Record conn_record (T : Type) := ConnRecord {
  image_id : string;
  included : bool;
  pose : list T;
  unobstructed : list bool
}.
Arguments ConnRecord {T} image_id included pose unobstructed.
Arguments image_id {T} c.
Arguments included {T} c.
Arguments pose {T} c.
Arguments unobstructed {T} c.

Definition undirected_message : string := "Graph should be undirected".

Section Loader.
Context {T : Type} `{Num.ops T}.

Definition square (x : T) : T := Num.mul x x.

(** The local function [distance]: Euclidean distance between the
    translation parts (entries 3, 7 and 11) of two poses. *)
Definition distance (pose1 pose2 : conn_record T) : result T :=
  x1 ← index (pose pose1) 3; x2 ← index (pose pose2) 3;
  y1 ← index (pose pose1) 7; y2 ← index (pose pose2) 7;
  z1 ← index (pose pose1) 11; z2 ← index (pose pose2) 11;
  Ok (Num.pow_half
        (Num.add (Num.add (square (Num.sub x1 x2)) (square (Num.sub y1 y2)))
                 (square (Num.sub z1 z2)))).

(** The body of the inner loop, for [item = data[i]] and the entry
    [conn] at index [j] of its [unobstructed] list. *)
Definition load_edge (data : list (conn_record T)) (i : nat)
    (item : conn_record T) (g : Nx.Graph T) (j : nat) (conn : bool)
    : result (Nx.Graph T) :=
  if conn then
    other ← index data j;
    if included other then
      x ← index (pose item) 3;
      y ← index (pose item) 7;
      z ← index (pose item) 11;
      back ← index (unobstructed other) i;
      assert back undirected_message;;
      w ← distance item other;
      Ok (Nx.MkGraph (Nx.add_edge (image_id item) (image_id other) w (Nx.adj g))
                     (<[image_id item := (x, y, z)]> (Nx.node_position g)))
    else Ok g
  else Ok g.

(** [for j, conn in enumerate(l)], starting at index [j]. *)
Fixpoint load_row (data : list (conn_record T)) (i : nat)
    (item : conn_record T) (g : Nx.Graph T) (j : nat) (l : list bool)
    : result (Nx.Graph T) :=
  match l with
  | [] => Ok g
  | conn :: l' =>
      g' ← load_edge data i item g j conn;
      load_row data i item g' (S j) l'
  end.

(** [for i, item in enumerate(items)], starting at index [i]. *)
Fixpoint load_rows (data : list (conn_record T)) (g : Nx.Graph T) (i : nat)
    (items : list (conn_record T)) : result (Nx.Graph T) :=
  match items with
  | [] => Ok g
  | item :: items' =>
      g' ← (if included item
            then load_row data i item g 0 (unobstructed item)
            else Ok g);
      load_rows data g' (S i) items'
  end.

(** The graph of one scan.  [set_node_attributes] keeps the positions of
    the nodes of the graph only. *)
Definition load_nav_graph (data : list (conn_record T))
    : result (Nx.Graph T) :=
  g ← load_rows data Nx.empty_graph 0 data;
  Ok (Nx.MkGraph (Nx.adj g)
        (filter (λ kv, is_Some (Nx.adj g !! kv.1)) (Nx.node_position g))).

(** [load_nav_graphs(scans)]; [files] stands for the directory
    [connectivity/], keyed by scan. *)
Fixpoint load_scans (files : gmap string (list (conn_record T)))
    (scans : list string) : result (gmap string (Nx.Graph T)) :=
  match scans with
  | [] => Ok ∅
  | scan :: scans' =>
      match files !! scan with
      | None => Raise FileNotFoundError
      | Some data =>
          g ← load_nav_graph data;
          graphs ← load_scans files scans';
          Ok (<[scan := g]> graphs)
      end
  end.

Definition load_nav_graphs (files : gmap string (list (conn_record T)))
    (scans : gset string) : result (gmap string (Nx.Graph T)) :=
  load_scans files (elements scans).

(** *** Notions the statements about the loader are phrased with *)

(** Records [i] and [j] are both included and [i] lists [j] as
    unobstructed: the loader will try to join them. *)
Definition sees (data : list (conn_record T)) (i j : nat)
    (ri rj : conn_record T) : Prop :=
  data !! i = Some ri ∧ data !! j = Some rj
  ∧ included ri = true ∧ included rj = true
  ∧ unobstructed ri !! j = Some true.

(** ... and [j] lists [i] as unobstructed too. *)
Definition mutually_unobstructed (data : list (conn_record T)) (i j : nat)
    (ri rj : conn_record T) : Prop :=
  sees data i j ri rj ∧ unobstructed rj !! i = Some true.

(** The shape the connectivity files have: a 16-entry pose and one
    [unobstructed] flag per record of the file. *)
Definition well_formed (data : list (conn_record T)) : Prop :=
  Forall (λ r, length (pose r) = 16%nat
               ∧ length (unobstructed r) = length data) data.

(** Every edge joins two records that list each other, and weighs their
    distance. *)
Definition edges_justified (data : list (conn_record T))
    (a : Nx.adjacency T) : Prop :=
  ∀ u v w, Nx.has_edge a u v w →
    ∃ i j ri rj,
      mutually_unobstructed data i j ri rj
      ∧ distance ri rj = Ok w
      ∧ ((u = image_id ri ∧ v = image_id rj)
         ∨ (u = image_id rj ∧ v = image_id ri)).

(** Two nodes are joined. *)
Definition joined (a : Nx.adjacency T) (u v : string) : Prop :=
  ∃ w, Nx.has_edge a u v w.

(** The loader returned, or raised the assertion about direction. *)
Definition only_undirected_assertion (r : result (Nx.Graph T)) : Prop :=
  match r with
  | Ok _ => True
  | Raise e => e = AssertionError undirected_message
  end.

End Loader.

End Utils.

(** ** [eval.py]: the data the evaluator works on *)

Module EvalPy.

(** One ground-truth item of the R2R data set. *)
Record gt_item := GtItem {
  path_id : Z;
  scan : string;
  path : list string;
  instructions : list string
}.

(** One element [(viewpoint_id, heading_rads, elevation_rads)] of a
    submitted trajectory. *)
Record traj_point := TrajPoint {
  viewpoint : string;
  heading : Qc;
  elevation : Qc
}.

(** One entry of the results file. *)
Record submission_item := SubmissionItem {
  instr_id : string;
  trajectory : list traj_point
}.

(** [self.scores]: the five lists the scorer appends to.  The code keeps
    them in a [defaultdict(list)] under these five keys. *)
Record scores := Scores {
  nav_errors : list Qc;
  oracle_errors : list Qc;
  trajectory_steps : list Z;
  trajectory_lengths : list Qc;
  success_path_length : list Qc
}.

Definition empty_scores : scores := Scores [] [] [] [] [].

(** An [Evaluation] object, as [__init__] leaves it. *)
Record Evaluation := MkEvaluation {
  error_margin : Qc;
  splits : list string;
  gt : gmap Z gt_item;
  instr_ids : gset string;
  scans : gset string;
  graphs : gmap string (Nx.Graph Qc);
  distances : gmap string (gmap string (gmap string Qc))
}.

(** [score_summary]. *)
Record score_summary := ScoreSummary {
  nav_error : Qc;
  oracle_error : Qc;
  steps : Qc;
  lengths : Qc;
  spl : Qc;
  success_rate : Qc;
  oracle_rate : Qc
}.

(** A method that appends to [self.scores] and may raise. *)
Definition M (A : Type) : Type := scores → scores * result A.

Definition ret {A} (a : A) : M A := λ s, (s, Ok a).
Definition bind {A B} (m : M A) (k : A → M B) : M B := λ s,
  match m s with
  | (s', Ok a) => k a s'
  | (s', Raise e) => (s', Raise e)
  end.
Definition lift {A} (r : result A) : M A := λ s, (s, r).
Definition modify (f : scores → scores) : M unit := λ s, (f s, Ok tt).

Declare Scope score_scope.
Delimit Scope score_scope with score.
Notation "x <~ m ;; k" := (bind m (λ x, k))
  (at level 100, m at next level, right associativity) : score_scope.
Notation "m ;;; k" := (bind m (λ _, k))
  (at level 100, right associativity) : score_scope.

Definition append_nav_error (x : Qc) (s : scores) : scores :=
  Scores (nav_errors s ++ [x]) (oracle_errors s) (trajectory_steps s)
         (trajectory_lengths s) (success_path_length s).
Definition append_oracle_error (x : Qc) (s : scores) : scores :=
  Scores (nav_errors s) (oracle_errors s ++ [x]) (trajectory_steps s)
         (trajectory_lengths s) (success_path_length s).
Definition append_trajectory_steps (x : Z) (s : scores) : scores :=
  Scores (nav_errors s) (oracle_errors s) (trajectory_steps s ++ [x])
         (trajectory_lengths s) (success_path_length s).
Definition append_trajectory_length (x : Qc) (s : scores) : scores :=
  Scores (nav_errors s) (oracle_errors s) (trajectory_steps s)
         (trajectory_lengths s ++ [x]) (success_path_length s).
Definition append_success_path_length (x : Qc) (s : scores) : scores :=
  Scores (nav_errors s) (oracle_errors s) (trajectory_steps s)
         (trajectory_lengths s) (success_path_length s ++ [x]).

Section Scoring.

Variable self : Evaluation.

(** [self.distances[scan][a][b]]. *)
Definition distance_of (scan a b : string) : result Qc :=
  t ← getitem (distances self) scan;
  row ← getitem t a;
  getitem row b.

(** The loop of [_get_nearest]: keep the first point with the least
    distance to the goal (the comparison is a strict [<]). *)
Fixpoint nearest_loop (scan goal_id : string) (items : list traj_point)
    (near_id : string) (near_d : Qc) : result (string * Qc) :=
  match items with
  | [] => Ok (near_id, near_d)
  | item :: rest =>
      d ← distance_of scan (viewpoint item) goal_id;
      if decide (d < near_d)%Qc
      then nearest_loop scan goal_id rest (viewpoint item) d
      else nearest_loop scan goal_id rest near_id near_d
  end.

Definition _get_nearest (scan goal_id : string) (path : list traj_point)
    : result string :=
  p0 ← index path 0;
  let near_id := viewpoint p0 in
  near_d ← distance_of scan near_id goal_id;
  r ← nearest_loop scan goal_id path near_id near_d;
  Ok r.1.

(** The two nested loops of [_score_item] that count, over every index of
    the submitted path but the last and every index of the ground-truth
    path but the last, the positions that hold the same viewpoint
    ([point_cnt]) and those whose successors agree as well
    ([point_match]). *)
Definition point_inner (gt_path : list string) (path : list traj_point)
    (idx : nat) (acc : nat * nat) (gt_idx : nat) : nat * nat :=
  if decide (gt_path !! gt_idx = viewpoint <$> path !! idx) then
    if decide (gt_path !! S gt_idx = viewpoint <$> path !! S idx)
    then (S acc.1, S acc.2)
    else (S acc.1, acc.2)
  else acc.

Definition point_counts (gt_path : list string) (path : list traj_point)
    : nat * nat :=
  foldl (λ acc idx,
           foldl (point_inner gt_path path idx) acc
                 (seq 0 (length gt_path - 1)))
        (0, 0)%nat (seq 0 (length path - 1)).

(** The loop that adds up the distances between consecutive points. *)
Fixpoint length_loop (scan : string) (prev : traj_point)
    (rest : list traj_point) (distance : Qc) : result Qc :=
  match rest with
  | [] => Ok distance
  | curr :: rest' =>
      d ← distance_of scan (viewpoint prev) (viewpoint curr);
      length_loop scan curr rest' (distance + d)%Qc
  end.

Definition py_max (a b : Qc) : Qc := if decide (a < b)%Qc then b else a.

Definition bool_to_Qc (b : bool) : Qc := if b then 1%Qc else 0%Qc.

(** [a / b] on numbers. *)
Definition truediv (a b : Qc) : result Qc :=
  if decide (b = 0%Qc) then Raise ZeroDivisionError else Ok (a / b)%Qc.

Definition start_message : string :=
  "Result trajectories should include the start position".

Open Scope score_scope.

Definition _score_item (instr_id : string) (path : list traj_point)
    : M (nat * nat) :=
  key <~ lift (int_of_str (split_underscore_0 instr_id));;
  gt <~ lift (getitem (EvalPy.gt self) key);;
  start <~ lift (index (EvalPy.path gt) 0);;
  p0 <~ lift (index path 0);;
  lift (assert (bool_decide (start = viewpoint p0)) start_message);;;
  goal <~ lift (index_last (EvalPy.path gt));;
  first_step <~ lift (index (EvalPy.path gt) 1);;
  let '(point_cnt, point_match) := point_counts (EvalPy.path gt) path in
  final <~ lift (index_last path);;
  let final_position := viewpoint final in
  nearest_position <~ lift (_get_nearest (scan gt) goal path);;
  nav <~ lift (distance_of (scan gt) final_position goal);;
  modify (append_nav_error nav);;;
  oracle <~ lift (distance_of (scan gt) nearest_position goal);;
  modify (append_oracle_error oracle);;;
  modify (append_trajectory_steps (Z.of_nat (length path) - 1));;;
  distance <~ lift (length_loop (scan gt) p0 (tail path) 0%Qc);;
  modify (append_trajectory_length distance);;;
  d_final <~ lift (distance_of (scan gt) final_position goal);;
  let is_success := bool_decide (d_final < error_margin self)%Qc in
  (if decide (splits self = ["test"]) then
     modify (append_success_path_length 0%Qc)
   else
     d1 <~ lift (distance_of (scan gt) start goal);;
     d2 <~ lift (distance_of (scan gt) start goal);;
     v <~ lift (truediv (bool_to_Qc is_success * d1)%Qc (py_max d2 distance));;
     modify (append_success_path_length v));;;
  ret (point_cnt, point_match).

(** The loop of [score] over the entries of the results file: [ids] is
    the local set [instr_ids] of ids still expected. *)
Fixpoint score_loop (items : list submission_item) (ids : gset string)
    (point_cnt point_match : nat) : M (gset string * nat * nat) :=
  match items with
  | [] => ret (ids, point_cnt, point_match)
  | item :: rest =>
      if decide (instr_id item ∈ ids) then
        c <~ _score_item (instr_id item) (trajectory item);;
        score_loop rest (ids ∖ {[instr_id item]})
                   (point_cnt + c.1) (point_match + c.2)
      else score_loop rest ids point_cnt point_match
  end.

Close Scope score_scope.

(** [",".join(l)]. *)
Fixpoint join_comma (l : list string) : string :=
  match l with
  | [] => ""
  | [s] => s
  | s :: l' => s +:+ "," +:+ join_comma l'
  end.

(** The message of the first assertion of [score]. *)
Definition missing_message (missing expected : nat) (output_file : string)
    : string :=
  "Missing " +:+ pretty missing +:+ " of " +:+ pretty expected
  +:+ " instruction ids from " +:+ join_comma (splits self)
  +:+ " - not in " +:+ output_file.

Definition Qc_of_nat (n : nat) : Qc := Qc_of_Z (Z.of_nat n).

Definition sum_Qc (l : list Qc) : Qc := foldr Qcplus 0%Qc l.

(** [np.average(l)].  On an empty list numpy returns [nan] with a warning;
    [score] then raises on the next division, so the value given here for
    the empty list never leaves [score]. *)
Definition np_average (l : list Qc) : Qc :=
  (sum_Qc l / Qc_of_nat (length l))%Qc.

Definition count_below (margin : Qc) (l : list Qc) : nat :=
  length (filter (λ i, (i < margin)%Qc) l).

(** [score(output_file)], where [items] is what [json.load] reads from the
    file. *)
Definition score (output_file : string) (items : list submission_item)
    : result (score_summary * scores) :=
  match score_loop items (instr_ids self) 0 0 empty_scores with
  | (_, Raise e) => Raise e
  | (sc, Ok (ids, point_cnt, point_match)) =>
      assert (bool_decide (size ids = 0%nat))
             (missing_message (size ids) (size (instr_ids self)) output_file);;
      assert (bool_decide (length (nav_errors sc) = size (instr_ids self))) "";;
      success ← truediv (Qc_of_nat (count_below (error_margin self) (nav_errors sc)))
                        (Qc_of_nat (length (nav_errors sc)));
      oracle ← truediv (Qc_of_nat (count_below (error_margin self) (oracle_errors sc)))
                       (Qc_of_nat (length (oracle_errors sc)));
      single_step ← truediv (Qc_of_nat point_match) (Qc_of_nat point_cnt);
      Ok (ScoreSummary
            (np_average (nav_errors sc))
            (np_average (oracle_errors sc))
            (np_average (Qc_of_Z <$> trajectory_steps sc))
            (np_average (trajectory_lengths sc))
            (np_average (success_path_length sc))
            success oracle,
          sc)
  end.

(** *** Notions the statements below are phrased with *)

(** The distance of a visited point to the goal is in the table. *)
Definition reads_goal_distance (scan goal : string) (p : traj_point) : Prop :=
  ∃ d, distance_of scan (viewpoint p) goal = Ok d.

(** Success indicator times the distance [d] from start to goal, over the
    larger of [d] and the trajectory length [len]; [nav] is the
    navigation error. *)
Definition spl_formula (nav d len : Qc) : Qc :=
  (bool_to_Qc (bool_decide (nav < error_margin self)%Qc) * d / py_max d len)%Qc.

(** The sum of the table's distances between consecutive viewpoints of a
    path. *)
Fixpoint consecutive_distances (scan : string) (vps : list string)
    : result Qc :=
  match vps with
  | a :: rest =>
      match rest with
      | b :: _ =>
          d ← distance_of scan a b;
          s ← consecutive_distances scan rest;
          Ok (d + s)%Qc
      | [] => Ok 0%Qc
      end
  | [] => Ok 0%Qc
  end.

(** The index pairs the step-alignment counters range over: a position
    of the submitted path and a position of the ground-truth path,
    neither of them the last. *)
Definition index_pairs (gt_path : list string) (path : list traj_point)
    : list (nat * nat) :=
  idx ← seq 0 (length path - 1);
  gt_idx ← seq 0 (length gt_path - 1);
  [(idx, gt_idx)].

(** The submitted viewpoint at [ij.1] is the ground-truth viewpoint at
    [ij.2]. *)
Definition candidate (gt_path : list string) (path : list traj_point)
    (ij : nat * nat) : Prop :=
  gt_path !! ij.2 = viewpoint <$> path !! ij.1.

(** A candidate whose next submitted viewpoint is the next ground-truth
    viewpoint. *)
Definition matched (gt_path : list string) (path : list traj_point)
    (ij : nat * nat) : Prop :=
  candidate gt_path path ij
  ∧ gt_path !! S ij.2 = viewpoint <$> path !! S ij.1.

#[global] Instance candidate_dec gt_path path ij :
  Decision (candidate gt_path path ij).
Proof. unfold candidate. apply _. Defined.
#[global] Instance matched_dec gt_path path ij :
  Decision (matched gt_path path ij).
Proof. unfold matched. apply _. Defined.

(** Each of the five score lists has [n] elements. *)
Definition lengths_are (n : nat) (s : scores) : Prop :=
  length (nav_errors s) = n
  ∧ length (oracle_errors s) = n
  ∧ length (trajectory_steps s) = n
  ∧ length (trajectory_lengths s) = n
  ∧ length (success_path_length s) = n.

(** The entry's id names a ground-truth item, and the entry's trajectory
    starts somewhere else than that item's path. *)
Definition start_mismatch (item : submission_item) : Prop :=
  ∃ key g start p0,
    int_of_str (split_underscore_0 (instr_id item)) = Ok key
    ∧ gt self !! key = Some g
    ∧ head (path g) = Some start
    ∧ head (trajectory item) = Some p0
    ∧ viewpoint p0 ≠ start.

End Scoring.

(** *** [Evaluation.__init__] *)

(** [load_datasets(splits, opts)]: [files] gives, for a split, the items of
    the file that [opts] selects for it. *)
Fixpoint load_datasets (files : gmap string (list gt_item))
    (splits : list string) : result (list gt_item) :=
  match splits with
  | [] => Ok []
  | split :: splits' =>
      match files !! split with
      | None => Raise FileNotFoundError
      | Some data =>
          rest ← load_datasets files splits';
          Ok (app data rest)
      end
  end.

(** ['%d_%d' % (path_id, i)]. *)
Definition format_instr_id (path_id : Z) (i : nat) : string :=
  pretty path_id +:+ "_" +:+ pretty i.

Section Init.

(** The reading of [x ** 0.5] on exact rationals. *)
Variable root : Qc → Qc.

#[local] Instance init_ops : Num.ops Qc := Num.for_Qc root.

(** The loop that fills [self.distances]. *)
Fixpoint distances_loop (graphs : list (string * Nx.Graph Qc))
    : option (result (gmap string (gmap string (gmap string Qc)))) :=
  match graphs with
  | [] => Some (Ok ∅)
  | (scan, G) :: graphs' =>
      match Nx.all_pairs_dijkstra_path_length G with
      | None => None
      | Some (Raise e) => Some (Raise e)
      | Some (Ok t) =>
          match distances_loop graphs' with
          | Some (Ok d) => Some (Ok (<[scan := t]> d))
          | r => r
          end
      end
  end.

(** [Evaluation(splits, opts)]: [datasets] and [connectivity] stand for
    the files read.  [None] only if a shortest-path run had too little
    fuel. *)
Definition init (datasets : gmap string (list gt_item))
    (connectivity : gmap string (list (Utils.conn_record Qc)))
    (splits : list string) : option (result Evaluation) :=
  match load_datasets datasets splits with
  | Raise e => Some (Raise e)
  | Ok items =>
      let gt : gmap Z gt_item :=
        foldl (λ m item, <[path_id item := item]> m) ∅ items in
      let scans : gset string := list_to_set (scan <$> items) in
      let instr_ids : gset string :=
        list_to_set (items ≫= λ item, format_instr_id (path_id item) <$> [0; 1; 2]%nat) in
      match Utils.load_nav_graphs connectivity scans with
      | Raise e => Some (Raise e)
      | Ok graphs =>
          match distances_loop (map_to_list graphs) with
          | None => None
          | Some (Raise e) => Some (Raise e)
          | Some (Ok distances) =>
              Some (Ok (MkEvaluation (Qc_of_Z 3) splits gt instr_ids scans graphs
                                    distances))
          end
      end
  end.

End Init.

End EvalPy.

(** ** Concrete environments and submissions

    Small inputs on which the definitions above are run. *)

Module Fixtures.
Import EvalPy.

(** A trajectory point at a viewpoint, looking straight ahead. *)
Definition at_viewpoint (v : string) : traj_point := TrajPoint v 0%Qc 0%Qc.

(** The ground truth [[A, B, C]] and the submission [[A, B, D, C]]. *)
Definition abc : list string := ["A"; "B"; "C"].
Definition abdc : list traj_point := at_viewpoint <$> ["A"; "B"; "D"; "C"].

(** A pose: the identity rotation and the translation [(x, y, z)], as the
    16 entries of a row-major 4x4 matrix. *)
Definition pose_at {T} (o i x y z : T) : list T :=
  [i; o; o; x;  o; i; o; y;  o; o; i; z;  o; o; o; i].

Definition pose_Qc (x y z : Z) : list Qc :=
  pose_at 0%Qc 1%Qc (Qc_of_Z x) (Qc_of_Z y) (Qc_of_Z z).

(** A scan with three viewpoints that all see each other: [A] at the
    origin, [B] at [(3, 4, 0)] and [C] at [(6, 0, 0)], so that [A-B] and
    [B-C] are 5 long and [A-C] is 6 long. *)
Definition triangle : list (Utils.conn_record Qc) :=
  [ Utils.ConnRecord "A" true (pose_Qc 0 0 0) [false; true; true];
    Utils.ConnRecord "B" true (pose_Qc 3 4 0) [true; false; true];
    Utils.ConnRecord "C" true (pose_Qc 6 0 0) [true; true; false] ].

Definition triangle_files : gmap string (list (Utils.conn_record Qc)) :=
  {[ "scan" := triangle ]}.

(** The graph and the table the loader and the shortest-path runs build
    for a scan, over the rationals. *)
Definition graph_Qc (data : list (Utils.conn_record Qc)) : Nx.Graph Qc :=
  match Utils.load_nav_graph (H := Num.for_Qc Num.sqrt_Qc) data with
  | Ok g => g
  | Raise _ => Nx.empty_graph
  end.

(** The triangle with the flag from [B] to [A] cleared. *)
Definition one_sided : list (Utils.conn_record Qc) :=
  [ Utils.ConnRecord "A" true (pose_Qc 0 0 0) [false; true; true];
    Utils.ConnRecord "B" true (pose_Qc 3 4 0) [false; false; true];
    Utils.ConnRecord "C" true (pose_Qc 6 0 0) [true; true; false] ].

(** Two corridors in binary64, [a - b - c - d], each viewpoint seeing
    only its neighbours.  In the long one the steps are 2^53, 1 and 1
    long; in the short one 0.1, 0.2 and 0.3. *)
Definition pose_float (x y z : float) : list float :=
  pose_at 0%float 1%float x y z.

Definition two_53 : float := 9007199254740992%float.

Definition long_corridor : list (Utils.conn_record float) :=
  [ Utils.ConnRecord "a" true (pose_float 0 0 0) [false; true; false; false];
    Utils.ConnRecord "b" true (pose_float two_53 0 0) [true; false; true; false];
    Utils.ConnRecord "c" true (pose_float two_53 1 0) [false; true; false; true];
    Utils.ConnRecord "d" true (pose_float two_53 2 0) [false; false; true; false] ].

Definition tenth : float := 0x1.999999999999ap-4%float.
Definition fifth : float := 0x1.999999999999ap-3%float.
Definition three_tenths : float := 0x1.3333333333333p-2%float.

Definition short_corridor : list (Utils.conn_record float) :=
  [ Utils.ConnRecord "a" true (pose_float 0 0 0) [false; true; false; false];
    Utils.ConnRecord "b" true (pose_float tenth 0 0) [true; false; true; false];
    Utils.ConnRecord "c" true (pose_float tenth fifth 0)
                     [false; true; false; true];
    Utils.ConnRecord "d" true (pose_float tenth fifth three_tenths)
                     [false; false; true; false] ].

(** The table built for a corridor, empty if none was built. *)
Definition table_float (data : list (Utils.conn_record float))
    : Nx.adjacency float :=
  match Utils.load_nav_graph (H := Num.for_float) data with
  | Ok g =>
      match Nx.all_pairs_dijkstra_path_length (H := Num.for_float) g with
      | Some (Ok t) => t
      | _ => ∅
      end
  | Raise _ => ∅
  end.

(** A data set with one path, [A, B, C], through the triangle. *)
Definition detour_item : gt_item :=
  GtItem 7 "scan" ["A"; "B"; "C"] ["go"; "walk"; "move"].

Definition detour_data : gmap string (list gt_item) :=
  {[ "val_seen" := [detour_item] ]}.

Definition no_evaluation : Evaluation := MkEvaluation 0%Qc [] ∅ ∅ ∅ ∅ ∅.

(** What a run of [__init__] built, [no_evaluation] if it built nothing. *)
Definition built (r : option (result Evaluation)) : Evaluation :=
  match r with Some (Ok e) => e | _ => no_evaluation end.

(** [Evaluation(['val_seen'], opts)] over that data set. *)
Definition detour_eval : Evaluation :=
  built (init Num.sqrt_Qc detour_data triangle_files ["val_seen"]).

(** The trajectory that follows the ground truth, the direct one, and
    one that reaches the goal and walks on. *)
Definition along_abc : list traj_point := at_viewpoint <$> ["A"; "B"; "C"].
Definition direct_ac : list traj_point := at_viewpoint <$> ["A"; "C"].
Definition past_c : list traj_point := at_viewpoint <$> ["A"; "C"; "B"].
(** A trajectory that starts at [B]. *)
Definition from_b : list traj_point := at_viewpoint <$> ["B"; "C"].

(** A complete results file, one with the first id answered twice, and
    one in which the second answer to the first id starts at [B]. *)
Definition complete_file : list submission_item :=
  [ SubmissionItem "7_0" along_abc; SubmissionItem "7_1" along_abc;
    SubmissionItem "7_2" direct_ac ].
Definition repeated_file : list submission_item :=
  [ SubmissionItem "7_0" along_abc; SubmissionItem "7_0" direct_ac;
    SubmissionItem "7_1" along_abc; SubmissionItem "7_2" direct_ac ].
Definition late_mismatch_file : list submission_item :=
  complete_file ++ [SubmissionItem "7_0" from_b].

(** A data set whose only path, [A, C], is a shortest one. *)
Definition direct_item : gt_item := GtItem 8 "scan" ["A"; "C"] ["cross"; "over"; "go"].
Definition direct_eval : Evaluation :=
  built (init Num.sqrt_Qc {[ "val_seen" := [direct_item] ]} triangle_files
              ["val_seen"]).

(** A data set whose only path has a single viewpoint. *)
Definition single_item : gt_item := GtItem 9 "scan" ["A"] ["stay"; "wait"; "stop"].
Definition single_eval : Evaluation :=
  built (init Num.sqrt_Qc {[ "val_seen" := [single_item] ]} triangle_files
              ["val_seen"]).

End Fixtures.

(** ** Further notions about the evaluator *)

Module EvalNotions.
Import EvalPy.

(** The distance of [p] to the goal is in the table of [self] and relates
    to [o] as [R] says. *)
Definition goal_distance (self : Evaluation) (scan goal : string)
    (R : Qc → Qc → Prop) (o : Qc) (p : traj_point) : Prop :=
  ∃ d, distance_of self scan (viewpoint p) goal = Ok d ∧ R o d.

(** Every character of [s] satisfies [P]. *)
Fixpoint all_chars (P : ascii → Prop) (s : string) : Prop :=
  match s with
  | EmptyString => True
  | String c s' => P c ∧ all_chars P s'
  end.

End EvalNotions.

(** ** Python text

    A [str] whose characters are all below U+0100 is the [string] of its
    code points.  The character classes are Python's on these code
    points: [str.isspace], the class [\w] of [re] for [str] patterns,
    [str.lower] and the characters of [string.punctuation]. *)

Module Text.

Definition between (lo hi : nat) (c : ascii) : bool :=
  (lo <=? nat_of_ascii c)%nat && (nat_of_ascii c <=? hi)%nat.

Definition is_code (n : nat) (c : ascii) : bool := (nat_of_ascii c =? n)%nat.

(** [c.isspace()]: tab to carriage return, the four separators, space,
    next line and no-break space. *)
Definition is_space (c : ascii) : bool :=
  between 9 13 c || between 28 32 c || is_code 133 c || is_code 160 c.

(** [c] matches [\w]: a letter, a digit or a numeric character, or the
    underscore. *)
Definition is_word (c : ascii) : bool :=
  between 48 57 c || between 65 90 c || is_code 95 c || between 97 122 c
  || is_code 170 c || between 178 179 c || is_code 181 c || between 185 186 c
  || between 188 190 c || between 192 214 c || between 216 246 c
  || between 248 255 c.

(** [c in string.punctuation]. *)
Definition is_punctuation (c : ascii) : bool :=
  between 33 47 c || between 58 64 c || between 91 96 c || between 123 126 c.

(** [string.punctuation]. *)
Definition punctuation : string :=
  string_of_list_ascii
    (ascii_of_nat <$> (seq 33 15 ++ seq 58 7 ++ seq 91 6 ++ seq 123 4)%list).

Definition is_dot (c : ascii) : bool := is_code 46 c.

(** [c.lower()]: the capital letters, those with accents included, are
    32 code points below their small letters. *)
Definition lower_char (c : ascii) : ascii :=
  if between 65 90 c || between 192 214 c || between 216 222 c
  then ascii_of_nat (nat_of_ascii c + 32) else c.

(** [s.lower()]. *)
Fixpoint lower (s : string) : string :=
  match s with
  | EmptyString => EmptyString
  | String c s' => String (lower_char c) (lower s')
  end.

(** [s.lstrip()], [s.rstrip()] and [s.strip()]. *)
Fixpoint lstrip (s : string) : string :=
  match s with
  | String c s' => if is_space c then lstrip s' else s
  | EmptyString => EmptyString
  end.

Fixpoint rstrip (s : string) : string :=
  match s with
  | EmptyString => EmptyString
  | String c s' =>
      match rstrip s' with
      | EmptyString => if is_space c then EmptyString else String c EmptyString
      | r => String c r
      end
  end.

Definition strip (s : string) : string := rstrip (lstrip s).

(** [all(p(c) for c in s)]. *)
Fixpoint all_in (p : ascii → bool) (s : string) : bool :=
  match s with
  | EmptyString => true
  | String c s' => p c && all_in p s'
  end.


(** [list(s)]: the characters of [s], each a string. *)
Fixpoint chars (s : string) : list string :=
  match s with
  | EmptyString => []
  | String c s' => String c EmptyString :: chars s'
  end.

(** [sep.join(l)]. *)
Fixpoint join (sep : string) (l : list string) : string :=
  match l with
  | [] => ""
  | [s] => s
  | s :: l' => s +:+ sep +:+ join sep l'
  end.

(** [s.startswith(p)] and [p in s] for strings. *)
Fixpoint starts_with (p s : string) : bool :=
  match p, s with
  | EmptyString, _ => true
  | String a p', String b s' => Ascii.eqb a b && starts_with p' s'
  | String _ _, EmptyString => false
  end.

Fixpoint contains (s p : string) : bool :=
  starts_with p s
  || match s with
     | EmptyString => false
     | String _ s' => contains s' p
     end.

(** [re.split(r'(\W+)', s)]: the runs of word characters and, between
    them, the runs of other characters, which the group keeps in the
    list.  The list starts and ends with a run of word characters, empty
    when [s] starts or ends with another character.  The runs are found
    from the end of the string: a word character joins the first run, any
    other character joins the separator that follows it or starts a new
    one. *)
Fixpoint re_split_nonword (s : string) : list string :=
  match s with
  | EmptyString => [EmptyString]
  | String c s' =>
      match re_split_nonword s' with
      | [] => []
      | first :: rest =>
          if is_word c then String c first :: rest
          else
            match first, rest with
            | EmptyString, sep :: rest' => EmptyString :: String c sep :: rest'
            | _, _ => EmptyString :: String c EmptyString :: first :: rest
            end
      end
  end.

(** [l[i]] on a list for any integer [i]: a negative index counts from
    the end. *)
Definition list_getitem {A} (l : list A) (i : Z) : result A :=
  if (0 <=? i)%Z then index l (Z.to_nat i)
  else if (- Z.of_nat (length l) <=? i)%Z
       then index l (Z.to_nat (Z.of_nat (length l) + i))
       else Raise IndexError.

(** [l[:n]] on a list for any integer [n]. *)
Definition slice_to {A} (l : list A) (n : Z) : list A :=
  if (0 <=? n)%Z then take (Z.to_nat n) l
  else take (length l - Z.to_nat (- n)) l.

(** [[x] * n] for any integer [n]. *)
Definition repeat_item {A} (x : A) (n : Z) : list A := replicate (Z.to_nat n) x.

(** The shape of the list [re.split] returns: runs of word characters
    with, between any two, a run of other characters that is not
    empty. *)
Inductive alternating : list string → Prop :=
| alternating_one (w : string) :
    all_in is_word w = true → alternating [w]
| alternating_more (w sep : string) (l : list string) :
    all_in is_word w = true →
    all_in (λ c, negb (is_word c)) sep = true → sep ≠ "" →
    alternating l → alternating (w :: sep :: l).

End Text.

(** ** More Python exceptions

    [utils.py] can also leave through [sys.exit] and, where it calls into
    [torch], with a [TypeError] or a [RuntimeError]. *)

Module Outcome.

Inductive error :=
| Exn (e : exn)
| SystemExit (arg : string)
| TypeError
| RuntimeError.

Inductive outcome (A : Type) :=
| Returns (a : A)
| Fails (e : error).
Arguments Returns {A} a.
Arguments Fails {A} e.

#[global] Instance outcome_ret : MRet outcome := @Returns.
#[global] Instance outcome_bind : MBind outcome := λ A B f r,
  match r with Returns a => f a | Fails e => Fails e end.

(** A computation of the evaluator's kind, run here. *)
Definition of_result {A} (r : result A) : outcome A :=
  match r with Ok a => Returns a | Raise e => Fails (Exn e) end.

Definition returns {A} (r : outcome A) : bool :=
  match r with Returns _ => true | Fails _ => false end.

Ltac unfold_outcome :=
  unfold mbind, outcome_bind, mret, outcome_ret, of_result in *.

End Outcome.

(** ** [utils.py]: the class [Tokenizer] *)

Module TokenizerPy.
Import Text Outcome.

(** A [Tokenizer] object.  (Its attribute [table] is never read and is
    left out.) *)
Record Tokenizer := MkTokenizer {
  remove_punctuation : bool;
  reversed : bool;
  encoding_length : Z;
  vocab : option (list string);
  word_to_index : gmap string nat
}.

(** The loop [for i, word in enumerate(vocab): word_to_index[word] = i],
    from index [i] on. *)
Fixpoint index_words (i : nat) (vocab : list string) (m : gmap string nat)
    : gmap string nat :=
  match vocab with
  | [] => m
  | word :: vocab' => index_words (S i) vocab' (<[word := i]> m)
  end.

(** [Tokenizer(remove_punctuation, reversed, vocab, encoding_length)];
    the defaults are [False], [True], [None] and [20].  [if vocab:] holds
    for a list that is not empty. *)
Definition init (remove_punctuation reversed : bool)
    (vocab : option (list string)) (encoding_length : Z) : Tokenizer :=
  MkTokenizer remove_punctuation reversed encoding_length vocab
    (match vocab with
     | Some ((_ :: _) as words) => index_words 0 words ∅
     | _ => ∅
     end).

(** [Tokenizer()]. *)
Definition default : Tokenizer := init false true None 20.

(** The pieces [split_sentence] goes through: those of
    [SENTENCE_SPLIT_REGEX.split(sentence.strip())] that are not blank,
    stripped and in lower case. *)
Definition pieces (sentence : string) : list string :=
  (λ s, lower (strip s))
    <$> filter (λ s, 0 < String.length (strip s))%nat
               (re_split_nonword (strip sentence)).

(** The body of the loop of [split_sentence]: what [word] adds to
    [toks]. *)
Definition tokens_of (word : string) : list string :=
  if all_in is_punctuation word && negb (all_in is_dot word)
  then chars word else [word].

(** [split_sentence(sentence)].  It reads nothing of [self]. *)
Definition split_sentence (sentence : string) : list string :=
  pieces sentence ≫= tokens_of.

(** The loop of [encode_sentence] over the words. *)
Fixpoint encode_words (self : Tokenizer) (words : list string)
    : result (list nat) :=
  match words with
  | [] => Ok []
  | word :: words' =>
      i ← (match word_to_index self !! word with
           | Some i => Ok i
           | None => getitem (word_to_index self) "<UNK>"
           end);
      rest ← encode_words self words';
      Ok (i :: rest)
  end.

Definition no_vocab_message : string := "Tokenizer has no vocab".

(** The words [encode_sentence] looks up: those of [split_sentence], in
    reverse order if [self.reversed], without those that occur in
    [string.punctuation] if [self.remove_punctuation]. *)
Definition splited (self : Tokenizer) (sentence : string) : list string :=
  let splited := split_sentence sentence in
  let splited := if reversed self then reverse splited else splited in
  if remove_punctuation self
  then filter (λ word, contains punctuation word = false) splited
  else splited.

(** [encode_sentence(sentence)]; the array returned is given as the list
    of its elements. *)
Definition encode_sentence (self : Tokenizer) (sentence : string)
    : outcome (list nat) :=
  if decide (size (word_to_index self) = 0%nat)
  then Fails (SystemExit no_vocab_message)
  else
    encoding ← of_result (encode_words self (splited self sentence));
    eos ← of_result (getitem (word_to_index self) "<EOS>");
    let encoding := (encoding ++ [eos])%list in
    start ← of_result (getitem (word_to_index self) "<START>");
    let encoding := start :: encoding in
    encoding ←
      (if decide (Z.of_nat (length encoding) < encoding_length self)%Z then
         pad ← of_result (getitem (word_to_index self) "<PAD>");
         Returns (encoding
                  ++ repeat_item pad (encoding_length self
                                      - Z.of_nat (length encoding)))%list
       else Returns encoding);
    Returns (slice_to encoding (encoding_length self)).

(** The loop of [decode_sentence]; [sentence] is the list built so
    far. *)
Fixpoint decode_loop (self : Tokenizer) (encoding : list Z)
    (sentence : list string) : outcome (list string) :=
  match encoding with
  | [] => Returns sentence
  | ix :: encoding' =>
      pad ← of_result (getitem (word_to_index self) "<PAD>");
      if decide (ix = Z.of_nat pad) then Returns sentence
      else
        match vocab self with
        | None => Fails TypeError
        | Some words =>
            word ← of_result (list_getitem words ix);
            decode_loop self encoding' (sentence ++ [word])%list
        end
  end.

(** [decode_sentence(encoding)], for a sequence of integers. *)
Definition decode_sentence (self : Tokenizer) (encoding : list Z)
    : outcome string :=
  sentence ← decode_loop self encoding [];
  let sentence := if reversed self then reverse sentence else sentence in
  Returns (join " " sentence).

(** *** Notions the statements about the tokenizer are phrased with *)

(** The index [encode_sentence] writes for a word. *)
Definition word_index (self : Tokenizer) (word : string) : option nat :=
  match word_to_index self !! word with
  | Some i => Some i
  | None => word_to_index self !! "<UNK>"
  end.

(** The word that stands for [word] in an encoding: itself if it is in
    the vocabulary, otherwise ['<UNK>']. *)
Definition known (words : list string) (word : string) : string :=
  if decide (word ∈ words) then word else "<UNK>".

(** The words an encoding of [sentence] stands for, from the start mark
    to the end mark. *)
Definition marked (self : Tokenizer) (words : list string)
    (sentence : string) : list string :=
  "<START>" :: (known words <$> splited self sentence) ++ ["<EOS>"].

End TokenizerPy.

(** ** [utils.py]: vocabularies *)

Module VocabPy.
Import Text Outcome TokenizerPy.

Definition base_vocab : list string := ["<PAD>"; "<START>"; "<EOS>"; "<UNK>"].

(** [l.index(x)]. *)
Fixpoint index_of (x : string) (l : list string) : result nat :=
  match l with
  | [] => Raise ValueError
  | y :: l' => if decide (y = x) then Ok 0%nat else i ← index_of x l'; Ok (S i)
  end.

(** [padding_idx = base_vocab.index('<PAD>')]. *)
Definition padding_idx : result nat := index_of "<PAD>" base_vocab.

(** A [Counter]: its keys in the order in which they were first counted,
    each with its count. *)
Abbreviation Counter := (list (string * nat)).

(** [count[word] += 1]. *)
Fixpoint count_word (word : string) (count : Counter) : Counter :=
  match count with
  | [] => [(word, 1%nat)]
  | (w, n) :: count' =>
      if decide (w = word) then (w, S n) :: count'
      else (w, n) :: count_word word count'
  end.

(** [count.update(words)]. *)
Definition update (count : Counter) (words : list string) : Counter :=
  foldl (λ c word, count_word word c) count words.

(** [count.most_common()] sorts the items by decreasing count and keeps
    items of equal count in the order of the counter: [place] puts an
    item in front of a sorted list, behind the items of greater count. *)
Fixpoint place (item : string * nat) (sorted : Counter) : Counter :=
  match sorted with
  | [] => [item]
  | other :: sorted' =>
      if (item.2 <? other.2)%nat then other :: place item sorted'
      else item :: sorted
  end.

Definition most_common (count : Counter) : Counter := foldr place [] count.

(** The two loops of [build_vocab] that count the words. *)
Definition count_words (data : list EvalPy.gt_item) : Counter :=
  foldl (λ count item,
           foldl (λ count instr, update count (split_sentence instr))
                 count (EvalPy.instructions item))
        [] data.

(** The last loop of [build_vocab]: the words from the front of the list
    whose count is at least [min_count]. *)
Fixpoint frequent (min_count : Z) (items : Counter) : list string :=
  match items with
  | [] => []
  | (word, num) :: items' =>
      if (min_count <=? Z.of_nat num)%Z then word :: frequent min_count items'
      else []
  end.

(** [build_vocab(opts, splits, min_count, start_vocab)]; the defaults are
    [['train']], [5] and [base_vocab].  [files] gives, for a split, the
    items of the file that [opts] selects for it. *)
Definition build_vocab (files : gmap string (list EvalPy.gt_item))
    (splits : list string) (min_count : Z) (start_vocab : list string)
    : result (list string) :=
  data ← EvalPy.load_datasets files splits;
  Ok (start_vocab ++ frequent min_count (most_common (count_words data)))%list.

(** *** Vocabulary files

    A text file is the string of its characters; [fs] holds the files by
    path.  Opening fails only when a file to read does not exist. *)

Definition newline : ascii := ascii_of_nat 10.
Definition carriage_return : ascii := ascii_of_nat 13.

(** What a text file gives when it is read: a carriage return, with the
    line feed that follows it if there is one, reads as one line feed. *)
Fixpoint universal_newlines (s : string) : string :=
  match s with
  | EmptyString => EmptyString
  | String c s' =>
      if Ascii.eqb c carriage_return then
        String newline
          (match s' with
           | String c' s'' =>
               if Ascii.eqb c' newline then universal_newlines s''
               else universal_newlines s'
           | EmptyString => EmptyString
           end)
      else String c (universal_newlines s')
  end.

(** The lines of a text, each with its line feed. *)
Fixpoint lines (s : string) : list string :=
  match s with
  | EmptyString => []
  | String c s' =>
      if Ascii.eqb c newline then String c EmptyString :: lines s'
      else
        match lines s' with
        | [] => [String c EmptyString]
        | line :: rest => String c line :: rest
        end
  end.

(** [f.readlines()]. *)
Definition readlines (text : string) : list string :=
  lines (universal_newlines text).

(** What the loop of [write_vocab] writes. *)
Fixpoint vocab_text (vocab : list string) : string :=
  match vocab with
  | [] => EmptyString
  | word :: vocab' => word +:+ String newline (vocab_text vocab')
  end.

(** [write_vocab(vocab, path)]. *)
Definition write_vocab (vocab : list string) (path : string)
    (fs : gmap string string) : gmap string string :=
  <[path := vocab_text vocab]> fs.

(** [read_vocab(path)]. *)
Definition read_vocab (path : string) (fs : gmap string string)
    : result (list string) :=
  match fs !! path with
  | None => Raise FileNotFoundError
  | Some text => Ok (strip <$> readlines text)
  end.

(** *** Notions the statements about vocabularies are phrased with *)

(** [count[word]], which is 0 for a word that was not counted. *)
Fixpoint counted (word : string) (count : Counter) : nat :=
  match count with
  | [] => 0
  | (w, n) :: count' => if decide (w = word) then n else counted word count'
  end.

(** [a] is counted at least as often as [b]. *)
Definition by_count (a b : string * nat) : Prop := (b.2 ≤ a.2)%nat.

(** The tokens of all instructions of a data set, in order. *)
Definition all_tokens (data : list EvalPy.gt_item) : list string :=
  item ← data; instr ← EvalPy.instructions item; split_sentence instr.

(** How often [word] occurs in a list. *)
Definition occurrences (word : string) (l : list string) : nat :=
  length (filter (λ w, w = word) l).

(** No line feed or carriage return in [s]. *)
Definition one_line (s : string) : Prop :=
  EvalNotions.all_chars (λ c, c ≠ newline ∧ c ≠ carriage_return) s.

End VocabPy.

(** ** [utils.py]: the class [AverageMeter]

    The numbers a meter is fed are read as exact rationals, as the
    evaluator's are. *)

Module MeterPy.

(** An [AverageMeter] object. *)
Record AverageMeter := MkAverageMeter {
  val : Qc;
  avg : Qc;
  sum : Qc;
  count : Qc
}.

(** [self.reset()]. *)
Definition reset (self : AverageMeter) : AverageMeter :=
  MkAverageMeter 0 0 0 0.

(** [AverageMeter()]: the attributes are those that [reset] sets. *)
Definition init : AverageMeter := MkAverageMeter 0 0 0 0.

(** [self.update(val, n)]; the default of [n] is [1].  The object as the
    call leaves it, and how the call ends: the division comes last, so a
    call that raises has changed [val], [sum] and [count] already. *)
Definition update (self : AverageMeter) (v n : Qc)
    : AverageMeter * result unit :=
  let sum' := (sum self + v * n)%Qc in
  let count' := (count self + n)%Qc in
  match EvalPy.truediv sum' count' with
  | Ok q => (MkAverageMeter v q sum' count', Ok tt)
  | Raise e => (MkAverageMeter v (avg self) sum' count', Raise e)
  end.

(** Calls [self.update(val, n)] one after the other, up to the first that
    raises. *)
Fixpoint updates (self : AverageMeter) (calls : list (Qc * Qc))
    : AverageMeter * result unit :=
  match calls with
  | [] => (self, Ok tt)
  | (v, n) :: calls' =>
      match update self v n with
      | (self', Ok _) => updates self' calls'
      | failed => failed
      end
  end.

(** *** Notions the statements about meters are phrased with *)

(** The sum of the weights [n] of a list of calls. *)
Definition weight (calls : list (Qc * Qc)) : Qc :=
  foldr (λ c acc, c.2 + acc)%Qc 0%Qc calls.

(** The sum of the products [val * n] of a list of calls. *)
Definition weighted_sum (calls : list (Qc * Qc)) : Qc :=
  foldr (λ c acc, c.1 * c.2 + acc)%Qc 0%Qc calls.

End MeterPy.

(** ** [utils.py]: [save_checkpoint] and the class [EarlyStopping]

    The files that [torch.save] writes are kept by path, each with the
    object that was saved in it.  Directories are not modelled, apart from
    the empty directory name, which [os.makedirs] refuses. *)

Module StoppingPy.

(** The operations [EarlyStopping] applies to a loss. *)
Class ops (T : Type) := Ops {
  neg : T → T;
  add : T → T → T;
  ltb : T → T → bool
}.

(** Exact rationals. *)
Definition for_Qc : ops Qc :=
  Ops Qc Qcopp Qcplus (λ a b, bool_decide (a < b)%Qc).

(** Python's [float]: IEEE 754 binary64. *)
Definition for_float : ops float :=
  Ops float PrimFloat.opp PrimFloat.add PrimFloat.ltb.

(** The attributes of [opts] that are read. *)
Record Opts := MkOpts {
  checkpoint_dir : string;
  exp_name : string
}.

Section Stopping.

Context {T : Type} `{ops T}.

(** [State] is the type of the objects that are saved. *)
Context {State : Type}.

(** [checkpoint_dir + name + '.pth.tar']. *)
Definition filename (checkpoint_dir name : string) : string :=
  (checkpoint_dir +:+ name) +:+ ".pth.tar".

(** [checkpoint_dir + name + '_model_best.pth.tar']. *)
Definition best_filename (checkpoint_dir name : string) : string :=
  (checkpoint_dir +:+ name) +:+ "_model_best.pth.tar".

(** [save_checkpoint(state, is_best, checkpoint_dir, name)]; the defaults
    of the last two are ['checkpoints/'] and ['checkpoint'].  The files as
    the call leaves them, and how the call ends. *)
Definition save_checkpoint (state : State) (is_best : bool)
    (checkpoint_dir name : string) (fs : gmap string State)
    : gmap string State * result unit :=
  if decide (checkpoint_dir = "") then (fs, Raise FileNotFoundError)
  else
    let fs := <[filename checkpoint_dir name := state]> fs in
    if is_best then
      match fs !! filename checkpoint_dir name with
      | Some saved =>
          (<[best_filename checkpoint_dir name := saved]> fs, Ok tt)
      | None => (fs, Raise FileNotFoundError)
      end
    else (fs, Ok tt).

(** An [EarlyStopping] object.  (Its attribute [val_loss_min] is never
    read and is left out.) *)
Record EarlyStopping := MkEarlyStopping {
  patience : Z;
  delta : T;
  path : string;
  verbose : bool;
  counter : Z;
  best_score : option T;
  early_stop : bool
}.

(** [EarlyStopping(patience, delta, path, verbose)]; the defaults are
    [20], [0], ['checkpoint.pt'] and [False]. *)
Definition init (patience : Z) (delta : T) (path : string) (verbose : bool)
    : EarlyStopping :=
  MkEarlyStopping patience delta path verbose 0 None false.

Definition set_best_score (self : EarlyStopping) (score : T) : EarlyStopping :=
  MkEarlyStopping (patience self) (delta self) (path self) (verbose self)
                  (counter self) (Some score) (early_stop self).

Definition set_counter (self : EarlyStopping) (counter : Z) : EarlyStopping :=
  MkEarlyStopping (patience self) (delta self) (path self) (verbose self)
                  counter (best_score self) (early_stop self).

Definition set_early_stop (self : EarlyStopping) : EarlyStopping :=
  MkEarlyStopping (patience self) (delta self) (path self) (verbose self)
                  (counter self) (best_score self) true.

(** [self(opts, state, val_loss, model)]: the object and the files as the
    call leaves them, and how the call ends.  ([model] is not used; what
    is printed when [verbose] is set is not modelled.) *)
Definition call (self : EarlyStopping) (opts : Opts) (state : State)
    (val_loss : T) (fs : gmap string State)
    : EarlyStopping * gmap string State * result unit :=
  let score := neg val_loss in
  match best_score self with
  | None =>
      let self := set_best_score self score in
      let '(fs, r) :=
        save_checkpoint state true (checkpoint_dir opts) (exp_name opts) fs in
      (self, fs, r)
  | Some best =>
      if ltb score (add best (delta self)) then
        let self := set_counter self (counter self + 1) in
        let self :=
          if decide (patience self ≤ counter self)%Z then set_early_stop self
          else self in
        (self, fs, Ok tt)
      else
        let self := set_best_score self score in
        match save_checkpoint state true (checkpoint_dir opts) (exp_name opts)
                              fs with
        | (fs, Ok _) => (set_counter self 0, fs, Ok tt)
        | (fs, Raise e) => (self, fs, Raise e)
        end
  end.

(** Calls [self(opts, state, val_loss, model)] for one [(state, val_loss)]
    after the other, up to the first call that raises. *)
Fixpoint calls (self : EarlyStopping) (opts : Opts)
    (epochs : list (State * T)) (fs : gmap string State)
    : EarlyStopping * gmap string State * result unit :=
  match epochs with
  | [] => (self, fs, Ok tt)
  | (state, val_loss) :: epochs' =>
      match call self opts state val_loss fs with
      | (self', fs', Ok _) => calls self' opts epochs' fs'
      | failed => failed
      end
  end.

End Stopping.

Arguments EarlyStopping T : clear implicits.

End StoppingPy.

(** *** Notions the statements about early stopping are phrased with *)

Module StoppingNotions.
Import StoppingPy.

Section AnyArithmetic.

Context {T : Type} `{ops T} {State : Type}.

Implicit Types (self : EarlyStopping T) (fs : gmap string State).

(** What a call never touches. *)
Record kept self fs self' fs' (opts : Opts) : Prop := Kept {
  kept_patience : patience self' = patience self;
  kept_delta : delta self' = delta self;
  kept_path : path self' = path self;
  kept_verbose : verbose self' = verbose self;
  kept_early_stop : early_stop self = true → early_stop self' = true;
  kept_best_score : is_Some (best_score self) → is_Some (best_score self');
  kept_files : ∀ p,
    p ≠ filename (checkpoint_dir opts) (exp_name opts) →
    p ≠ best_filename (checkpoint_dir opts) (exp_name opts) →
    fs' !! p = fs !! p
}.


End AnyArithmetic.

Section Exact.

Context {State : Type}.

Implicit Types (self : EarlyStopping Qc) (fs : gmap string State).

(** What holds after the calls for [epochs], none of which raised. *)
Record tracked (patience0 : Z) (delta0 : Qc) (opts : Opts)
    (epochs : list (State * Qc)) self fs (k : nat) (state : State) (loss : Qc)
    : Prop := Tracked {
  tracked_patience : patience self = patience0;
  tracked_delta : delta self = delta0;
  tracked_epoch : epochs !! k = Some (state, loss);
  tracked_file :
    fs !! filename (checkpoint_dir opts) (exp_name opts) = Some state;
  tracked_best :
    fs !! best_filename (checkpoint_dir opts) (exp_name opts) = Some state;
  tracked_score : best_score self = Some (- loss)%Qc;
  tracked_counter : counter self = Z.of_nat (length epochs - 1 - k);
  tracked_before : ∀ j st l,
    epochs !! j = Some (st, l) → (j < k)%nat → (loss <= l)%Qc;
  tracked_after : ∀ j st l,
    epochs !! j = Some (st, l) → (k < j)%nat → (loss - delta0 < l)%Qc;
  tracked_early_stop :
    early_stop self = false → counter self = 0%Z ∨ (counter self < patience0)%Z
}.

End Exact.

End StoppingNotions.

(** ** [utils.py]: padding tensors

    A tensor is its shape and its elements in row-major order.  The part
    of [torch] that is used is modelled from its documentation:
    [t.size(0)] is the first dimension, and an [IndexError] for a tensor
    without dimensions; [t.new(n, *rest).zero_()] is a tensor of zeros of
    shape [(n, *rest)], and a [RuntimeError] for a negative [n];
    [torch.cat] joins along the first dimension tensors whose other
    dimensions agree; [torch.stack] puts tensors of one shape side by side
    along a new first dimension, and is a [RuntimeError] for tensors of
    different shapes. *)

Module TensorPy.
Import Outcome.

Section Tensors.

(** The type of the elements, and its zero. *)
Context {A : Type} (zero : A).

Record Tensor := MkTensor {
  shape : list nat;
  data : list A
}.

(** The number of elements of a tensor of a given shape. *)
Definition numel (shape : list nat) : nat := foldr Nat.mul 1%nat shape.

(** [t.size(0)]. *)
Definition size0 (t : Tensor) : outcome nat :=
  match shape t with
  | [] => Fails (Exn IndexError)
  | n :: _ => Returns n
  end.

(** [t.new(n, *rest).zero_()]. *)
Definition new_zero (n : Z) (rest : list nat) : outcome Tensor :=
  if (n <? 0)%Z then Fails RuntimeError
  else Returns (MkTensor (Z.to_nat n :: rest)
                         (replicate (Z.to_nat n * numel rest) zero)).

(** [torch.cat([a, b])].  (A tensor of shape [(0,)] is also accepted
    beside one of another shape; [pad_tensor] joins tensors whose other
    dimensions agree.) *)
Definition cat (a b : Tensor) : outcome Tensor :=
  match shape a, shape b with
  | na :: rest_a, nb :: rest_b =>
      if decide (rest_a = rest_b)
      then Returns (MkTensor ((na + nb)%nat :: rest_a) (data a ++ data b))
      else Fails RuntimeError
  | _, _ => Fails RuntimeError
  end.

(** [torch.stack(ts)]. *)
Definition stack (ts : list Tensor) : outcome Tensor :=
  match ts with
  | [] => Fails RuntimeError
  | t :: _ =>
      if forallb (λ t', bool_decide (shape t' = shape t)) ts
      then Returns (MkTensor (length ts :: shape t) (ts ≫= data))
      else Fails RuntimeError
  end.

(** [pad_tensor(tensor, length)]. *)
Definition pad_tensor (tensor : Tensor) (length : Z) : outcome Tensor :=
  n ← size0 tensor;
  if decide (Z.of_nat n = length) then Returns tensor
  else
    n' ← size0 tensor;
    zeros ← new_zero (length - Z.of_nat n') (tail (shape tensor));
    cat tensor zeros.

(** [[x.size(0) for x in list_tensors]]. *)
Fixpoint sizes (list_tensors : list Tensor) : outcome (list nat) :=
  match list_tensors with
  | [] => Returns []
  | x :: rest =>
      n ← size0 x;
      ns ← sizes rest;
      Returns (n :: ns)
  end.

(** [find_length(list_tensors)].  (For a list of [numpy] arrays the
    lengths are [x.shape[0]], which is read the same way.) *)
Definition find_length (list_tensors : list Tensor) : outcome (list nat) :=
  match list_tensors with
  | [] => Fails (Exn IndexError)
  | _ => sizes list_tensors
  end.

(** The loop of [pad_list_tensors]. *)
Fixpoint pad_loop (list_tensor : list Tensor) (max_length : Z)
    : outcome (list Tensor) :=
  match list_tensor with
  | [] => Returns []
  | tensor :: rest =>
      n ← size0 tensor;
      tensor' ← (if decide (Z.of_nat n ≠ max_length)
                 then pad_tensor tensor max_length
                 else Returns tensor);
      padded ← pad_loop rest max_length;
      Returns (tensor' :: padded)
  end.

(** [pad_list_tensors(list_tensor, max_length)]; the default of
    [max_length] is [None]. *)
Definition pad_list_tensors (list_tensor : list Tensor)
    (max_length : option Z) : outcome (Tensor * list nat) :=
  tensor_length ← find_length list_tensor;
  let max_length :=
    match max_length with
    | None => Z.of_nat (max_list tensor_length)
    | Some m => m
    end in
  list_padded_tensor ← pad_loop list_tensor max_length;
  stacked ← stack list_padded_tensor;
  Returns (stacked, tensor_length).

(** *** Notions the statements about padding are phrased with *)

(** A tensor has as many elements as its shape says. *)
Definition well_formed (t : Tensor) : Prop :=
  length (data t) = numel (shape t).

(** The first dimension of a tensor that has one. *)
Definition first_dim (t : Tensor) : nat := hd 0%nat (shape t).

(** The elements of a tensor whose rows have shape [rest], followed by
    the zeros that fill it up to [max_length] rows. *)
Definition padded (max_length : nat) (rest : list nat) (t : Tensor)
    : list A :=
  data t ++ replicate ((max_length - first_dim t) * numel rest) zero.

End Tensors.

Arguments Tensor A : clear implicits.

End TensorPy.

(** ** More concrete inputs *)

Module MoreFixtures.
Import EvalPy Fixtures.

(** A results file in which no trajectory leaves the start. *)
Definition still_file : list submission_item :=
  [ SubmissionItem "7_0" [at_viewpoint "A"];
    SubmissionItem "7_1" [at_viewpoint "A"];
    SubmissionItem "7_2" [at_viewpoint "A"] ].


(** A data set with one item, whose instructions repeat some words. *)
Definition sofa_item : gt_item :=
  GtItem 11 "scan" ["A"; "B"; "C"]
         ["Walk past the sofa."; "Go past the sofa, then stop!!";
          "Walk to the Sofa... and wait"].

Definition sofa_data : gmap string (list gt_item) :=
  {[ "train" := [sofa_item] ]}.

(** The vocabulary of its words that occur at least twice, and a
    tokenizer over it with encodings of length 8. *)
Definition sofa_vocab : list string :=
  ["<PAD>"; "<START>"; "<EOS>"; "<UNK>"; "the"; "sofa"; "walk"; "past"; "!"].

Definition sofa_tokenizer : TokenizerPy.Tokenizer :=
  TokenizerPy.init false true (Some sofa_vocab) 8.

(** Three updates of a meter: the value 2 with weight 1, 4 with weight 3
    and 6 with weight 1. *)
Definition three_updates : list (Qc * Qc) :=
  [(Qc_of_Z 2, Qc_of_Z 1); (Qc_of_Z 4, Qc_of_Z 3); (Qc_of_Z 6, Qc_of_Z 1)].

(** A training run of five epochs, the state of an epoch being its
    number: the loss falls to 3, rises, comes back to 3 and rises. *)
Definition run_opts : StoppingPy.Opts := StoppingPy.MkOpts "checkpoints/" "run".

Definition five_epochs : list (nat * Qc) :=
  [(0%nat, Qc_of_Z 5); (1%nat, Qc_of_Z 3); (2%nat, Qc_of_Z 4);
   (3%nat, Qc_of_Z 3); (4%nat, Qc_of_Z 6)].

(** The files before the run: one at the path the stopper was given. *)
Definition files_before : gmap string nat := {[ "checkpoint.pt" := 7%nat ]}.

(** Two matrices with two columns, of one and of three rows. *)
Definition one_row : TensorPy.Tensor Z := TensorPy.MkTensor [1; 2]%nat [1; 2]%Z.
Definition three_rows : TensorPy.Tensor Z :=
  TensorPy.MkTensor [3; 2]%nat [3; 4; 5; 6; 7; 8]%Z.

End MoreFixtures.

(** * Properties *)

(** ** The scorer: [_get_nearest] and [_score_item] *)

Module ScorerFacts.
Import EvalPy.
Local Open Scope list_scope.

Lemma bind_lift {A B} (r : result A) (k : A → M B) (s : scores) :
  bind (lift r) k s = match r with Ok a => k a s | Raise e => (s, Raise e) end.
Proof. unfold bind, lift. by destruct r. Qed.

Lemma bind_modify {B} (f : scores → scores) (k : unit → M B) (s : scores) :
  bind (modify f) k s = k tt (f s).
Proof. reflexivity. Qed.

Ltac run_step := repeat (rewrite bind_lift || rewrite bind_modify).
Ltac run_with H := run_step; rewrite H; cbv beta iota.

Lemma index_0_Ok {A} (l : list A) (x : A) : index l 0 = Ok x ↔ head l = Some x.
Proof. unfold index. destruct l; simpl; split; intros; by simplify_eq. Qed.

Lemma getitem_Ok `{Countable K} {V} (d : gmap K V) (k : K) (v : V) :
  getitem d k = Ok v ↔ d !! k = Some v.
Proof. unfold getitem. destruct (d !! k); split; intros; by simplify_eq. Qed.

Lemma index_last_Ok {A} (l : list A) (x : A) :
  index_last l = Ok x ↔ last l = Some x.
Proof. unfold index_last. destruct (last l); split; intros; by simplify_eq. Qed.

Section Nearest.
Variable self : Evaluation.
Variables scan goal : string.

Lemma nearest_loop_spec (items : list traj_point) :
  ∀ near_id near_d id' d',
    nearest_loop self scan goal items near_id near_d = Ok (id', d') →
    (d' ≤ near_d)%Qc
    ∧ Forall (λ p, ∃ d, distance_of self scan (viewpoint p) goal = Ok d
                        ∧ (d' ≤ d)%Qc) items
    ∧ ((id', d') = (near_id, near_d)
       ∨ (id' ∈ viewpoint <$> items
          ∧ distance_of self scan id' goal = Ok d')).
Proof.
  induction items as [|p items IH]; intros near_id near_d id' d'; simpl.
  - intros [= -> ->]. split; [reflexivity|]. split; [constructor|by left].
  - unfold_result.
    destruct (distance_of self scan (viewpoint p) goal) as [d|] eqn:Hd; [|done].
    destruct (decide (d < near_d)%Qc) as [Hlt|Hge]; intros Hloop;
      apply IH in Hloop as (Hle & Hall & Hsrc).
    + split; [by etrans; [|apply Qclt_le_weak]|].
      split; [constructor; eauto|].
      right. destruct Hsrc as [[= -> ->]|[Hin Hd']].
      * split; [apply list_elem_of_here|done].
      * split; [by apply list_elem_of_further|done].
    + split; [done|]. split.
      * constructor; [|done]. exists d. split; [done|].
        etrans; [done|]. by apply Qcnot_lt_le.
      * destruct Hsrc as [?|[Hin Hd']]; [by left|right].
        split; [by apply list_elem_of_further|done].
Qed.

Lemma nearest_loop_total (items : list traj_point) :
  Forall (reads_goal_distance self scan goal) items →
  ∀ near_id near_d, ∃ r, nearest_loop self scan goal items near_id near_d = Ok r.
Proof.
  induction 1 as [|p items [d Hd] _ IH]; intros near_id near_d; simpl.
  - eauto.
  - unfold_result. rewrite Hd. destruct (decide _); apply IH.
Qed.

Lemma get_nearest_spec (path : list traj_point) (nearest : string) :
  _get_nearest self scan goal path = Ok nearest →
  nearest ∈ viewpoint <$> path
  ∧ ∃ o, distance_of self scan nearest goal = Ok o
         ∧ Forall (λ p, ∃ d, distance_of self scan (viewpoint p) goal = Ok d
                             ∧ (o ≤ d)%Qc) path.
Proof.
  unfold _get_nearest. unfold_result.
  destruct (index path 0) as [p0|] eqn:Hp0; [|done].
  destruct (distance_of self scan (viewpoint p0) goal) as [d0|] eqn:Hd0; [|done].
  destruct (nearest_loop _ _ _ _ _ _) as [[id' d']|] eqn:Hloop; [|done].
  intros [= <-]. simpl.
  apply nearest_loop_spec in Hloop as (_ & Hall & Hsrc).
  apply index_0_Ok in Hp0. destruct path as [|p path]; simplify_eq/=.
  destruct Hsrc as [[= -> ->]|[Hin Hd']].
  - split; [apply list_elem_of_here|eauto].
  - split; [done|eauto].
Qed.

Lemma get_nearest_total (path : list traj_point) :
  path ≠ [] → Forall (reads_goal_distance self scan goal) path →
  ∃ nearest, _get_nearest self scan goal path = Ok nearest.
Proof.
  intros Hne Hall. unfold _get_nearest. unfold_result.
  destruct path as [|p0 path]; [done|].
  change (index (p0 :: path) 0) with (Ok p0). cbv beta iota.
  pose proof Hall as Hall'. apply Forall_cons in Hall' as [[d0 Hd0] _].
  rewrite Hd0. cbv beta iota.
  destruct (nearest_loop_total (p0 :: path) Hall (viewpoint p0) d0) as [r Hr].
  rewrite Hr. eauto.
Qed.

End Nearest.

Section ScoreItem.
Variable self : Evaluation.

(** Everything a successful call of [_score_item] went through. *)
Lemma score_item_Ok_inv (id : string) (path : list traj_point)
    (st st' : scores) (r : nat * nat) :
  _score_item self id path st = (st', Ok r) →
  ∃ key g start p0 goal final nearest nav oracle len d v,
    int_of_str (split_underscore_0 id) = Ok key
    ∧ gt self !! key = Some g
    ∧ head (EvalPy.path g) = Some start
    ∧ head path = Some p0
    ∧ start = viewpoint p0
    ∧ last (EvalPy.path g) = Some goal
    ∧ is_Some (EvalPy.path g !! 1%nat)
    ∧ last path = Some final
    ∧ _get_nearest self (scan g) goal path = Ok nearest
    ∧ distance_of self (scan g) (viewpoint final) goal = Ok nav
    ∧ distance_of self (scan g) nearest goal = Ok oracle
    ∧ length_loop self (scan g) p0 (tail path) 0%Qc = Ok len
    ∧ distance_of self (scan g) start goal = Ok d
    ∧ (if decide (splits self = ["test"]) then v = 0%Qc
       else py_max d len ≠ 0%Qc ∧ v = spl_formula self nav d len)
    ∧ r = point_counts (EvalPy.path g) path
    ∧ st' = Scores (nav_errors st ++ [nav]) (oracle_errors st ++ [oracle])
                   (trajectory_steps st ++ [(Z.of_nat (length path) - 1)%Z])
                   (trajectory_lengths st ++ [len])
                   (success_path_length st ++ [v]).
Proof.
  unfold _score_item. run_step.
  destruct (int_of_str _) as [key|] eqn:Hkey; [|done]. run_step.
  destruct (getitem _ _) as [g|] eqn:Hg; [|done]. run_step.
  destruct (index (EvalPy.path g) 0) as [start|] eqn:Hstart; [|done].
  run_step.
  destruct (index path 0) as [p0|] eqn:Hp0; [|done]. run_step.
  destruct (assert _ _) as [[]|] eqn:Heq; [|done].
  unfold assert in Heq. case_bool_decide as Hsame; [clear Heq|done].
  run_step.
  destruct (index_last (EvalPy.path g)) as [goal|] eqn:Hgoal; [|done].
  run_step.
  destruct (index (EvalPy.path g) 1) as [first_step|] eqn:Hfirst; [|done].
  destruct (point_counts (EvalPy.path g) path) as [cnt mt] eqn:Hcounts.
  run_step.
  destruct (index_last path) as [final|] eqn:Hfinal; [|done]. run_step.
  destruct (_get_nearest _ _ _ _) as [nearest|] eqn:Hnearest; [|done].
  run_step.
  destruct (distance_of self (scan g) (viewpoint final) goal) as [nav|] eqn:Hnav;
    [|done].
  run_step.
  destruct (distance_of self (scan g) nearest goal) as [oracle|] eqn:Horacle;
    [|done].
  run_step.
  destruct (length_loop _ _ _ _ _) as [len|] eqn:Hlen; [|done].
  run_step.
  (* the distance from start to goal was read by [_get_nearest] *)
  assert (∃ d, distance_of self (scan g) start goal = Ok d) as [d Hd].
  { apply get_nearest_spec in Hnearest as (_ & o & _ & Hall).
    apply index_0_Ok in Hp0. destruct path as [|p path]; simplify_eq/=.
    apply Forall_cons in Hall as [(d & Hd & _) _]. eauto. }
  intros Hrun.
  exists key, g, start, p0, goal, final, nearest, nav, oracle, len, d.
  apply index_0_Ok in Hstart, Hp0. apply getitem_Ok in Hg.
  apply index_last_Ok in Hgoal, Hfinal.
  assert (is_Some (EvalPy.path g !! 1%nat)) as Hsecond.
  { unfold index in Hfirst. destruct (EvalPy.path g !! 1%nat); [eauto|done]. }
  unfold bind at 1 in Hrun.
  destruct (decide (splits self = ["test"])) as [Htest|Htest].
  - unfold modify, ret in Hrun. simplify_eq. by exists 0%Qc.
  - rewrite ?bind_lift, Hd in Hrun. rewrite ?bind_lift in Hrun.
    unfold truediv in Hrun.
    destruct (decide (py_max d len = 0%Qc)) as [|Hnz]; [done|].
    unfold modify, ret in Hrun. simplify_eq.
    by eexists.
Qed.

(** A failing call leaves the list of success-weighted path lengths as it
    was: that value is the last one appended. *)
Lemma score_item_Raise_spl (id : string) (path : list traj_point)
    (st st' : scores) (e : exn) :
  _score_item self id path st = (st', Raise e) →
  success_path_length st' = success_path_length st.
Proof.
  unfold _score_item. run_step.
  destruct (int_of_str _) as [key|]; [|by intros [= <- _]]. run_step.
  destruct (getitem _ _) as [g|]; [|by intros [= <- _]]. run_step.
  destruct (index (EvalPy.path g) 0) as [start|]; [|by intros [= <- _]].
  run_step.
  destruct (index path 0) as [p0|]; [|by intros [= <- _]]. run_step.
  destruct (assert _ _); [|by intros [= <- _]]. run_step.
  destruct (index_last (EvalPy.path g)) as [goal|]; [|by intros [= <- _]].
  run_step.
  destruct (index (EvalPy.path g) 1) as [first_step|]; [|by intros [= <- _]].
  destruct (point_counts (EvalPy.path g) path) as [cnt mt].
  run_step.
  destruct (index_last path) as [final|]; [|by intros [= <- _]].
  run_step.
  destruct (_get_nearest _ _ _ _) as [nearest|]; [|by intros [= <- _]].
  run_step.
  destruct (distance_of self (scan g) (viewpoint final) goal) as [nav|];
    [|by intros [= <- _]].
  run_step.
  destruct (distance_of self (scan g) nearest goal) as [oracle|];
    [|by intros [= <- _]].
  run_step.
  destruct (length_loop _ _ _ _ _) as [len|]; [|by intros [= <- _]].
  run_step. simpl.
  unfold bind at 1.
  destruct (decide (splits self = ["test"])) as [Htest|Htest].
  - by unfold modify, ret.
  - run_step.
    destruct (distance_of self (scan g) start goal) as [d|];
      [|by intros [= <- _]].
    run_step.
    destruct (truediv _ _); [|by intros [= <- _]].
    by run_step.
Qed.

End ScoreItem.

(** C5.  The oracle error never exceeds the navigation error.  For a
    non-empty trajectory whose points all have a distance to the goal in
    the table, [_get_nearest] returns a visited viewpoint whose distance to
    the goal (the oracle error) is a lower bound of the distances of all
    visited viewpoints, hence of that of the final one (the navigation
    error); and whenever [_score_item] returns, the oracle error it
    appended is at most the navigation error it appended. *)
Theorem oracle_error_le_nav_error (self : Evaluation) :
  (∀ (scan goal : string) (path : list traj_point) (final : traj_point),
      last path = Some final →
      Forall (reads_goal_distance self scan goal) path →
      ∃ nearest oracle nav,
        _get_nearest self scan goal path = Ok nearest
        ∧ nearest ∈ viewpoint <$> path
        ∧ distance_of self scan nearest goal = Ok oracle
        ∧ distance_of self scan (viewpoint final) goal = Ok nav
        ∧ Forall (λ p, ∃ d, distance_of self scan (viewpoint p) goal = Ok d
                            ∧ (oracle ≤ d)%Qc) path
        ∧ (oracle ≤ nav)%Qc)
  ∧ (∀ (id : string) (path : list traj_point) (st st' : scores) r,
        _score_item self id path st = (st', Ok r) →
        ∃ nav oracle,
          nav_errors st' = nav_errors st ++ [nav]
          ∧ oracle_errors st' = oracle_errors st ++ [oracle]
          ∧ (oracle ≤ nav)%Qc).
Proof.
  assert (∀ scan goal path final nearest,
            last path = Some final →
            _get_nearest self scan goal path = Ok nearest →
            ∃ oracle nav,
              nearest ∈ viewpoint <$> path
              ∧ distance_of self scan nearest goal = Ok oracle
              ∧ distance_of self scan (viewpoint final) goal = Ok nav
              ∧ Forall (λ p, ∃ d, distance_of self scan (viewpoint p) goal = Ok d
                                  ∧ (oracle ≤ d)%Qc) path
              ∧ (oracle ≤ nav)%Qc) as Hmin.
  { intros scan goal path final nearest Hlast Hnear.
    apply get_nearest_spec in Hnear as (Hin & o & Ho & Hall).
    pose proof Hall as Hall'. rewrite Forall_forall in Hall'.
    destruct (Hall' final) as (nav & Hnav & Hle).
    { rewrite last_Some in Hlast. destruct Hlast as [l' ->].
      apply elem_of_app. right. apply list_elem_of_here. }
    by exists o, nav. }
  split.
  - intros scan goal path final Hlast Hall.
    destruct (get_nearest_total self scan goal path) as [nearest Hnear];
      [by intros ->|done|].
    destruct (Hmin _ _ _ _ _ Hlast Hnear) as (oracle & nav & ?).
    exists nearest, oracle, nav. by destruct H as (? & ? & ? & ? & ?).
  - intros id path st st' r Hrun.
    apply score_item_Ok_inv in Hrun
      as (key & g & start & p0 & goal & final & nearest & nav & oracle & len
          & d & v & _ & _ & _ & _ & _ & _ & _ & Hlast & Hnear & Hnav & Horacle
          & _ & _ & _ & _ & ->).
    destruct (Hmin _ _ _ _ _ Hlast Hnear) as (o' & n' & _ & Ho' & Hn' & _ & Hle).
    rewrite Hnav in Hn'. rewrite Horacle in Ho'. simplify_eq.
    by exists n', o'.
Qed.

(** C4.  The success-weighted path length [_score_item] appends.  When
    the call returns, the value appended is [0] if the active splits are
    exactly [['test']]; for any other splits it is the success indicator
    times the table's distance [d] from the ground-truth start to the
    goal, divided by the larger of [d] and the trajectory length (a
    non-zero divisor, or the call would have raised).  When the call
    raises, nothing was appended to that list. *)
Theorem success_path_length_policy (self : Evaluation) (id : string)
    (path : list traj_point) (st st' : scores) :
  (∀ r, _score_item self id path st = (st', Ok r) →
        ∃ key g start goal p0 final nav len d,
          int_of_str (split_underscore_0 id) = Ok key
          ∧ gt self !! key = Some g
          ∧ head (EvalPy.path g) = Some start
          ∧ last (EvalPy.path g) = Some goal
          ∧ head path = Some p0
          ∧ last path = Some final
          ∧ distance_of self (scan g) (viewpoint final) goal = Ok nav
          ∧ length_loop self (scan g) p0 (tail path) 0%Qc = Ok len
          ∧ distance_of self (scan g) start goal = Ok d
          ∧ trajectory_lengths st' = trajectory_lengths st ++ [len]
          ∧ success_path_length st' =
              success_path_length st
              ++ [if decide (splits self = ["test"]) then 0%Qc
                  else (bool_to_Qc (bool_decide (nav < error_margin self)%Qc)
                        * d / py_max d len)%Qc]
          ∧ (splits self ≠ ["test"] → py_max d len ≠ 0%Qc))
  ∧ (∀ e, _score_item self id path st = (st', Raise e) →
          success_path_length st' = success_path_length st).
Proof.
  split; [|intros e; apply score_item_Raise_spl].
  intros r Hrun.
  apply score_item_Ok_inv in Hrun
    as (key & g & start & p0 & goal & final & nearest & nav & oracle & len
        & d & v & Hkey & Hg & Hstart & Hp0 & _ & Hgoal & _ & Hlast & _ & Hnav
        & _ & Hlen & Hd & Hv & _ & ->).
  exists key, g, start, goal, p0, final, nav, len, d.
  repeat (split; [done|]). simpl.
  destruct (decide (splits self = ["test"])) as [Htest|Htest].
  - subst v. done.
  - destruct Hv as [Hnz ->]. done.
Qed.

(** *** Calls that fail before anything is appended *)

Section EarlyFailure.
Variable self : Evaluation.

Lemma head_index_0 {A} (l : list A) (x : A) : head l = Some x → index l 0 = Ok x.
Proof. apply index_0_Ok. Qed.

Lemma score_item_start_assert (id : string) (path : list traj_point)
    (st : scores) (key : Z) (g : gt_item) (start : string) (p0 : traj_point) :
  int_of_str (split_underscore_0 id) = Ok key →
  gt self !! key = Some g →
  head (EvalPy.path g) = Some start →
  head path = Some p0 →
  viewpoint p0 ≠ start →
  _score_item self id path st = (st, Raise (AssertionError start_message)).
Proof.
  intros Hkey Hg Hstart Hp0 Hne. unfold _score_item.
  run_with Hkey. run_with (proj2 (getitem_Ok _ _ _) Hg).
  run_with (head_index_0 _ _ Hstart). run_with (head_index_0 _ _ Hp0).
  run_step. rewrite bool_decide_eq_false_2 by congruence. done.
Qed.

Lemma score_item_single_viewpoint (id : string) (path : list traj_point)
    (st : scores) (key : Z) (g : gt_item) (v : string) :
  int_of_str (split_underscore_0 id) = Ok key →
  gt self !! key = Some g →
  EvalPy.path g = [v] →
  _score_item self id path st =
    (st, Raise (match path with
                | [] => IndexError
                | p0 :: _ => if decide (viewpoint p0 = v) then IndexError
                             else AssertionError start_message
                end)).
Proof.
  intros Hkey Hg Hpath. unfold _score_item.
  run_with Hkey. run_with (proj2 (getitem_Ok _ _ _) Hg).
  run_step. rewrite Hpath.
  change (index [v] 0) with (Ok v). change (index [v] 1) with (@Raise string IndexError).
  change (index_last [v]) with (Ok v). cbv beta iota.
  destruct path as [|p0 path]; [done|].
  run_step. change (index (p0 :: path) 0) with (Ok p0). cbv beta iota.
  run_step. case_decide as Hv.
  - rewrite bool_decide_eq_true_2 by done. done.
  - rewrite bool_decide_eq_false_2 by congruence. done.
Qed.

End EarlyFailure.

(** C10.  A ground-truth path with a single viewpoint cannot be scored.
    Whatever the submitted trajectory, [_score_item] raises and leaves the
    score lists untouched.  When the trajectory is non-empty and starts at
    that viewpoint, the exception is the [IndexError] of reading the
    path's second element; when it starts elsewhere the start assertion
    fails first, and an empty trajectory fails on its own first
    element. *)
Theorem single_viewpoint_path_fails (self : Evaluation) (id : string)
    (path : list traj_point) (st : scores) (key : Z) (g : gt_item)
    (v : string) :
  int_of_str (split_underscore_0 id) = Ok key →
  gt self !! key = Some g →
  EvalPy.path g = [v] →
  (∃ e, _score_item self id path st = (st, Raise e))
  ∧ (∀ p0 rest, path = p0 :: rest → viewpoint p0 = v →
       index (EvalPy.path g) 0 = Ok v
       ∧ index (EvalPy.path g) 1 = Raise IndexError
       ∧ _score_item self id path st = (st, Raise IndexError))
  ∧ (∀ p0 rest, path = p0 :: rest → viewpoint p0 ≠ v →
       _score_item self id path st = (st, Raise (AssertionError start_message)))
  ∧ (path = [] → _score_item self id path st = (st, Raise IndexError)).
Proof.
  intros Hkey Hg Hpath.
  pose proof (score_item_single_viewpoint self id path st key g v Hkey Hg Hpath)
    as Hrun.
  split_and!.
  - eauto.
  - intros p0 rest -> Hv. rewrite Hpath. split_and!; [done..|].
    rewrite Hrun. by rewrite decide_True.
  - intros p0 rest -> Hv. rewrite Hrun. by rewrite decide_False.
  - by intros ->.
Qed.

(** *** A trajectory that follows the ground truth *)

Section ExactPath.
Variable self : Evaluation.

Lemma length_loop_consecutive (scan : string) (rest : list traj_point) :
  ∀ (prev : traj_point) (acc : Qc),
    length_loop self scan prev rest acc =
    (s ← consecutive_distances self scan (viewpoint <$> prev :: rest);
     Ok (acc + s)%Qc).
Proof.
  induction rest as [|curr rest IH]; intros prev acc.
  - simpl. by rewrite Qcplus_0_r.
  - simpl length_loop. unfold_result.
    change (consecutive_distances self scan (viewpoint <$> prev :: curr :: rest))
      with (match distance_of self scan (viewpoint prev) (viewpoint curr) with
            | Ok d => match consecutive_distances self scan
                              (viewpoint <$> curr :: rest) with
                      | Ok s => Ok (d + s)%Qc
                      | Raise e => Raise e
                      end
            | Raise e => Raise e
            end).
    destruct (distance_of self scan (viewpoint prev) (viewpoint curr)) as [d|];
      [|done].
    rewrite IH.
    destruct (consecutive_distances self scan (viewpoint <$> curr :: rest));
      [|done].
    by rewrite Qcplus_assoc.
Qed.

Lemma py_max_pos (d len : Qc) : (0 < d)%Qc → py_max d len ≠ 0%Qc.
Proof.
  intros Hd. unfold py_max. case_decide as Hlt.
  - intros ->. by apply (Qclt_not_le _ _ (Qclt_trans _ _ _ Hd Hlt)).
  - intros ->. by apply (Qclt_not_le _ _ Hd).
Qed.

Lemma spl_formula_success (nav d len : Qc) :
  (nav < error_margin self)%Qc → (0 < d)%Qc → (len ≤ d)%Qc →
  spl_formula self nav d len = 1%Qc.
Proof.
  intros Hnav Hd Hlen. unfold spl_formula, py_max.
  rewrite bool_decide_eq_true_2 by done.
  rewrite decide_False by by apply Qcle_not_lt.
  simpl. rewrite Qcmult_1_l. unfold Qcdiv. apply Qcmult_inv_r.
  intros ->. by apply (Qclt_not_le _ _ Hd).
Qed.

End ExactPath.

(** C1.  Scoring a trajectory that visits exactly the viewpoints of the
    ground-truth path.  The path has at least two viewpoints and the
    table of its scan holds what the run reads: [0] from the goal to
    itself, a non-negative distance from every viewpoint of the path to
    the goal, a distance for every consecutive pair, and a positive
    distance [d] from start to goal; the error margin is positive.  Then
    [_score_item] returns, having appended navigation error [0], oracle
    error [0] (so the run counts as a success: [0] is below the margin),
    the number of steps, and as trajectory length the sum of the
    distances between consecutive ground-truth viewpoints.  The
    success-weighted path length appended is [0] on the test-only split
    and [d] divided by the larger of [d] and that length otherwise, which
    is [1] exactly when the length does not exceed [d], that is, when the
    ground-truth path is a shortest path. *)
Theorem exact_path_scores (self : Evaluation) (id : string)
    (path : list traj_point) (st : scores) (key : Z) (g : gt_item)
    (start goal : string) (total d : Qc) :
  int_of_str (split_underscore_0 id) = Ok key →
  gt self !! key = Some g →
  viewpoint <$> path = EvalPy.path g →
  (2 ≤ length (EvalPy.path g))%nat →
  head (EvalPy.path g) = Some start →
  last (EvalPy.path g) = Some goal →
  distance_of self (scan g) goal goal = Ok 0%Qc →
  Forall (λ v, ∃ x, distance_of self (scan g) v goal = Ok x ∧ (0 ≤ x)%Qc)
         (EvalPy.path g) →
  consecutive_distances self (scan g) (EvalPy.path g) = Ok total →
  distance_of self (scan g) start goal = Ok d →
  (0 < d)%Qc →
  (0 < error_margin self)%Qc →
  let v := if decide (splits self = ["test"]) then 0%Qc
           else (d / py_max d total)%Qc in
  _score_item self id path st =
    (Scores (nav_errors st ++ [0%Qc]) (oracle_errors st ++ [0%Qc])
            (trajectory_steps st ++ [(Z.of_nat (length path) - 1)%Z])
            (trajectory_lengths st ++ [total])
            (success_path_length st ++ [v]),
     Ok (point_counts (EvalPy.path g) path))
  ∧ bool_decide (0 < error_margin self)%Qc = true
  ∧ (splits self ≠ ["test"] → (total ≤ d)%Qc → v = 1%Qc)
  ∧ (splits self ≠ ["test"] → (d < total)%Qc → (v < 1)%Qc).
Proof.
  intros Hkey Hg Hpath Hlen Hstart Hgoal Hdiag Hnonneg Htotal Hd Hpos Hmargin v.
  (* the submitted path, point by point *)
  destruct path as [|p0 path']; [rewrite <-Hpath in Hlen; simpl in Hlen; lia|].
  set (path := p0 :: path') in *.
  assert (viewpoint p0 = start) as Hp0.
  { rewrite <-Hpath in Hstart. by injection Hstart. }
  assert (∃ final, last path = Some final ∧ viewpoint final = goal)
    as (final & Hfinal & Hfg).
  { rewrite <-Hpath, fmap_last in Hgoal.
    destruct (last path) as [final|]; [|done]. exists final.
    split; [done|]. by injection Hgoal. }
  assert (Forall (reads_goal_distance self (scan g) goal) path) as Hreads.
  { rewrite <-Hpath, Forall_fmap in Hnonneg.
    eapply Forall_impl; [exact Hnonneg|]. intros p (x & Hx & _). by exists x. }
  (* the nearest point is at distance 0 *)
  destruct (get_nearest_total self (scan g) goal path) as [nearest Hnearest];
    [done|done|].
  assert (distance_of self (scan g) nearest goal = Ok 0%Qc) as Horacle.
  { destruct (get_nearest_spec _ _ _ _ _ Hnearest) as (Hin & o & Ho & Hall).
    rewrite Forall_forall in Hall.
    destruct (Hall final) as (x & Hx & Hox).
    { rewrite last_Some in Hfinal. destruct Hfinal as [l' ->].
      apply elem_of_app. right. apply list_elem_of_here. }
    rewrite Hfg, Hdiag in Hx. injection Hx as <-.
    rewrite Forall_forall in Hnonneg.
    destruct (Hnonneg nearest) as (y & Hy & H0y); [by rewrite <-Hpath|].
    rewrite Ho in Hy. injection Hy as <-.
    rewrite Ho. f_equal. by apply Qcle_antisym. }
  (* the length of the trajectory *)
  assert (length_loop self (scan g) p0 (tail path) 0%Qc = Ok total) as Hloop.
  { rewrite length_loop_consecutive.
    change (viewpoint <$> p0 :: tail path) with (viewpoint <$> path).
    rewrite Hpath, Htotal. unfold_result. by rewrite Qcplus_0_l. }
  assert (∃ second, index (EvalPy.path g) 1 = Ok second) as [second Hsecond].
  { unfold index. destruct (EvalPy.path g) as [|a [|b l]]; simpl in *;
      [lia|lia|eauto]. }
  split_and!.
  - unfold _score_item.
    run_with Hkey. run_with (proj2 (getitem_Ok _ _ _) Hg).
    run_with (head_index_0 _ _ Hstart).
    run_step. change (index path 0) with (Ok p0). cbv beta iota.
    run_step. rewrite bool_decide_eq_true_2 by done.
    unfold assert. cbv beta iota.
    run_with (proj2 (index_last_Ok _ _) Hgoal). run_with Hsecond.
    destruct (point_counts (EvalPy.path g) path) as [cnt mt].
    run_with (proj2 (index_last_Ok _ _) Hfinal). run_with Hnearest.
    rewrite Hfg. run_with Hdiag. run_with Horacle. run_with Hloop.
    run_step. cbv beta iota. unfold bind at 1. subst v.
    destruct (decide (splits self = ["test"])) as [Htest|Htest]; [done|].
    run_with Hd. run_step. cbv beta iota. run_step. unfold truediv.
    rewrite decide_False by by apply py_max_pos.
    run_step. unfold ret.
    rewrite bool_decide_eq_true_2 by done. simpl bool_to_Qc.
    by rewrite Qcmult_1_l.
  - by apply bool_decide_eq_true_2.
  - intros Htest Hle. subst v. rewrite decide_False by done.
    rewrite <-(spl_formula_success self 0%Qc d total) by done.
    unfold spl_formula. rewrite bool_decide_eq_true_2 by done.
    simpl. by rewrite Qcmult_1_l.
  - intros Htest Hlt. subst v. rewrite decide_False by done.
    unfold py_max. rewrite decide_True by done.
    assert (0 < total)%Qc as Htpos by exact (Qclt_trans _ _ _ Hpos Hlt).
    assert (total ≠ 0%Qc) as Hnz.
    { intros ->. by apply (Qclt_not_le _ _ Htpos). }
    apply Qcnot_le_lt. intros Hge.
    apply (Qcmult_le_compat_r _ _ total) in Hge; [|by apply Qclt_le_weak].
    rewrite Qcmult_1_l, (Qcmult_comm (d / total)), Qcmult_div_r in Hge by done.
    by apply (Qclt_not_le _ _ Hlt).
Qed.

(** *** The step-alignment counters *)

Lemma point_inner_fold (gt_path : list string) (path : list traj_point)
    (idx : nat) (js : list nat) :
  ∀ acc : nat * nat,
    foldl (point_inner gt_path path idx) acc js =
    (acc.1 + length (filter (candidate gt_path path) (js ≫= λ j, [(idx, j)])),
     acc.2 + length (filter (matched gt_path path) (js ≫= λ j, [(idx, j)])))%nat.
Proof.
  induction js as [|j js IH]; intros [cnt mt].
  - simpl. by rewrite !Nat.add_0_r.
  - simpl foldl. rewrite IH.
    change ((j :: js) ≫= (λ j, [(idx, j)]))
      with ((idx, j) :: (js ≫= λ j, [(idx, j)])).
    generalize (js ≫= λ j, [(idx, j)]). intros pairs.
    rewrite !filter_cons. unfold point_inner, matched, candidate. simpl.
    repeat case_decide; simpl; first [f_equal; lia | tauto].
Qed.

Lemma point_outer_fold (gt_path : list string) (path : list traj_point)
    (js is_ : list nat) :
  ∀ acc : nat * nat,
    foldl (λ acc idx, foldl (point_inner gt_path path idx) acc js) acc is_ =
    (acc.1 + length (filter (candidate gt_path path)
                            (is_ ≫= λ i, js ≫= λ j, [(i, j)])),
     acc.2 + length (filter (matched gt_path path)
                            (is_ ≫= λ i, js ≫= λ j, [(i, j)])))%nat.
Proof.
  induction is_ as [|i is_ IH]; intros [cnt mt].
  - simpl. by rewrite !Nat.add_0_r.
  - simpl foldl. rewrite IH, point_inner_fold. simpl mbind.
    rewrite !filter_app, !length_app. simpl. by rewrite !Nat.add_assoc.
Qed.

(** C6.  The counters [_score_item] returns.  [point_cnt] is the number of
    pairs of a submission index and a ground-truth index, neither the
    last of its path, that hold the same viewpoint: each occurrence
    counts, nothing is deduplicated.  [point_match] is the number of those
    pairs whose successors agree too.  For the ground truth [[A, B, C]]
    and the submission [[A, B, D, C]] the candidates are [A] at (0, 0) and
    [B] at (1, 1), and only the first is matched. *)
Theorem point_counts_spec :
  (∀ (gt_path : list string) (path : list traj_point),
      point_counts gt_path path =
      (length (filter (candidate gt_path path) (index_pairs gt_path path)),
       length (filter (matched gt_path path) (index_pairs gt_path path))))
  ∧ (∀ (self : Evaluation) (id : string) (path : list traj_point)
       (st st' : scores) (r : nat * nat),
        _score_item self id path st = (st', Ok r) →
        ∃ key g, int_of_str (split_underscore_0 id) = Ok key
                 ∧ gt self !! key = Some g
                 ∧ r = point_counts (EvalPy.path g) path)
  ∧ filter (candidate Fixtures.abc Fixtures.abdc)
           (index_pairs Fixtures.abc Fixtures.abdc) = [(0, 0); (1, 1)]%nat
  ∧ filter (matched Fixtures.abc Fixtures.abdc)
           (index_pairs Fixtures.abc Fixtures.abdc) = [(0, 0)]%nat
  ∧ point_counts Fixtures.abc Fixtures.abdc = (2, 1)%nat.
Proof.
  split_and!; [| |by vm_compute..].
  - intros gt_path path. unfold point_counts, index_pairs.
    by rewrite point_outer_fold.
  - intros self id path st st' r Hrun.
    apply score_item_Ok_inv in Hrun
      as (key & g & start & p0 & goal & final & nearest & nav & oracle & len
          & d & v & Hkey & Hg & _ & _ & _ & _ & _ & _ & _ & _ & _ & _ & _ & _
          & -> & _).
    by exists key, g.
Qed.

End ScorerFacts.

(** ** The aggregator: [score] *)

Module AggregatorFacts.
Import EvalPy ScorerFacts.
Local Open Scope list_scope.

Section Loop.
Variable self : Evaluation.

Lemma score_item_Ok_lengths (id : string) (path : list traj_point)
    (st st' : scores) (r : nat * nat) (n : nat) :
  _score_item self id path st = (st', Ok r) →
  lengths_are n st → lengths_are (S n) st'.
Proof.
  intros Hrun (H1 & H2 & H3 & H4 & H5).
  apply score_item_Ok_inv in Hrun
    as (key & g & start & p0 & goal & final & nearest & nav & oracle & len
        & d & v & _ & _ & _ & _ & _ & _ & _ & _ & _ & _ & _ & _ & _ & _ & _
        & ->).
  unfold lengths_are. simpl. rewrite !length_app. simpl. lia.
Qed.

(** The ids submitted in a results file. *)
Abbreviation submitted items := (list_to_set (instr_id <$> items) : gset string).

(** A loop that completes has scored one entry for each id it took off
    the set of expected ids, and took off exactly the submitted ones. *)
Lemma score_loop_Ok (items : list submission_item) :
  ∀ (ids : gset string) (cnt mt : nat) (st st' : scores)
    (ids' : gset string) (cnt' mt' n : nat),
    score_loop self items ids cnt mt st = (st', Ok (ids', cnt', mt')) →
    lengths_are n st →
    ids' = ids ∖ submitted items
    ∧ lengths_are (n + (size ids - size ids')) st'.
Proof.
  induction items as [|item items IH];
    intros ids cnt mt st st' ids' cnt' mt' n; simpl score_loop.
  - intros [= <- <- <- <-] Hn. split; [set_solver|].
    by rewrite Nat.sub_diag, Nat.add_0_r.
  - case_decide as Hin.
    + unfold bind at 1.
      destruct (_score_item self (instr_id item) (trajectory item) st)
        as [st1 [c|e]] eqn:Hitem; [|done].
      intros Hrest Hn.
      apply (score_item_Ok_lengths _ _ _ _ _ n) in Hitem; [|done].
      destruct (IH _ _ _ _ _ _ _ _ _ Hrest Hitem) as [-> Hlen].
      split; [set_solver|].
      assert (size ids = S (size (ids ∖ {[instr_id item]}))) as Hsize.
      { rewrite size_difference by set_solver. rewrite size_singleton.
        assert (size ids ≠ 0)%nat; [|lia].
        intros Hz. apply size_empty_inv in Hz. set_solver. }
      assert (size (ids ∖ {[instr_id item]} ∖ submitted items)
              ≤ size (ids ∖ {[instr_id item]}))%nat as Hle
        by (apply subseteq_size; set_solver).
      replace (n + (size ids - size (ids ∖ {[instr_id item]} ∖ submitted items)))%nat
        with (S n + (size (ids ∖ {[instr_id item]})
                     - size (ids ∖ {[instr_id item]} ∖ submitted items)))%nat
        by lia.
      done.
    + intros Hrest Hn.
      destruct (IH _ _ _ _ _ _ _ _ _ Hrest Hn) as [-> Hlen].
      split; [set_solver|]. done.
Qed.

(** The loop over a results file in two parts. *)
Lemma score_loop_app (pre post : list submission_item) :
  ∀ (ids : gset string) (cnt mt : nat) (st : scores),
    score_loop self (pre ++ post) ids cnt mt st =
    match score_loop self pre ids cnt mt st with
    | (st1, Ok (ids1, cnt1, mt1)) => score_loop self post ids1 cnt1 mt1 st1
    | (st1, Raise e) => (st1, Raise e)
    end.
Proof.
  induction pre as [|item pre IH]; intros ids cnt mt st; simpl.
  - done.
  - case_decide; [|apply IH].
    unfold bind.
    destruct (_score_item self (instr_id item) (trajectory item) st)
      as [st1 [c|e]]; [apply IH|done].
Qed.

(** How [score] ends once the loop has ended. *)
Lemma score_Ok_inv (output_file : string) (items : list submission_item)
    (sm : score_summary) (sc : scores) :
  score self output_file items = Ok (sm, sc) →
  ∃ ids cnt mt,
    score_loop self items (instr_ids self) 0 0 empty_scores
      = (sc, Ok (ids, cnt, mt))
    ∧ size ids = 0%nat
    ∧ length (nav_errors sc) = size (instr_ids self).
Proof.
  unfold score.
  destruct (score_loop self items (instr_ids self) 0 0 empty_scores)
    as [sc' [[[ids cnt] mt]|e]] eqn:Hloop; [|done].
  unfold assert. unfold_result.
  case_bool_decide as Hids; [|done]. case_bool_decide as Hlen; [|done].
  repeat (destruct (truediv _ _); [|done]).
  intros [= _ <-]. by exists ids, cnt, mt.
Qed.

Lemma score_loop_Raise (output_file : string) (items : list submission_item)
    (sc : scores) (e : exn) :
  score_loop self items (instr_ids self) 0 0 empty_scores = (sc, Raise e) →
  score self output_file items = Raise e.
Proof. unfold score. by intros ->. Qed.

Lemma score_missing (output_file : string) (items : list submission_item)
    (sc : scores) (ids : gset string) (cnt mt : nat) :
  score_loop self items (instr_ids self) 0 0 empty_scores
    = (sc, Ok (ids, cnt, mt)) →
  size ids ≠ 0%nat →
  score self output_file items =
    Raise (AssertionError
             (missing_message self (size ids) (size (instr_ids self))
                              output_file)).
Proof.
  unfold score. intros -> Hids.
  rewrite (bool_decide_eq_false_2 (size ids = 0%nat)) by done. reflexivity.
Qed.

Lemma lengths_are_empty : lengths_are 0 empty_scores.
Proof. by repeat split. Qed.

(** An entry whose id is not expected, or was submitted before, is passed
    over. *)
Lemma score_loop_skip (pre post : list submission_item)
    (item : submission_item) :
  instr_id item ∉ instr_ids self ∨ instr_id item ∈ instr_id <$> pre →
  score_loop self (pre ++ item :: post) (instr_ids self) 0 0 empty_scores
  = score_loop self (pre ++ post) (instr_ids self) 0 0 empty_scores.
Proof.
  intros Hskip. rewrite !score_loop_app.
  destruct (score_loop self pre (instr_ids self) 0 0 empty_scores)
    as [st1 [[[ids1 cnt1] mt1]|e]] eqn:Hpre; [|done].
  destruct (score_loop_Ok _ _ _ _ _ _ _ _ _ 0%nat Hpre lengths_are_empty)
    as [-> _].
  simpl score_loop. rewrite decide_False; [done|].
  rewrite elem_of_difference, elem_of_list_to_set. tauto.
Qed.

End Loop.

(** C9.  When [score] returns, each of the five score lists has as many
    elements as there are expected instruction ids: a summary is never
    returned over lists of any other length. *)
Theorem score_lists_have_expected_length (self : Evaluation)
    (output_file : string) (items : list submission_item)
    (sm : score_summary) (sc : scores) :
  score self output_file items = Ok (sm, sc) →
  lengths_are (size (instr_ids self)) sc.
Proof.
  intros Hrun.
  apply score_Ok_inv in Hrun as (ids & cnt & mt & Hloop & Hids & _).
  destruct (score_loop_Ok _ _ _ _ _ _ _ _ _ _ 0%nat Hloop lengths_are_empty)
    as [_ Hlen].
  by rewrite Hids, Nat.sub_0_r in Hlen.
Qed.

(** C2.  Coverage of the expected instruction ids.  A summary is returned
    only if every expected id occurs in the results file.  Only the first
    entry for an expected id is scored: an entry whose id is not expected,
    or occurred earlier in the file, is passed over, and the outcome is
    the one of the file without it.  When the loop over the file ends
    without a scoring error and [k > 0] of the [N] expected ids are absent
    from the file, [score] raises an [AssertionError] whose message gives
    [k], [N], the splits joined by commas and the file name; with [k = 1]
    it starts with [Missing 1 of N].  In no case is a summary returned
    when an expected id is absent. *)
Theorem submission_coverage (self : Evaluation) (output_file : string)
    (items : list submission_item) :
  (∀ sm sc, score self output_file items = Ok (sm, sc) →
            ∀ id, id ∈ instr_ids self → id ∈ instr_id <$> items)
  ∧ (∀ pre item post,
        items = pre ++ item :: post →
        instr_id item ∉ instr_ids self ∨ instr_id item ∈ instr_id <$> pre →
        score self output_file items = score self output_file (pre ++ post))
  ∧ (∀ sc ids cnt mt,
        score_loop self items (instr_ids self) 0 0 empty_scores
          = (sc, Ok (ids, cnt, mt)) →
        ids = instr_ids self ∖ list_to_set (instr_id <$> items)
        ∧ (size ids ≠ 0%nat →
           score self output_file items =
             Raise (AssertionError
                      (missing_message self (size ids)
                                       (size (instr_ids self)) output_file))))
  ∧ (size (instr_ids self ∖ list_to_set (instr_id <$> items)) ≠ 0%nat →
     is_ok (score self output_file items) = false)
  ∧ (∀ n : nat,
        missing_message self 1 n output_file =
        ("Missing 1 of " +:+ pretty n +:+ " instruction ids from "
         +:+ join_comma (splits self) +:+ " - not in " +:+ output_file)%string).
Proof.
  assert (∀ sm sc, score self output_file items = Ok (sm, sc) →
                   instr_ids self ∖ list_to_set (instr_id <$> items)
                   = (∅ : gset string)) as Hcovered.
  { intros sm sc Hrun.
    apply score_Ok_inv in Hrun as (ids & cnt & mt & Hloop & Hids & _).
    destruct (score_loop_Ok _ _ _ _ _ _ _ _ _ _ 0%nat Hloop lengths_are_empty)
      as [<- _].
    by apply size_empty_inv, leibniz_equiv in Hids. }
  split_and!.
  - intros sm sc Hrun id Hid. apply Hcovered in Hrun.
    destruct (decide (id ∈ instr_id <$> items)) as [|Hno]; [done|].
    assert (id ∈ instr_ids self ∖ list_to_set (instr_id <$> items)) as Hin.
    { apply elem_of_difference. by rewrite elem_of_list_to_set. }
    rewrite Hrun in Hin. by apply not_elem_of_empty in Hin.
  - intros pre item post -> Hskip. unfold score.
    by rewrite score_loop_skip.
  - intros sc ids cnt mt Hloop.
    destruct (score_loop_Ok _ _ _ _ _ _ _ _ _ _ 0%nat Hloop lengths_are_empty)
      as [Hids _].
    split; [done|]. intros Hk. by eapply score_missing.
  - intros Hk. destruct (score self output_file items) as [[sm sc]|e] eqn:Hrun;
      [|done].
    rewrite (Hcovered sm sc eq_refl), size_empty in Hk. done.
  - intros n. reflexivity.
Qed.

(** C3.  A trajectory that does not start at the first viewpoint of its
    ground-truth path.  [_score_item] raises the start assertion and
    leaves the score lists untouched.  A run of [score] in which such an
    entry is the first one for an expected id returns no summary: if the
    entries before it are scored without error, [score] raises that same
    assertion.  (An entry that is passed over, because its id is not
    expected or was submitted before, does not stop the run.) *)
Theorem start_mismatch_halts (self : Evaluation) :
  (∀ (item : submission_item) (st : scores),
      start_mismatch self item →
      _score_item self (instr_id item) (trajectory item) st
      = (st, Raise (AssertionError start_message)))
  ∧ (∀ (output_file : string) (pre post : list submission_item)
       (item : submission_item),
        start_mismatch self item →
        instr_id item ∈ instr_ids self →
        instr_id item ∉ instr_id <$> pre →
        is_ok (score self output_file (pre ++ item :: post)) = false
        ∧ (∀ sc r,
              score_loop self pre (instr_ids self) 0 0 empty_scores
                = (sc, Ok r) →
              score self output_file (pre ++ item :: post)
              = Raise (AssertionError start_message))).
Proof.
  assert (∀ item st, start_mismatch self item →
            _score_item self (instr_id item) (trajectory item) st
            = (st, Raise (AssertionError start_message))) as Hitem.
  { intros item st (key & g & start & p0 & Hkey & Hg & Hstart & Hp0 & Hne).
    by eapply score_item_start_assert. }
  split; [done|].
  intros output_file pre post item Hbad Hexp Hfirst.
  assert (∀ sc r,
            score_loop self pre (instr_ids self) 0 0 empty_scores = (sc, Ok r) →
            score self output_file (pre ++ item :: post)
            = Raise (AssertionError start_message)) as Hhalt.
  { intros sc [[ids1 cnt1] mt1] Hpre.
    destruct (score_loop_Ok _ _ _ _ _ _ _ _ _ _ 0%nat Hpre lengths_are_empty)
      as [-> _].
    unfold score. rewrite score_loop_app, Hpre. simpl score_loop.
    rewrite decide_True.
    - unfold bind. by rewrite Hitem.
    - apply elem_of_difference. by rewrite elem_of_list_to_set. }
  split; [|done].
  destruct (score_loop self pre (instr_ids self) 0 0 empty_scores)
    as [sc [r|e]] eqn:Hpre.
  - by rewrite (Hhalt _ _ eq_refl).
  - unfold score. by rewrite score_loop_app, Hpre.
Qed.

End AggregatorFacts.

(** ** The scorer and the aggregator on concrete inputs *)

Module ScorerExamples.
Import EvalPy ScorerFacts AggregatorFacts Fixtures.
Local Open Scope list_scope.

(** Equalities between computed rationals: the values agree, the proofs
    of canonicity they carry need not. *)
Ltac qc_eq :=
  vm_compute;
  repeat first [reflexivity | apply Qc_is_canon; by vm_compute | f_equal].

(** Applying C1 to the path [A, C] of the triangle, which is a shortest
    path of length 6: the success-weighted path length is 1. *)
Lemma exact_path_scores_witness :
  _score_item direct_eval "8_0" direct_ac empty_scores
  = (Scores [0%Qc] [0%Qc] [1%Z] [Qc_of_Z 6] [1%Qc], Ok (1, 1)%nat).
Proof.
  pose proof (exact_path_scores direct_eval "8_0" direct_ac empty_scores
                8%Z direct_item "A" "C" (Qc_of_Z 6) (Qc_of_Z 6)) as H.
  destruct H as (Hrun & _ & Hone & _).
  - by vm_compute.
  - by vm_compute.
  - reflexivity.
  - simpl. lia.
  - reflexivity.
  - reflexivity.
  - qc_eq.
  - constructor; [|constructor; [|constructor]].
    + exists (Qc_of_Z 6). split; [qc_eq|by vm_compute].
    + exists 0%Qc. split; [qc_eq|by vm_compute].
  - qc_eq.
  - qc_eq.
  - by vm_compute.
  - by vm_compute.
  - rewrite Hrun. rewrite Hone; [reflexivity|by vm_compute|by vm_compute].
Defined.

(** The claim C1 as the specification words it fails on the path
    [A, B, C] of the triangle: the trajectory equals the ground-truth
    path, the split is not the test split, the navigation and oracle
    errors are 0 and the length is 5 + 5, but [A] and [C] are 6 apart, so
    the success-weighted path length is 6/10 and not 1. *)
Lemma detour_spl_below_one :
  int_of_str (split_underscore_0 "7_0") = Ok 7%Z
  ∧ gt detour_eval !! 7%Z = Some detour_item
  ∧ viewpoint <$> along_abc = EvalPy.path detour_item
  ∧ splits detour_eval ≠ ["test"]
  ∧ (_score_item detour_eval "7_0" along_abc empty_scores).2 = Ok (2, 2)%nat
  ∧ this <$> nav_errors
      (_score_item detour_eval "7_0" along_abc empty_scores).1 = [0%Q]
  ∧ this <$> trajectory_lengths
      (_score_item detour_eval "7_0" along_abc empty_scores).1 = [10%Q]
  ∧ this <$> success_path_length
      (_score_item detour_eval "7_0" along_abc empty_scores).1 = [(3 # 5)%Q]
  ∧ success_path_length
      (_score_item detour_eval "7_0" along_abc empty_scores).1 ≠ [1%Qc].
Proof.
  split_and!; by vm_compute.
Qed.

(** Applying C10: the single-viewpoint path [A] and a trajectory that
    starts at [A]. *)
Lemma single_viewpoint_path_fails_witness :
  _score_item single_eval "9_0" [at_viewpoint "A"] empty_scores
  = (empty_scores, Raise IndexError).
Proof.
  pose proof (single_viewpoint_path_fails single_eval "9_0" [at_viewpoint "A"]
                empty_scores 9%Z single_item "A") as H.
  destruct H as (_ & Hsame & _).
  - by vm_compute.
  - by vm_compute.
  - reflexivity.
  - by destruct (Hsame (at_viewpoint "A") [] eq_refl eq_refl) as (_ & _ & ?).
Defined.

(** The claim C10 as worded fails when the trajectory starts elsewhere:
    the ground-truth path is [A] alone, and a trajectory from [B] stops at
    the start assertion, not at an [IndexError]. *)
Lemma single_viewpoint_path_wrong_start :
  int_of_str (split_underscore_0 "9_0") = Ok 9%Z
  ∧ gt single_eval !! 9%Z = Some single_item
  ∧ EvalPy.path single_item = ["A"]
  ∧ _score_item single_eval "9_0" from_b empty_scores
    = (empty_scores, Raise (AssertionError start_message))
  ∧ _score_item single_eval "9_0" from_b empty_scores
    ≠ (empty_scores, Raise IndexError).
Proof. split_and!; by vm_compute. Qed.

(** Applying C5 to a trajectory that passes the goal [C] and ends at
    [B]: the oracle error is that of [C], at most the navigation error. *)
Lemma oracle_error_le_nav_error_witness :
  ∃ nav oracle,
    nav_errors (_score_item detour_eval "7_0" past_c empty_scores).1 = [nav]
    ∧ oracle_errors (_score_item detour_eval "7_0" past_c empty_scores).1
      = [oracle]
    ∧ (oracle ≤ nav)%Qc.
Proof.
  destruct (_score_item detour_eval "7_0" past_c empty_scores)
    as [st' [r|e]] eqn:Hrun.
  - exact (proj2 (oracle_error_le_nav_error detour_eval) _ _ _ _ _ Hrun).
  - by vm_compute in Hrun.
Defined.

(** Applying C4 to the trajectory along [A, B, C] on the validation
    split: the value appended is given by the formula. *)
Lemma success_path_length_policy_witness :
  ∃ nav len d,
    success_path_length (_score_item detour_eval "7_0" along_abc empty_scores).1
    = [(bool_to_Qc (bool_decide (nav < error_margin detour_eval)%Qc) * d
        / py_max d len)%Qc]
    ∧ py_max d len ≠ 0%Qc.
Proof.
  assert (splits detour_eval ≠ ["test"]) as Hsplit by by vm_compute.
  destruct (_score_item detour_eval "7_0" along_abc empty_scores)
    as [st' [r|e]] eqn:Hrun.
  - destruct (proj1 (success_path_length_policy detour_eval _ _ _ _) r Hrun)
      as (key & g & start & goal & p0 & final & nav & len & d & _ & _ & _ & _
          & _ & _ & _ & _ & _ & _ & Hspl & Hnz).
    exists nav, len, d. rewrite decide_False in Hspl by done.
    split; [exact Hspl|by apply Hnz].
  - by vm_compute in Hrun.
Defined.

(** Applying C2 to a results file without an answer to [7_0]. *)
Lemma submission_coverage_witness :
  is_ok (score detour_eval "out.json" (tail complete_file)) = false.
Proof.
  destruct (submission_coverage detour_eval "out.json" (tail complete_file))
    as (_ & _ & _ & Hmissing & _).
  apply Hmissing. by vm_compute.
Defined.

(** Applying C3 to a results file whose first entry starts at [B]. *)
Lemma start_mismatch_halts_witness :
  score detour_eval "out.json" (SubmissionItem "7_0" from_b :: complete_file)
  = Raise (AssertionError start_message).
Proof.
  destruct (start_mismatch_halts detour_eval) as [_ Hhalt].
  destruct (Hhalt "out.json" [] complete_file (SubmissionItem "7_0" from_b))
    as [_ Hraise].
  - exists 7%Z, detour_item, "A", (at_viewpoint "B").
    split_and!; by vm_compute.
  - by vm_compute.
  - apply not_elem_of_nil.
  - by eapply Hraise.
Defined.

(** Applying C9 to a complete results file for the triangle. *)
Lemma score_lists_have_expected_length_witness :
  ∃ sm sc, score detour_eval "out.json" complete_file = Ok (sm, sc)
           ∧ lengths_are 3 sc.
Proof.
  destruct (score detour_eval "out.json" complete_file) as [[sm sc]|e] eqn:Hrun.
  - exists sm, sc. split; [done|].
    exact (score_lists_have_expected_length _ _ _ _ _ Hrun).
  - by vm_compute in Hrun.
Defined.

(** The claim C2 as worded fails on a file that answers the id [7_0]
    twice: the id is expected and occurs twice, yet [score] returns a
    summary, the one of the file without the second answer. *)
Lemma repeated_id_is_accepted :
  "7_0" ∈ instr_ids detour_eval
  ∧ length (filter (λ item, instr_id item = "7_0") repeated_file) = 2%nat
  ∧ is_ok (score detour_eval "out.json" repeated_file) = true
  ∧ score detour_eval "out.json" repeated_file
    = score detour_eval "out.json" complete_file.
Proof.
  split_and!; by vm_compute.
Qed.

(** The claim C3 as worded fails on a file whose last entry answers
    [7_0] a second time with a trajectory from [B]: the entry does not
    start at the ground truth's first viewpoint [A], the run contains it,
    and [score] still returns a summary. *)
Lemma late_mismatch_is_accepted :
  start_mismatch detour_eval (SubmissionItem "7_0" from_b)
  ∧ SubmissionItem "7_0" from_b ∈ late_mismatch_file
  ∧ is_ok (score detour_eval "out.json" late_mismatch_file) = true.
Proof.
  split_and!.
  - exists 7%Z, detour_item, "A", (at_viewpoint "B").
    split_and!; by vm_compute.
  - unfold late_mismatch_file. apply elem_of_app. right. apply list_elem_of_here.
  - by vm_compute.
Qed.

End ScorerExamples.

(** ** The graph loader: [load_nav_graphs] *)

Module LoaderFacts.
Import Utils.

Section Loader.
Context {T : Type} `{Num.ops T}.
Implicit Types (a : Nx.adjacency T) (g : Nx.Graph T).
Implicit Types (data items : list (conn_record T)) (item other : conn_record T).

Lemma has_edge_set_adj (u v : string) (w : T) a (x y : string) (w' : T) :
  Nx.has_edge (Nx.set_adj u v w a) x y w'
  ↔ (x = u ∧ y = v ∧ w' = w) ∨ (¬ (x = u ∧ y = v) ∧ Nx.has_edge a x y w').
Proof.
  unfold Nx.has_edge, Nx.set_adj.
  destruct (decide (x = u)) as [->|Hx].
  - rewrite lookup_insert_eq. destruct (decide (y = v)) as [->|Hy].
    + split.
      * intros (nbrs & [= <-] & Hw). rewrite lookup_insert_eq in Hw.
        left. by simplify_eq.
      * intros [(_ & _ & ->)|[Hn _]]; [|tauto].
        eexists. split; [done|]. by rewrite lookup_insert_eq.
    + split.
      * intros (nbrs & [= <-] & Hw). rewrite lookup_insert_ne in Hw by done.
        right. split; [tauto|].
        destruct (a !! u) as [r|] eqn:Hr; simpl in Hw; [eauto|].
        by rewrite lookup_empty in Hw.
      * intros [(_ & ? & _)|[_ (nbrs & Hu & Hw)]]; [done|].
        eexists. split; [done|]. rewrite lookup_insert_ne by done.
        by rewrite Hu.
  - rewrite lookup_insert_ne by done.
    split; [intros; right; tauto|]. by intros [(? & _)|[_ ?]].
Qed.

(** The edges after [add_edge]: the new one in both directions, and the
    old ones between other pairs. *)
Lemma has_edge_add_edge (u v : string) (w : T) a (x y : string) (w' : T) :
  Nx.has_edge (Nx.add_edge u v w a) x y w'
  ↔ (((x = u ∧ y = v) ∨ (x = v ∧ y = u)) ∧ w' = w)
    ∨ (¬ (x = u ∧ y = v) ∧ ¬ (x = v ∧ y = u) ∧ Nx.has_edge a x y w').
Proof.
  unfold Nx.add_edge. rewrite !has_edge_set_adj.
  destruct (decide (x = v ∧ y = u)); tauto.
Qed.

Lemma joined_add_edge_new (u v : string) (w : T) a :
  joined (Nx.add_edge u v w a) u v.
Proof. exists w. apply has_edge_add_edge. tauto. Qed.

Lemma joined_add_edge_old (u v : string) (w : T) a (x y : string) :
  joined a x y → joined (Nx.add_edge u v w a) x y.
Proof.
  intros [w' Hw'].
  destruct (decide ((x = u ∧ y = v) ∨ (x = v ∧ y = u))) as [Hnew|Hold].
  - exists w. apply has_edge_add_edge. tauto.
  - exists w'. apply has_edge_add_edge. tauto.
Qed.

Lemma index_Ok {A} (l : list A) (i : nat) (x : A) :
  index l i = Ok x ↔ l !! i = Some x.
Proof. unfold index. destruct (l !! i); split; intros; by simplify_eq. Qed.

(** What a turn of the inner loop that returns has done. *)
Lemma load_edge_Ok_inv data (i : nat) item g (j : nat) (conn : bool) g' :
  load_edge data i item g j conn = Ok g' →
  (Nx.adj g' = Nx.adj g
   ∧ (conn = true → ∀ other, data !! j = Some other → included other = false))
  ∨ (∃ other w,
        conn = true ∧ data !! j = Some other ∧ included other = true
        ∧ unobstructed other !! i = Some true
        ∧ distance item other = Ok w
        ∧ Nx.adj g' = Nx.add_edge (image_id item) (image_id other) w (Nx.adj g)).
Proof.
  unfold load_edge. destruct conn; [|intros [= <-]; by left].
  unfold_result.
  destruct (index data j) as [other|] eqn:Hother; [|done].
  apply index_Ok in Hother.
  destruct (included other) eqn:Hinc.
  2:{ intros [= <-]. left. split; [done|]. intros _ o Ho. by simplify_eq. }
  destruct (index (pose item) 3) as [x|]; [|done].
  destruct (index (pose item) 7) as [y|]; [|done].
  destruct (index (pose item) 11) as [z|]; [|done].
  destruct (index (unobstructed other) i) as [back|] eqn:Hback; [|done].
  apply index_Ok in Hback.
  destruct back; [|done]. simpl.
  destruct (distance item other) as [w|] eqn:Hw; [|done].
  intros [= <-]. right. by exists other, w.
Qed.

Section Rows.
Variable data : list (conn_record T).

Lemma load_edge_justified (i : nat) item g (j : nat) (conn : bool) g' :
  load_edge data i item g j conn = Ok g' →
  data !! i = Some item → included item = true →
  unobstructed item !! j = Some conn →
  edges_justified data (Nx.adj g) → edges_justified data (Nx.adj g').
Proof.
  intros Hrun Hitem Hinc Hconn Hold.
  apply load_edge_Ok_inv in Hrun
    as [[-> _]|(other & w & -> & Hother & Hinc' & Hback & Hw & ->)]; [done|].
  intros u v w' Hedge. apply has_edge_add_edge in Hedge
    as [[Hnew ->]|(_ & _ & Hedge)]; [|by apply Hold].
  exists i, j, item, other. by repeat split.
Qed.

Lemma load_row_justified (i : nat) item (l : list bool) :
  data !! i = Some item → included item = true →
  ∀ (j0 : nat) g g',
    load_row data i item g j0 l = Ok g' →
    (∀ k c, l !! k = Some c → unobstructed item !! (j0 + k)%nat = Some c) →
    edges_justified data (Nx.adj g) → edges_justified data (Nx.adj g').
Proof.
  intros Hitem Hinc.
  induction l as [|conn l IH]; intros j0 g g'; simpl.
  - by intros [= <-].
  - unfold_result.
    destruct (load_edge data i item g j0 conn) as [g1|] eqn:Hedge; [|done].
    intros Hrest Hl Hold.
    apply (IH (S j0) g1 g' Hrest).
    + intros k c Hk. rewrite Nat.add_succ_comm. by apply (Hl (S k)).
    + eapply load_edge_justified; [done..| |done].
      rewrite <-(Nat.add_0_r j0). by apply (Hl 0%nat).
Qed.

Lemma load_rows_justified items :
  ∀ (i0 : nat) g g',
    load_rows data g i0 items = Ok g' →
    (∀ k r, items !! k = Some r → data !! (i0 + k)%nat = Some r) →
    edges_justified data (Nx.adj g) → edges_justified data (Nx.adj g').
Proof.
  induction items as [|item items IH]; intros i0 g g'; simpl.
  - by intros [= <-].
  - unfold_result.
    destruct (included item) eqn:Hinc.
    + destruct (load_row data i0 item g 0 (unobstructed item)) as [g1|] eqn:Hrow;
        [|done].
      intros Hrest Hitems Hold.
      apply (IH (S i0) g1 g' Hrest).
      * intros k r Hk. rewrite Nat.add_succ_comm. by apply (Hitems (S k)).
      * eapply load_row_justified; [| |done| |done]; [|done|by intros k c].
        rewrite <-(Nat.add_0_r i0). by apply (Hitems 0%nat).
    + intros Hrest Hitems Hold.
      apply (IH (S i0) g g' Hrest); [|done].
      intros k r Hk. rewrite Nat.add_succ_comm. by apply (Hitems (S k)).
Qed.

(** Edges stay, and a turn for a record that is seen adds one. *)
Lemma load_edge_joined (i : nat) item g (j : nat) (conn : bool) g' :
  load_edge data i item g j conn = Ok g' →
  (∀ x y, joined (Nx.adj g) x y → joined (Nx.adj g') x y)
  ∧ (conn = true → ∀ other, data !! j = Some other → included other = true →
     joined (Nx.adj g') (image_id item) (image_id other)).
Proof.
  intros Hrun.
  apply load_edge_Ok_inv in Hrun
    as [[-> Hnot]|(other & w & -> & Hother & Hinc' & Hback & Hw & ->)].
  - split; [done|]. intros Hconn other Hother Hinc.
    by rewrite (Hnot Hconn other Hother) in Hinc.
  - split; [intros x y; apply joined_add_edge_old|].
    intros _ other' Hother' _. simplify_eq. apply joined_add_edge_new.
Qed.

Lemma load_row_joined (i : nat) item (l : list bool) :
  ∀ (j0 : nat) g g',
    load_row data i item g j0 l = Ok g' →
    (∀ x y, joined (Nx.adj g) x y → joined (Nx.adj g') x y)
    ∧ (∀ k other, l !! k = Some true → data !! (j0 + k)%nat = Some other →
       included other = true →
       joined (Nx.adj g') (image_id item) (image_id other)).
Proof.
  induction l as [|conn l IH]; intros j0 g g'; simpl.
  - intros [= <-]. split; [done|]. by intros k other Hk.
  - unfold_result.
    destruct (load_edge data i item g j0 conn) as [g1|] eqn:Hedge; [|done].
    intros Hrest.
    apply load_edge_joined in Hedge as [Hkeep1 Hnew1].
    apply IH in Hrest as [Hkeep Hnew].
    split; [by intros x y Hxy; apply Hkeep, Hkeep1|].
    intros [|k] other Hk Hother Hinc.
    + simpl in Hk. injection Hk as ->. rewrite Nat.add_0_r in Hother.
      by apply Hkeep, Hnew1.
    + rewrite <-Nat.add_succ_comm in Hother. by eapply Hnew.
Qed.

Lemma load_rows_joined items :
  ∀ (i0 : nat) g g',
    load_rows data g i0 items = Ok g' →
    (∀ x y, joined (Nx.adj g) x y → joined (Nx.adj g') x y)
    ∧ (∀ k item j other,
          items !! k = Some item → included item = true →
          unobstructed item !! j = Some true →
          data !! j = Some other → included other = true →
          joined (Nx.adj g') (image_id item) (image_id other)).
Proof.
  induction items as [|item items IH]; intros i0 g g'; simpl.
  - intros [= <-]. split; [done|]. by intros k item j other Hk.
  - unfold_result.
    destruct (included item) eqn:Hinc.
    + destruct (load_row data i0 item g 0 (unobstructed item)) as [g1|] eqn:Hrow;
        [|done].
      intros Hrest. apply load_row_joined in Hrow as [Hkeep1 Hnew1].
      apply IH in Hrest as [Hkeep Hnew].
      split; [by intros x y Hxy; apply Hkeep, Hkeep1|].
      intros [|k] item' j other Hk Hinc' Hj Hother Hinco.
      * simpl in Hk. injection Hk as <-. by eapply Hkeep, Hnew1.
      * by eapply Hnew.
    + intros Hrest. apply IH in Hrest as [Hkeep Hnew].
      split; [done|].
      intros [|k] item' j other Hk Hinc' Hj Hother Hinco.
      * simpl in Hk. injection Hk as <-. congruence.
      * by eapply Hnew.
Qed.

(** What [add_edge] preserves, the loops preserve. *)
Lemma load_rows_preserves (P : Nx.adjacency T → Prop) :
  (∀ u v w a, P a → P (Nx.add_edge u v w a)) →
  ∀ items (i0 : nat) g g',
    load_rows data g i0 items = Ok g' → P (Nx.adj g) → P (Nx.adj g').
Proof.
  intros Hadd.
  assert (∀ i item l (j0 : nat) g g',
            load_row data i item g j0 l = Ok g' → P (Nx.adj g) → P (Nx.adj g'))
    as Hrow.
  { intros i item l. induction l as [|conn l IH]; intros j0 g g'; simpl.
    - by intros [= <-].
    - unfold_result.
      destruct (load_edge data i item g j0 conn) as [g1|] eqn:Hedge; [|done].
      intros Hrest Hg. apply (IH _ _ _ Hrest).
      apply load_edge_Ok_inv in Hedge
        as [[-> _]|(other & w & _ & _ & _ & _ & _ & ->)]; [done|by apply Hadd]. }
  induction items as [|item items IH]; intros i0 g g'; simpl.
  - by intros [= <-].
  - unfold_result.
    destruct (included item).
    + destruct (load_row data i0 item g 0 (unobstructed item)) as [g1|] eqn:Hr;
        [|done].
      intros Hrest Hg. apply (IH _ _ _ Hrest). by eapply Hrow.
    + apply IH.
Qed.

(** *** A one-sided entry stops the loader *)

Lemma load_edge_one_sided (i : nat) item g (j : nat) other :
  data !! j = Some other → included other = true →
  unobstructed other !! i = Some false →
  ∃ e, load_edge data i item g j true = Raise e.
Proof.
  intros Hother Hinc Hback. unfold load_edge. unfold_result.
  rewrite (proj2 (index_Ok _ _ _) Hother), Hinc.
  destruct (index (pose item) 3); [|eauto].
  destruct (index (pose item) 7); [|eauto].
  destruct (index (pose item) 11); [|eauto].
  rewrite (proj2 (index_Ok _ _ _) Hback). simpl. eauto.
Qed.

Lemma load_row_one_sided (i : nat) item other (l : list bool) :
  included other = true → unobstructed other !! i = Some false →
  ∀ (j0 k : nat) g,
    l !! k = Some true → data !! (j0 + k)%nat = Some other →
    ∃ e, load_row data i item g j0 l = Raise e.
Proof.
  intros Hinc Hback.
  induction l as [|conn l IH]; intros j0 k g Hk Hother; [done|].
  simpl. unfold_result. destruct k as [|k].
  - simpl in Hk. injection Hk as ->. rewrite Nat.add_0_r in Hother.
    destruct (load_edge_one_sided i item g j0 other) as [e ->]; eauto.
  - destruct (load_edge data i item g j0 conn) as [g1|e]; [|eauto].
    apply (IH (S j0) k); [done|]. by rewrite Nat.add_succ_comm.
Qed.

Lemma load_rows_one_sided (j : nat) other items :
  data !! j = Some other → included other = true →
  ∀ (i0 k : nat) g item,
    items !! k = Some item → included item = true →
    unobstructed item !! j = Some true →
    unobstructed other !! (i0 + k)%nat = Some false →
    ∃ e, load_rows data g i0 items = Raise e.
Proof.
  intros Hother Hinco.
  induction items as [|item' items IH];
    intros i0 k g item Hk Hinc Hj Hback; [done|].
  simpl. unfold_result. destruct k as [|k].
  - simpl in Hk. injection Hk as ->. rewrite Nat.add_0_r in Hback. rewrite Hinc.
    destruct (load_row_one_sided i0 item other (unobstructed item) Hinco Hback
                0%nat j g Hj Hother) as [e ->].
    eauto.
  - destruct (if included item' then _ else _) as [g1|e]; [|eauto].
    apply (IH (S i0) k g1 item); [done..|]. by rewrite Nat.add_succ_comm.
Qed.

(** *** On well-formed data the only failure is the assertion *)

Hypothesis data_wf : well_formed data.

Lemma wf_pose (r : conn_record T) (n : nat) :
  r ∈ data → (n < 16)%nat → ∃ x, index (pose r) n = Ok x.
Proof.
  intros Hr Hn. unfold well_formed in data_wf. rewrite Forall_forall in data_wf.
  destruct (data_wf r Hr) as [Hpose _].
  destruct (lookup_lt_is_Some_2 (pose r) n) as [x Hx]; [lia|].
  exists x. by apply index_Ok.
Qed.

Lemma wf_unobstructed (r : conn_record T) (n : nat) :
  r ∈ data → (n < length data)%nat → ∃ b, index (unobstructed r) n = Ok b.
Proof.
  intros Hr Hn. unfold well_formed in data_wf. rewrite Forall_forall in data_wf.
  destruct (data_wf r Hr) as [_ Hlen].
  destruct (lookup_lt_is_Some_2 (unobstructed r) n) as [x Hx]; [lia|].
  exists x. by apply index_Ok.
Qed.

Lemma load_edge_wf (i : nat) item g (j : nat) (conn : bool) :
  data !! i = Some item → (j < length data)%nat →
  only_undirected_assertion (load_edge data i item g j conn).
Proof.
  intros Hitem Hj. unfold load_edge. destruct conn; [|done].
  unfold_result.
  destruct (lookup_lt_is_Some_2 data j Hj) as [other Hother].
  rewrite (proj2 (index_Ok _ _ _) Hother).
  destruct (included other); [|done].
  assert (item ∈ data) as Hin by by eapply list_elem_of_lookup_2.
  assert (other ∈ data) as Hin' by by eapply list_elem_of_lookup_2.
  destruct (wf_pose item 3 Hin) as [x Hx]; [lia|].
  destruct (wf_pose item 7 Hin) as [y Hy]; [lia|].
  destruct (wf_pose item 11 Hin) as [z Hz]; [lia|].
  destruct (wf_pose other 3 Hin') as [x' Hx']; [lia|].
  destruct (wf_pose other 7 Hin') as [y' Hy']; [lia|].
  destruct (wf_pose other 11 Hin') as [z' Hz']; [lia|].
  destruct (wf_unobstructed other i Hin') as [back Hback].
  { by eapply lookup_lt_Some. }
  rewrite Hx, Hy, Hz, Hback. unfold distance. unfold_result.
  rewrite Hx, Hy, Hz, Hx', Hy', Hz'. by destruct back.
Qed.

Lemma load_row_wf (i : nat) item (l : list bool) :
  data !! i = Some item →
  ∀ (j0 : nat) g,
    (j0 + length l ≤ length data)%nat →
    only_undirected_assertion (load_row data i item g j0 l).
Proof.
  intros Hitem.
  induction l as [|conn l IH]; intros j0 g Hlen; simpl; [done|].
  unfold_result.
  pose proof (load_edge_wf i item g j0 conn Hitem) as Hedge.
  destruct (load_edge data i item g j0 conn) as [g1|e]; simpl in *.
  - apply IH. lia.
  - apply Hedge. lia.
Qed.

Lemma load_rows_wf items :
  ∀ (i0 : nat) g,
    (∀ k r, items !! k = Some r → data !! (i0 + k)%nat = Some r) →
    only_undirected_assertion (load_rows data g i0 items).
Proof.
  induction items as [|item items IH]; intros i0 g Hitems; simpl; [done|].
  unfold_result.
  assert (data !! i0 = Some item) as Hitem.
  { rewrite <-(Nat.add_0_r i0). by apply (Hitems 0%nat). }
  assert (only_undirected_assertion
            (if included item
             then load_row data i0 item g 0 (unobstructed item) else Ok g))
    as Hrow.
  { destruct (included item); [|done]. apply load_row_wf; [done|].
    unfold well_formed in data_wf. rewrite Forall_forall in data_wf.
    destruct (data_wf item) as [_ ->]; [by eapply list_elem_of_lookup_2|done]. }
  destruct (if included item then _ else _) as [g1|e]; [|done].
  apply IH. intros k r Hk. rewrite Nat.add_succ_comm. by apply (Hitems (S k)).
Qed.

End Rows.

(** The edges of a loaded graph are justified by the data. *)
Lemma load_nav_graph_justified (data : list (conn_record T)) g :
  load_nav_graph data = Ok g → edges_justified data (Nx.adj g).
Proof.
  unfold load_nav_graph. unfold_result.
  destruct (load_rows data Nx.empty_graph 0 data) as [g0|] eqn:Hrows; [|done].
  intros [= <-]. simpl.
  eapply load_rows_justified; [done|done|].
  intros u v w (nbrs & Hu & _). simpl in Hu. by rewrite lookup_empty in Hu.
Qed.

(** C8.  The edges [load_nav_graph] builds.  When it returns a graph,
    every edge joins the image ids of two records that are both included
    and list each other as unobstructed, and its weight is the Euclidean
    distance between the translation parts of their poses; and every
    included record is joined to each included record it lists.  When an
    included record lists an included record that does not list it back,
    no graph is returned: the loader raises, and on data of the files'
    shape (16-entry poses, one flag per record) what it raises is the
    assertion with the message "Graph should be undirected". *)
Theorem load_nav_graph_edges (data : list (conn_record T)) :
  (∀ g, load_nav_graph data = Ok g →
        (∀ u v w, Nx.has_edge (Nx.adj g) u v w →
           ∃ i j ri rj,
             mutually_unobstructed data i j ri rj
             ∧ distance ri rj = Ok w
             ∧ ((u = image_id ri ∧ v = image_id rj)
                ∨ (u = image_id rj ∧ v = image_id ri)))
        ∧ (∀ i j ri rj, sees data i j ri rj →
             ∃ w, Nx.has_edge (Nx.adj g) (image_id ri) (image_id rj) w))
  ∧ (∀ i j ri rj,
        sees data i j ri rj → unobstructed rj !! i = Some false →
        (∃ e, load_nav_graph data = Raise e)
        ∧ (well_formed data →
           load_nav_graph data = Raise (AssertionError undirected_message))).
Proof.
  split.
  - intros g Hload. split; [by apply load_nav_graph_justified|].
    revert Hload. unfold load_nav_graph. unfold_result.
    destruct (load_rows data Nx.empty_graph 0 data) as [g0|] eqn:Hrows; [|done].
    intros [= <-]. simpl.
    intros i j ri rj (Hi & Hj & Hinci & Hincj & Hij).
    apply load_rows_joined in Hrows as [_ Hnew]. by eapply Hnew.
  - intros i j ri rj (Hi & Hj & Hinci & Hincj & Hij) Hback.
    destruct (load_rows_one_sided data j rj data Hj Hincj 0%nat i Nx.empty_graph
                ri Hi Hinci Hij Hback) as [e He].
    unfold load_nav_graph. unfold_result. rewrite He.
    split; [eauto|]. intros Hwf.
    pose proof (load_rows_wf data Hwf data 0%nat Nx.empty_graph) as Honly.
    rewrite He in Honly. simpl in Honly. by rewrite Honly.
Qed.

End Loader.

End LoaderFacts.

(** ** Shortest paths: [all_pairs_dijkstra_path_length] *)

Module DijkstraFacts.
Import Nx.

(** *** In any arithmetic: the loop ends, and keeps what it has settled *)

Section AnyArithmetic.
Context {T : Type} `{Num.ops T}.
Implicit Types (a : adjacency T) (st : dijkstra_state T) (d : gmap string T).
Implicit Types (l : list (T * nat * string)).

Lemma pop_min_None l : pop_min l = None → l = [].
Proof.
  destruct l as [|e l]; [done|]. simpl.
  destruct (pop_min l) as [[m rest]|]; [|done]. by destruct (entry_lt m e).
Qed.

Lemma pop_min_Some l :
  ∀ e rest, pop_min l = Some (e, rest) → l ≡ₚ e :: rest.
Proof.
  induction l as [|x l IH]; intros e rest; [done|]. simpl.
  destruct (pop_min l) as [[m rest']|] eqn:Hpop.
  - destruct (entry_lt m x); intros [= <- <-]; [|done].
    rewrite (IH _ _ eq_refl). apply Permutation_swap.
  - intros [= <- <-]. by rewrite (pop_min_None _ Hpop).
Qed.

Lemma relax_dist (dv : T) st (uw : string * T) st' :
  relax dv st uw = Ok st' →
  dist st' = dist st ∧ (length (fringe st') ≤ S (length (fringe st)))%nat.
Proof.
  unfold relax. destruct (dist st !! uw.1).
  - destruct (Num.ltb _ _); [done|]. intros [= <-]. split; [done|lia].
  - destruct (seen st !! uw.1) as [su|].
    + destruct (Num.ltb _ _); intros [= <-]; simpl; split; (done || lia).
    + intros [= <-]. simpl. split; (done || lia).
Qed.

Lemma relax_all_dist (dv : T) (nbrs : list (string * T)) :
  ∀ st st', relax_all dv st nbrs = Ok st' →
    dist st' = dist st
    ∧ (length (fringe st') ≤ length (fringe st) + length nbrs)%nat.
Proof.
  induction nbrs as [|uw nbrs IH]; intros st st'; simpl.
  - intros [= <-]. split; [done|lia].
  - unfold_result.
    destruct (relax dv st uw) as [st1|] eqn:Hone; [|done].
    intros Hrest. apply relax_dist in Hone as [Hd1 Hl1].
    apply IH in Hrest as [Hd Hl]. split; [congruence|lia].
Qed.

Lemma pending_degree_empty a : pending_degree a ∅ = degree_sum a.
Proof.
  unfold pending_degree, degree_sum. f_equal.
  rewrite <-list_fmap_compose. apply list_fmap_ext.
  intros i [k nbrs] _. unfold pending. simpl. by rewrite lookup_empty.
Qed.

Lemma pending_insert_other (d : gmap string T) (v : string) (x : T)
    (kvs : list (string * gmap string T)) :
  v ∉ kvs.*1 →
  sum_list (pending d <$> kvs) = sum_list (pending (<[v := x]> d) <$> kvs).
Proof.
  induction kvs as [|[k m] kvs IH]; intros Hv; [done|].
  rewrite fmap_cons in Hv. apply not_elem_of_cons in Hv as [Hkv Hv].
  rewrite !fmap_cons. simpl sum_list. rewrite (IH Hv).
  unfold pending. simpl. by rewrite lookup_insert_ne.
Qed.

Lemma pending_insert_list (d : gmap string T) (v : string) (x : T)
    (nbrs : gmap string T) (kvs : list (string * gmap string T)) :
  d !! v = None → NoDup kvs.*1 → (v, nbrs) ∈ kvs →
  sum_list (pending d <$> kvs)
  = (size nbrs + sum_list (pending (<[v := x]> d) <$> kvs))%nat.
Proof.
  intros Hv. induction kvs as [|[k m] kvs IH]; intros Hnd Hin.
  - by apply not_elem_of_nil in Hin.
  - rewrite fmap_cons in Hnd. apply NoDup_cons in Hnd as [Hk Hnd].
    rewrite !fmap_cons. simpl sum_list.
    apply elem_of_cons in Hin as [[= <- <-]|Hin].
    + rewrite <-(pending_insert_other d v x kvs Hk).
      unfold pending. simpl. rewrite Hv, lookup_insert_eq. lia.
    + rewrite (IH Hnd Hin).
      assert (k ≠ v) as Hkv.
      { intros ->. apply Hk. apply list_elem_of_fmap. by exists (v, nbrs). }
      unfold pending at 1 3. simpl. rewrite lookup_insert_ne by done. lia.
Qed.

Lemma pending_degree_insert a d (v : string) (x : T) (nbrs : gmap string T) :
  a !! v = Some nbrs → d !! v = None →
  pending_degree a d = (size nbrs + pending_degree a (<[v := x]> d))%nat.
Proof.
  intros Ha Hd. apply pending_insert_list; [done| |].
  - apply NoDup_fst_map_to_list.
  - by apply elem_of_map_to_list.
Qed.

(** The heap and the degrees still to come bound the turns left. *)
Lemma dijkstra_loop_fuel a :
  ∀ (fuel : nat) st,
    (length (fringe st) + pending_degree a (dist st) < fuel)%nat →
    dijkstra_loop fuel a st ≠ None.
Proof.
  induction fuel as [|fuel IH]; intros st Hfuel; [lia|]. simpl.
  destruct (pop_min (fringe st)) as [[[[x c] v] rest]|] eqn:Hpop; [|done].
  apply pop_min_Some, Permutation_length in Hpop. simpl in Hpop.
  case_decide as Hsettled.
  - apply IH. simpl. lia.
  - destruct (a !! v) as [nbrs|] eqn:Hv; [|done].
    destruct (relax_all _ _ _) as [st'|] eqn:Hrelax; [|done].
    apply relax_all_dist in Hrelax as [Hd Hl]. simpl in *.
    apply IH. rewrite Hd.
    rewrite length_map_to_list in Hl.
    assert (dist st !! v = None) as Hnone.
    { destruct (dist st !! v) eqn:E; [|done]. exfalso. apply Hsettled. eauto. }
    rewrite (pending_degree_insert a (dist st) v x nbrs Hv Hnone) in Hfuel. lia.
Qed.

Lemma single_source_fuel_enough a (source : string) :
  single_source_dijkstra_path_length a source ≠ None.
Proof.
  apply dijkstra_loop_fuel. simpl. rewrite pending_degree_empty.
  unfold dijkstra_fuel. lia.
Qed.

Lemma dijkstra_loop_S a (fuel : nat) st :
  dijkstra_loop (S fuel) a st =
  match pop_min (fringe st) with
  | None => Some (Ok (dist st))
  | Some ((x, _, v), rest) =>
      if decide (is_Some (dist st !! v)) then
        dijkstra_loop fuel a (DState (dist st) (seen st) rest (counter st))
      else
        match a !! v with
        | None => Some (Raise KeyError)
        | Some nbrs =>
            match relax_all x
                    (DState (<[v := x]> (dist st)) (seen st) rest (counter st))
                    (map_to_list nbrs) with
            | Raise e => Some (Raise e)
            | Ok st' => dijkstra_loop fuel a st'
            end
        end
  end.
Proof. reflexivity. Qed.

(** What is settled stays settled, with the same distance. *)
Lemma dijkstra_loop_keeps a :
  ∀ (fuel : nat) st d,
    dijkstra_loop fuel a st = Some (Ok d) → dist st ⊆ d.
Proof.
  induction fuel as [|fuel IH]; intros st d; [done|]. simpl.
  destruct (pop_min (fringe st)) as [[[[x c] v] rest]|] eqn:Hpop.
  2:{ by intros [= <-]. }
  case_decide as Hsettled.
  - intros Hrun. by apply IH in Hrun.
  - destruct (a !! v) as [nbrs|] eqn:Hv; [|done].
    destruct (relax_all _ _ _) as [st'|] eqn:Hrelax; [|done].
    apply relax_all_dist in Hrelax as [Hd _]. simpl in *.
    intros Hrun. apply IH in Hrun. rewrite Hd in Hrun.
    etrans; [|done]. apply insert_subseteq.
    destruct (dist st !! v) eqn:E; [|done]. exfalso. apply Hsettled. eauto.
Qed.

(** The source is settled first, at distance zero. *)
Lemma single_source_zero a (source : string) d :
  single_source_dijkstra_path_length a source = Some (Ok d) →
  d !! source = Some Num.zero.
Proof.
  unfold single_source_dijkstra_path_length, dijkstra_fuel.
  change (2 + degree_sum a)%nat with (S (S (degree_sum a))).
  rewrite dijkstra_loop_S. simpl pop_min. cbv beta iota. simpl dist.
  rewrite decide_False by (rewrite lookup_empty; by intros [? ?]).
  destruct (a !! source) as [nbrs|]; [|done].
  destruct (relax_all _ _ _) as [st'|] eqn:Hrelax; [|done].
  apply relax_all_dist in Hrelax as [Hd _]. simpl in Hd.
  intros Hrun. apply dijkstra_loop_keeps in Hrun. rewrite Hd in Hrun.
  eapply lookup_weaken; [|done]. apply lookup_insert_eq.
Qed.

(** The table has a row for each node, computed from that node. *)
Lemma all_pairs_loop_rows a (nodes : list string) (t : adjacency T) :
  all_pairs_loop a nodes = Some (Ok t) →
  ∀ n, (n ∈ nodes → is_Some (t !! n))
       ∧ (∀ row, t !! n = Some row →
                 n ∈ nodes
                 ∧ single_source_dijkstra_path_length a n = Some (Ok row)).
Proof.
  revert t. induction nodes as [|m nodes IH]; intros t; simpl.
  - intros [= <-] n. split; [by intros ?%not_elem_of_nil|].
    intros row Hrow. by rewrite lookup_empty in Hrow.
  - destruct (single_source_dijkstra_path_length a m) as [[dm|]|] eqn:Hm;
      [|done..].
    destruct (all_pairs_loop a nodes) as [[t'|]|]; [|done..].
    intros [= <-] n. destruct (IH t' eq_refl n) as [Hin Hrow].
    destruct (decide (n = m)) as [->|Hnm].
    + rewrite lookup_insert_eq. split; [eauto|].
      intros row [= <-]. split; [apply list_elem_of_here|done].
    + rewrite lookup_insert_ne by done. split.
      * intros [?|?]%elem_of_cons; [done|eauto].
      * intros row Hr. destruct (Hrow row Hr).
        split; [by apply list_elem_of_further|done].
Qed.

Lemma all_pairs_loop_total a (nodes : list string) :
  (∀ n, n ∈ nodes →
        ∃ row, single_source_dijkstra_path_length a n = Some (Ok row)) →
  ∃ t, all_pairs_loop a nodes = Some (Ok t).
Proof.
  induction nodes as [|m nodes IH]; intros Hrows; simpl; [eauto|].
  destruct (Hrows m) as [row ->]; [apply list_elem_of_here|].
  destruct IH as [t ->]; [|eauto].
  intros n Hn. apply Hrows. by apply list_elem_of_further.
Qed.

Lemma elem_of_nodes a (n : string) : n ∈ (map_to_list a).*1 ↔ is_node a n.
Proof.
  unfold is_node. rewrite list_elem_of_fmap. split.
  - intros ([k nbrs] & -> & Hin). apply elem_of_map_to_list in Hin. eauto.
  - intros [nbrs Hn]. exists (n, nbrs). split; [done|].
    by apply elem_of_map_to_list.
Qed.

End AnyArithmetic.

(** *** In exact arithmetic: the distances are those of lightest walks *)

Section ExactArithmetic.
Context {T : Type} `{Num.ops T} `{!Num.exact T}.
Implicit Types (a : adjacency T) (st : dijkstra_state T) (x y z w : T).

Lemma le_refl x : Num.le x x.
Proof. apply Num.ltb_irrefl. Qed.

Lemma lt_le x y : Num.ltb x y = true → Num.le x y.
Proof.
  intros Hxy. unfold Num.le. destruct (Num.ltb y x) eqn:Hyx; [|done].
  by rewrite <-(Num.ltb_irrefl x), (Num.ltb_trans x y x).
Qed.

Lemma le_trans x y z : Num.le x y → Num.le y z → Num.le x z.
Proof.
  unfold Num.le. intros Hxy Hyz.
  destruct (Num.ltb z x) eqn:Hzx; [|done].
  destruct (Num.ltb x y) eqn:Hlt.
  - by rewrite <-Hyz, (Num.ltb_trans z x y).
  - rewrite (Num.ltb_total x y Hlt Hxy) in Hzx. congruence.
Qed.

Lemma le_antisym x y : Num.le x y → Num.le y x → x = y.
Proof. unfold Num.le. intros Hxy Hyx. by apply Num.ltb_total. Qed.

Lemma add_zero_r x : Num.add x Num.zero = x.
Proof. by rewrite Num.add_comm, Num.add_zero_l. Qed.

Lemma add_le_mono_r x y z : Num.le x y → Num.le (Num.add x z) (Num.add y z).
Proof. unfold Num.le. by rewrite Num.ltb_add_r. Qed.

Lemma le_add_r x w : Num.le Num.zero w → Num.le x (Num.add x w).
Proof.
  intros Hw. apply (add_le_mono_r _ _ x) in Hw.
  by rewrite Num.add_zero_l, Num.add_comm in Hw.
Qed.

(** The entry taken off the heap has the least distance. *)
Lemma pop_min_least (l : list (T * nat * string)) :
  ∀ e rest, pop_min l = Some (e, rest) →
    ∀ e', e' ∈ l → Num.le e.1.1 e'.1.1.
Proof.
  induction l as [|x l IH]; intros e rest; [done|]. simpl.
  destruct (pop_min l) as [[m rest']|] eqn:Hpop.
  - assert (entry_lt m x = true → Num.le m.1.1 x.1.1) as Hlt.
    { unfold entry_lt. destruct (Num.eqb m.1.1 x.1.1) eqn:Heq.
      - apply Num.eqb_eq in Heq as ->. intros _. apply le_refl.
      - apply lt_le. }
    assert (entry_lt m x = false → Num.le x.1.1 m.1.1) as Hge.
    { unfold entry_lt. destruct (Num.eqb m.1.1 x.1.1) eqn:Heq.
      - apply Num.eqb_eq in Heq as ->. intros _. apply le_refl.
      - done. }
    destruct (entry_lt m x); intros [= <- <-] e' [->|Hin]%elem_of_cons.
    + by apply Hlt.
    + by eapply IH.
    + apply le_refl.
    + eapply le_trans; [by apply Hge|]. by eapply IH.
  - intros [= <- <-] e' [->|Hin]%elem_of_cons; [apply le_refl|].
    apply pop_min_None in Hpop. subst l. by apply not_elem_of_nil in Hin.
Qed.

(** **** Walks *)

Lemma walk_edge a (u v : string) w : has_edge a u v w → walk a u v w.
Proof.
  intros Hedge. rewrite <-(Num.add_zero_l w).
  eapply walk_step; [apply walk_here|done].
Qed.

Lemma walk_app a (s u v : string) x y :
  walk a s u x → walk a u v y → walk a s v (Num.add x y).
Proof.
  intros Hsu Huv. induction Huv as [|m v y w Hum IH Hedge].
  - by rewrite add_zero_r.
  - rewrite Num.add_assoc. by eapply walk_step.
Qed.

Lemma walk_reverse a (s v : string) x :
  undirected a → walk a s v x → walk a v s x.
Proof.
  intros Hund Hwalk. induction Hwalk as [|u v x w Hsu IH Hedge].
  - apply walk_here.
  - rewrite Num.add_comm. eapply walk_app; [|done].
    by apply walk_edge, Hund.
Qed.

Lemma walk_nonneg a (s v : string) x :
  nonnegative a → walk a s v x → Num.le Num.zero x.
Proof.
  intros Hnn Hwalk. induction Hwalk as [|u v x w Hsu IH Hedge].
  - apply le_refl.
  - eapply le_trans; [done|]. apply le_add_r. by eapply Hnn.
Qed.

Lemma walk_end_node a (s v : string) x :
  undirected a → is_node a s → walk a s v x → is_node a v.
Proof.
  intros Hund Hs Hwalk. destruct Hwalk as [|u v x w _ Hedge]; [done|].
  apply Hund in Hedge as (nbrs & Hv & _). by exists nbrs.
Qed.

Lemma shortest_unique a (s v : string) x y :
  shortest a s v x → shortest a s v y → x = y.
Proof.
  intros [Hx Hminx] [Hy Hminy]. apply le_antisym; [by apply Hminx|by apply Hminy].
Qed.

Lemma shortest_reverse a (s v : string) x :
  undirected a → shortest a s v x → shortest a v s x.
Proof.
  intros Hund [Hwalk Hmin]. split; [by apply walk_reverse|].
  intros y Hy. by apply Hmin, walk_reverse.
Qed.

(** **** The invariant of the loop *)

Section Source.
Variable a : adjacency T.
Variable s : string.
Hypothesis a_undirected : undirected a.
Hypothesis a_nonnegative : nonnegative a.
Hypothesis s_node : is_node a s.

Local Abbreviation inv := (dijkstra_inv a s).

Lemma inv_start :
  inv s [] (DState ∅ {[s := Num.zero]} [(Num.zero, 0%nat, s)] 1).
Proof.
  split; simpl.
  - intros v x Hv. by rewrite lookup_empty in Hv.
  - intros v x Hv. by rewrite lookup_empty in Hv.
  - intros x c v [= -> -> ->]%list_elem_of_singleton. apply walk_here.
  - intros v x [-> ->]%lookup_singleton_Some _. exists 0%nat.
    apply list_elem_of_here.
  - intros v dv u w Hv. by rewrite lookup_empty in Hv.
  - intros _. exists 0%nat. apply list_elem_of_here.
Qed.

(** A walk from the source ends at a settled node, or some entry of the
    heap is no heavier than it. *)
Lemma frontier (v0 : string) st (v : string) y :
  inv v0 [] st → walk a s v y →
  is_Some (dist st !! v) ∨ ∃ x c u, (x, c, u) ∈ fringe st ∧ Num.le x y.
Proof.
  intros Hinv Hwalk. induction Hwalk as [|u v y w Hsu IH Hedge].
  - destruct (dist st !! s) eqn:Hs; [left; eauto|right].
    destruct (inv_source Hinv Hs) as [c Hc].
    exists Num.zero, c, s. split; [done|apply le_refl].
  - destruct IH as [[du Hu]|(x & c & m & Hin & Hle)].
    + destruct (inv_relaxed Hinv u du v w Hu Hedge)
        as [[_ Hin]|[Hv|(sv & Hsv & Hle)]].
      * by apply not_elem_of_nil in Hin.
      * by left.
      * destruct (dist st !! v) eqn:Hv; [left; eauto|right].
        destruct (inv_seen Hinv v sv Hsv Hv) as [c Hc].
        exists sv, c, v. split; [done|].
        eapply le_trans; [done|]. apply add_le_mono_r.
        by eapply inv_dist_min.
    + right. exists x, c, m. split; [done|].
      eapply le_trans; [done|]. apply le_add_r. by eapply a_nonnegative.
Qed.

Lemma inv_pop_settled (v0 : string) st x (c : nat) (v : string)
    (rest : list (T * nat * string)) :
  inv v0 [] st →
  pop_min (fringe st) = Some ((x, c, v), rest) →
  is_Some (dist st !! v) →
  inv v0 [] (DState (dist st) (seen st) rest (counter st)).
Proof.
  intros Hinv Hpop [dv Hv]. apply pop_min_Some in Hpop.
  assert (∀ e, e ∈ rest → e ∈ fringe st) as Hrest.
  { intros e He. rewrite Hpop. by apply list_elem_of_further. }
  assert (∀ e, e ∈ fringe st → e = (x, c, v) ∨ e ∈ rest) as Hcases.
  { intros e He. rewrite Hpop in He. by apply elem_of_cons in He. }
  split; simpl.
  - apply Hinv.
  - apply Hinv.
  - intros y c' u Hin. eapply inv_fringe; [done|]. by apply Hrest.
  - intros u y Hu Hnone. destruct (inv_seen Hinv u y Hu Hnone) as [c' Hc'].
    exists c'. destruct (Hcases _ Hc') as [[= -> -> ->]|Hin]; [congruence|done].
  - intros u du m w Hu Hedge.
    destruct (inv_relaxed Hinv u du m w Hu Hedge) as [?|Hrel]; [by left|].
    by right.
  - intros Hs. destruct (inv_source Hinv Hs) as [c' Hc'].
    exists c'. destruct (Hcases _ Hc') as [[= -> -> ->]|Hin]; [congruence|done].
Qed.

Lemma inv_pop_new (v0 : string) st x (c : nat) (v : string)
    (rest : list (T * nat * string)) :
  inv v0 [] st →
  pop_min (fringe st) = Some ((x, c, v), rest) →
  dist st !! v = None →
  ∃ nbrs, a !! v = Some nbrs
          ∧ inv v (map_to_list nbrs)
                (DState (<[v := x]> (dist st)) (seen st) rest (counter st)).
Proof.
  intros Hinv Hpop Hv.
  pose proof (pop_min_least _ _ _ Hpop) as Hleast.
  apply pop_min_Some in Hpop.
  assert (∀ e, e ∈ rest → e ∈ fringe st) as Hrest.
  { intros e He. rewrite Hpop. by apply list_elem_of_further. }
  assert (∀ e, e ∈ fringe st → e = (x, c, v) ∨ e ∈ rest) as Hcases.
  { intros e He. rewrite Hpop in He. by apply elem_of_cons in He. }
  assert (walk a s v x) as Hwalk.
  { eapply inv_fringe; [done|]. rewrite Hpop. apply list_elem_of_here. }
  destruct (walk_end_node a s v x a_undirected s_node Hwalk) as [nbrs Hnbrs].
  exists nbrs. split; [done|]. split; simpl.
  - intros u y [[<- <-]|[_ Hu]]%lookup_insert_Some; [done|].
    by eapply inv_dist_walk.
  - intros u y [[<- <-]|[_ Hu]]%lookup_insert_Some; [|by eapply inv_dist_min].
    intros y' Hy'.
    destruct (frontier v0 st v y' Hinv Hy') as [[? ?]|(e & c' & m & Hin & Hle)];
      [congruence|].
    eapply le_trans; [|done]. by apply (Hleast (e, c', m)).
  - intros y c' u Hin. eapply inv_fringe; [done|]. by apply Hrest.
  - intros u y Hu [Hnone Hne]%lookup_insert_None.
    destruct (inv_seen Hinv u y Hu Hnone) as [c' Hc'].
    exists c'. destruct (Hcases _ Hc') as [[= -> -> ->]|Hin]; [done|done].
  - intros u du m w [[<- <-]|[Hne Hu]]%lookup_insert_Some Hedge.
    + left. split; [done|]. destruct Hedge as (nbrs' & Hn' & Hm).
      rewrite Hnbrs in Hn'. injection Hn' as <-. by apply elem_of_map_to_list.
    + destruct (inv_relaxed Hinv u du m w Hu Hedge)
        as [[_ Hin]|[[dm Hm]|Hrel]].
      * by apply not_elem_of_nil in Hin.
      * right. left. simpl. destruct (decide (v = m)) as [->|Hvm].
        -- rewrite lookup_insert_eq. eauto.
        -- rewrite lookup_insert_ne by done. eauto.
      * right. by right.
  - intros [Hs Hne]%lookup_insert_None.
    destruct (inv_source Hinv Hs) as [c' Hc'].
    exists c'. destruct (Hcases _ Hc') as [[= -> -> ->]|Hin]; [done|done].
Qed.

(** Once an edge is looked at it stays so while tentative distances
    only go down. *)
Lemma relaxed_push st (dv : T) (u : string) (w : T) (m : string) (vu : T) :
  (∀ sm, seen st !! m = Some sm → Num.ltb vu sm = true) →
  relaxed st dv u w →
  relaxed (DState (dist st) (<[m := vu]> (seen st))
                  ((vu, counter st, m) :: fringe st) (S (counter st)))
          dv u w.
Proof.
  intros Hlower [Hsettled|(su & Hsu & Hle)]; [by left|right]. simpl.
  destruct (decide (m = u)) as [->|Hmu].
  - exists vu. rewrite lookup_insert_eq. split; [done|].
    eapply le_trans; [|done]. by apply lt_le, Hlower.
  - exists su. by rewrite lookup_insert_ne.
Qed.

Lemma relax_inv (v : string) (dv : T) (u : string) (w : T)
    (todo : list (string * T)) st :
  inv v ((u, w) :: todo) st →
  dist st !! v = Some dv →
  has_edge a v u w →
  ∃ st', relax dv st (u, w) = Ok st' ∧ dist st' = dist st ∧ inv v todo st'.
Proof.
  intros Hinv Hv Hedge.
  assert (walk a s u (Num.add dv w)) as Hwalk.
  { eapply walk_step; [|done]. by eapply inv_dist_walk. }
  (* the state is left as it is *)
  assert (relaxed st dv u w → inv v todo st) as Hsame.
  { intros Hrel. split.
    - exact (inv_dist_walk Hinv).
    - exact (inv_dist_min Hinv).
    - exact (inv_fringe Hinv).
    - exact (inv_seen Hinv).
    - intros v' dv' u' w' Hv' Hedge'.
      destruct (inv_relaxed Hinv v' dv' u' w' Hv' Hedge')
        as [[-> [[= -> ->]|Hin]%elem_of_cons]|?]; [|by left; split|by right].
      right. by simplify_eq.
    - exact (inv_source Hinv). }
  (* a lighter tentative distance is pushed *)
  assert (dist st !! u = None →
          (∀ su, seen st !! u = Some su → Num.ltb (Num.add dv w) su = true) →
          inv v todo
              (DState (dist st) (<[u := Num.add dv w]> (seen st))
                      ((Num.add dv w, counter st, u) :: fringe st)
                      (S (counter st)))) as Hpush.
  { intros Hu Hlower. split; simpl.
    - exact (inv_dist_walk Hinv).
    - exact (inv_dist_min Hinv).
    - intros x c m [[= -> -> ->]|Hin]%elem_of_cons; [done|].
      by eapply inv_fringe.
    - intros m x [[<- <-]|[Hne Hm]]%lookup_insert_Some Hnone.
      + exists (counter st). apply list_elem_of_here.
      + destruct (inv_seen Hinv m x Hm Hnone) as [c Hc].
        exists c. by apply list_elem_of_further.
    - intros v' dv' u' w' Hv' Hedge'.
      destruct (inv_relaxed Hinv v' dv' u' w' Hv' Hedge')
        as [[-> [[= -> ->]|Hin]%elem_of_cons]|Hrel].
      + right. right. simpl. exists (Num.add dv w).
        rewrite lookup_insert_eq. split; [done|].
        simplify_eq. apply le_refl.
      + by left.
      + right. by apply relaxed_push.
    - intros Hs. destruct (inv_source Hinv Hs) as [c Hc].
      exists c. by apply list_elem_of_further. }
  unfold relax. simpl.
  destruct (dist st !! u) as [du|] eqn:Hu.
  - assert (Num.le du (Num.add dv w)) as Hle by by eapply inv_dist_min.
    unfold Num.le in Hle. rewrite Hle.
    exists st. split_and!; [done..|]. apply Hsame. left. eauto.
  - destruct (seen st !! u) as [su|] eqn:Hsu.
    + destruct (Num.ltb (Num.add dv w) su) eqn:Hlt.
      * eexists. split_and!; [done..|]. apply Hpush; [done|].
        intros su' [= <-]. done.
      * exists st. split_and!; [done..|]. apply Hsame. right. by exists su.
    + eexists. split_and!; [done..|]. by apply Hpush.
Qed.

Lemma relax_all_inv (v : string) (dv : T) (nbrs : list (string * T)) :
  ∀ st,
    inv v nbrs st →
    dist st !! v = Some dv →
    (∀ u w, (u, w) ∈ nbrs → has_edge a v u w) →
    ∃ st', relax_all dv st nbrs = Ok st' ∧ inv v [] st'.
Proof.
  induction nbrs as [|[u w] nbrs IH]; intros st Hinv Hv Hedges; simpl.
  - eauto.
  - unfold_result.
    destruct (relax_inv v dv u w nbrs st Hinv Hv) as (st1 & -> & Hd & Hinv1).
    { apply Hedges, list_elem_of_here. }
    apply IH; [done|by rewrite Hd|].
    intros u' w' Hin. by apply Hedges, list_elem_of_further.
Qed.

(** The loop never raises, and what it returns are the weights of the
    lightest walks from the source. *)
Lemma dijkstra_loop_correct :
  ∀ (fuel : nat) (v0 : string) st r,
    inv v0 [] st →
    dijkstra_loop fuel a st = Some r →
    ∃ d, r = Ok d ∧ ∀ v x, d !! v = Some x ↔ shortest a s v x.
Proof.
  induction fuel as [|fuel IH]; intros v0 st r Hinv; [done|].
  rewrite dijkstra_loop_S.
  destruct (pop_min (fringe st)) as [[[[x c] v] rest]|] eqn:Hpop.
  - case_decide as Hsettled.
    + apply (IH v0). by eapply inv_pop_settled.
    + assert (dist st !! v = None) as Hv.
      { destruct (dist st !! v) eqn:E; [|done]. exfalso. apply Hsettled. eauto. }
      destruct (inv_pop_new v0 st x c v rest Hinv Hpop Hv)
        as (nbrs & Hnbrs & Hinv').
      rewrite Hnbrs.
      destruct (relax_all_inv v x (map_to_list nbrs) _ Hinv')
        as (st' & -> & Hinv'').
      * simpl. apply lookup_insert_eq.
      * intros u w Hin%elem_of_map_to_list. by exists nbrs.
      * by apply (IH v).
  - intros [= <-]. apply pop_min_None in Hpop. exists (dist st).
    split; [done|]. intros v x. split.
    + intros Hv. split; [by eapply inv_dist_walk|by eapply inv_dist_min].
    + intros Hshort. pose proof Hshort as [Hwalk _].
      destruct (frontier v0 st v x Hinv Hwalk)
        as [[y Hy]|(e & c & m & Hin & _)].
      * rewrite Hy. f_equal. eapply shortest_unique; [|done].
        split; [by eapply inv_dist_walk|by eapply inv_dist_min].
      * rewrite Hpop in Hin. by apply not_elem_of_nil in Hin.
Qed.

(** A run from a node returns the weights of the lightest walks. *)
Lemma single_source_correct :
  ∃ d, single_source_dijkstra_path_length a s = Some (Ok d)
       ∧ ∀ v x, d !! v = Some x ↔ shortest a s v x.
Proof.
  destruct (single_source_dijkstra_path_length a s) as [r|] eqn:Hrun.
  - destruct (dijkstra_loop_correct _ s _ r inv_start Hrun) as (d & -> & Hd).
    by exists d.
  - by apply single_source_fuel_enough in Hrun.
Qed.

End Source.

(** The table of an undirected graph without negative weights. *)
Lemma all_pairs_correct (g : Graph T) :
  undirected (adj g) → nonnegative (adj g) →
  ∃ t, all_pairs_dijkstra_path_length g = Some (Ok t)
       ∧ ∀ s v x, table_at t s v = Some x
                  ↔ is_node (adj g) s ∧ shortest (adj g) s v x.
Proof.
  intros Hund Hnn. unfold all_pairs_dijkstra_path_length.
  destruct (all_pairs_loop_total (adj g) (map_to_list (adj g)).*1) as [t Ht].
  { intros n Hn%elem_of_nodes.
    destruct (single_source_correct (adj g) n Hund Hnn Hn) as (d & Hd & _).
    eauto. }
  exists t. split; [done|]. intros s v x.
  pose proof (all_pairs_loop_rows _ _ _ Ht s) as [Hin Hrow].
  unfold table_at. split.
  - destruct (t !! s) as [row|] eqn:Hs; [|done]. simpl. intros Hv.
    destruct (Hrow row eq_refl) as [Hnode%elem_of_nodes Hrun].
    split; [done|].
    destruct (single_source_correct (adj g) s Hund Hnn Hnode) as (d & Hd & Hspec).
    rewrite Hrun in Hd. injection Hd as <-. by apply Hspec.
  - intros [Hnode Hshort].
    destruct (Hin (proj2 (elem_of_nodes _ _) Hnode)) as [row Hs].
    rewrite Hs. simpl.
    destruct (Hrow row Hs) as [_ Hrun].
    destruct (single_source_correct (adj g) s Hund Hnn Hnode) as (d & Hd & Hspec).
    rewrite Hrun in Hd. injection Hd as <-. by apply Hspec.
Qed.

End ExactArithmetic.

End DijkstraFacts.

(** ** The distance table of a loaded graph *)

Module TableFacts.
Import Nx.

(** The rationals satisfy the laws of exact arithmetic, for any reading
    of [x ** 0.5] that is never negative. *)
Lemma exact_Qc (root : Qc → Qc) :
  (∀ q, (0 ≤ root q)%Qc) → @Num.exact Qc (Num.for_Qc root).
Proof.
  intros Hroot. split; simpl.
  - intros x y. apply Qcplus_comm.
  - intros x y z. apply Qcplus_assoc.
  - intros x. apply Qcplus_0_l.
  - intros x. apply bool_decide_eq_false_2, Qcle_not_lt, Qcle_refl.
  - intros x y z Hxy%bool_decide_eq_true_1 Hyz%bool_decide_eq_true_1.
    apply bool_decide_eq_true_2. by eapply Qclt_trans.
  - intros x y Hxy%bool_decide_eq_false_1 Hyx%bool_decide_eq_false_1.
    apply Qcle_antisym; by apply Qcnot_lt_le.
  - intros x y z. apply bool_decide_ext. symmetry. apply Qcplus_lt_mono_r.
  - intros x y. apply bool_decide_eq_true.
  - intros x. apply bool_decide_eq_false_2. by apply Qcle_not_lt.
Qed.

(** Binary64 does not: its addition is not associative. *)
Lemma float_not_exact : ¬ @Num.exact float Num.for_float.
Proof.
  intros Hexact.
  pose proof (@Num.add_assoc float Num.for_float Hexact
                Fixtures.tenth Fixtures.fifth Fixtures.three_tenths) as Hassoc.
  by vm_compute in Hassoc.
Qed.

Lemma sqrt_Qc_nonneg (q : Qc) : (0 ≤ Num.sqrt_Qc q)%Qc.
Proof.
  assert (0 <= Z.sqrt (Qnum (this q)) # Pos.sqrt (Qden (this q)))%Q as Hq.
  { unfold Qle. simpl. rewrite Z.mul_1_r. apply Z.sqrt_nonneg. }
  unfold Num.sqrt_Qc, Qcle. cbn [this Q2Qc]. by rewrite !Qred_correct.
Qed.

Section Table.
Context {T : Type} `{Num.ops T}.

Lemma add_edge_undirected (u v : string) (w : T) (a : adjacency T) :
  undirected a → undirected (add_edge u v w a).
Proof.
  intros Hund x y w' Hedge. apply LoaderFacts.has_edge_add_edge.
  apply LoaderFacts.has_edge_add_edge in Hedge
    as [[Hnew ->]|(Hn1 & Hn2 & Hold)].
  - left. split; [tauto|done].
  - right. split_and!; [tauto|tauto|by apply Hund].
Qed.

(** The loader's graphs are undirected. *)
Lemma load_nav_graph_undirected (data : list (Utils.conn_record T))
    (g : Graph T) :
  Utils.load_nav_graph data = Ok g → undirected (adj g).
Proof.
  unfold Utils.load_nav_graph. unfold_result.
  destruct (Utils.load_rows data empty_graph 0 data) as [g0|] eqn:Hrows; [|done].
  intros [= <-]. simpl.
  eapply (LoaderFacts.load_rows_preserves data undirected); [|done|].
  - intros u v w a. apply add_edge_undirected.
  - intros u v w (nbrs & Hu & _). simpl in Hu. by rewrite lookup_empty in Hu.
Qed.

(** In exact arithmetic their weights are not negative. *)
Lemma load_nav_graph_nonnegative `{!Num.exact T}
    (data : list (Utils.conn_record T)) (g : Graph T) :
  Utils.load_nav_graph data = Ok g → nonnegative (adj g).
Proof.
  intros Hload u v w Hedge.
  destruct (LoaderFacts.load_nav_graph_justified data g Hload u v w Hedge)
    as (i & j & ri & rj & _ & Hw & _).
  unfold Utils.distance in Hw. unfold_result.
  repeat (destruct (index _ _); [|done]).
  injection Hw as <-. apply Num.pow_half_nonneg.
Qed.

Lemma all_pairs_fuel_enough (g : Graph T) :
  all_pairs_dijkstra_path_length g ≠ None.
Proof.
  unfold all_pairs_dijkstra_path_length.
  induction ((map_to_list (adj g)).*1) as [|n nodes IH]; simpl; [done|].
  pose proof (DijkstraFacts.single_source_fuel_enough (adj g) n) as Hn.
  destruct (single_source_dijkstra_path_length (adj g) n) as [[d|]|]; [|done..].
  by destruct (all_pairs_loop (adj g) nodes) as [[t|]|].
Qed.

Lemma table_zero_diagonal (g : Graph T) (t : adjacency T) (n : string) :
  all_pairs_dijkstra_path_length g = Some (Ok t) →
  is_node (adj g) n → table_at t n n = Some Num.zero.
Proof.
  intros Ht Hn. unfold all_pairs_dijkstra_path_length in Ht.
  destruct (DijkstraFacts.all_pairs_loop_rows _ _ _ Ht n) as [Hin Hrow].
  destruct (Hin (proj2 (DijkstraFacts.elem_of_nodes _ _) Hn)) as [row Hr].
  unfold table_at. rewrite Hr. simpl.
  destruct (Hrow row Hr) as [_ Hrun].
  by apply DijkstraFacts.single_source_zero in Hrun.
Qed.

(** C7.  The distance table of a graph the loader built.  The run that
    builds the table always ends, and in a table that was built every
    node is at distance zero from itself, whatever the arithmetic.  In
    exact arithmetic the table is built (no run raises), its entries are
    the weights of the lightest walks, and it is symmetric: whenever
    [table[a][b]] is there, so is [table[b][a]], with the same value. *)
Theorem distance_table_symmetric (data : list (Utils.conn_record T))
    (g : Graph T) :
  Utils.load_nav_graph data = Ok g →
  all_pairs_dijkstra_path_length g ≠ None
  ∧ (∀ t, all_pairs_dijkstra_path_length g = Some (Ok t) →
          ∀ n, is_node (adj g) n → table_at t n n = Some Num.zero)
  ∧ (Num.exact T →
     ∃ t, all_pairs_dijkstra_path_length g = Some (Ok t)
          ∧ (∀ n, is_node (adj g) n → table_at t n n = Some Num.zero)
          ∧ (∀ s v x, table_at t s v = Some x → table_at t v s = Some x)
          ∧ (∀ s v x, table_at t s v = Some x
                      ↔ is_node (adj g) s ∧ shortest (adj g) s v x)).
Proof.
  intros Hload. split_and!.
  - apply all_pairs_fuel_enough.
  - intros t Ht n Hn. by apply (table_zero_diagonal g).
  - intros Hexact.
    pose proof (load_nav_graph_undirected data g Hload) as Hund.
    pose proof (load_nav_graph_nonnegative data g Hload) as Hnn.
    destruct (DijkstraFacts.all_pairs_correct g Hund Hnn) as (t & Ht & Hspec).
    exists t. split_and!; [done| |  |done].
    + intros n Hn. by apply (table_zero_diagonal g).
    + intros s v x [Hs Hshort]%Hspec. apply Hspec. split.
      * destruct Hshort as [Hwalk _].
        by eapply DijkstraFacts.walk_end_node.
      * by apply DijkstraFacts.shortest_reverse.
Qed.

End Table.

End TableFacts.

(** ** The loader and the distance table on concrete inputs *)

Module TableExamples.
Import Nx Fixtures.

(** Applying C8 to the triangle whose flag from [B] to [A] is cleared:
    [A] lists [B], [B] does not list [A], and the loader raises the
    assertion. *)
Lemma load_nav_graph_edges_witness :
  Utils.load_nav_graph (H := Num.for_Qc Num.sqrt_Qc) one_sided
  = Raise (AssertionError Utils.undirected_message).
Proof.
  destruct (LoaderFacts.load_nav_graph_edges (H := Num.for_Qc Num.sqrt_Qc)
              one_sided) as [_ Hfail].
  refine (proj2 (Hfail 0%nat 1%nat _ _ _ _) _).
  - by repeat split.
  - reflexivity.
  - by repeat constructor.
Defined.

(** Applying C7 to the triangle, over the rationals: the table is built,
    it is symmetric, and [A] is at distance zero from itself. *)
Lemma distance_table_symmetric_witness :
  ∃ t, all_pairs_dijkstra_path_length (H := Num.for_Qc Num.sqrt_Qc)
         (graph_Qc triangle) = Some (Ok t)
       ∧ (∀ s v x, table_at t s v = Some x → table_at t v s = Some x)
       ∧ table_at t "A" "A" = Some 0%Qc.
Proof.
  destruct (TableFacts.distance_table_symmetric (H := Num.for_Qc Num.sqrt_Qc)
              triangle (graph_Qc triangle)) as (_ & _ & Hexact).
  - by vm_compute.
  - destruct (Hexact (TableFacts.exact_Qc _ TableFacts.sqrt_Qc_nonneg))
      as (t & Ht & Hzero & Hsym & _).
    exists t. split_and!; [done..|]. apply Hzero.
    unfold is_node. eexists. by vm_compute.
Defined.

(** The claim C7 as worded fails in binary64 on the long corridor: the
    table is built, from [a] the steps add up as (2^53 + 1) + 1, which
    rounds to 2^53 twice, and from [d] as (1 + 1) + 2^53, which is
    2^53 + 2 exactly. *)
Lemma long_corridor_table_asymmetric :
  is_ok (Utils.load_nav_graph (H := Num.for_float) long_corridor) = true
  ∧ table_at (table_float long_corridor) "a" "d"
    = Some 9007199254740992%float
  ∧ table_at (table_float long_corridor) "d" "a"
    = Some 9007199254740994%float
  ∧ table_at (table_float long_corridor) "a" "d"
    ≠ table_at (table_float long_corridor) "d" "a".
Proof.
  split_and!; by vm_compute.
Qed.

(** The same at the scale of a building: steps of 0.1, 0.2 and 0.3 add up
    to 0.6000000000000001 from [a] and to 0.6 from [d]. *)
Lemma short_corridor_table_asymmetric :
  table_at (table_float short_corridor) "a" "d"
  = Some 0x1.3333333333334p-1%float
  ∧ table_at (table_float short_corridor) "d" "a"
    = Some 0x1.3333333333333p-1%float.
Proof. split; by vm_compute. Qed.

End TableExamples.

(** ** More about the scorer and the aggregator *)

Module EvaluatorFacts.
Import EvalPy EvalNotions ScorerFacts AggregatorFacts.
Local Open Scope list_scope.

Section Closest.
Variable self : Evaluation.
Variables scan goal : string.

Lemma nearest_loop_first (items : list traj_point) :
  ∀ near_id near_d id' d',
    nearest_loop self scan goal items near_id near_d = Ok (id', d') →
    ((id', d') = (near_id, near_d)
     ∧ Forall (goal_distance self scan goal Qcle near_d) items)
    ∨ (∃ pre p post,
         items = pre ++ p :: post
         ∧ viewpoint p = id'
         ∧ distance_of self scan id' goal = Ok d'
         ∧ (d' < near_d)%Qc
         ∧ Forall (goal_distance self scan goal Qclt d') pre
         ∧ Forall (goal_distance self scan goal Qcle d') post).
Proof.
  induction items as [|q items IH]; intros near_id near_d id' d'; simpl.
  - intros [= -> ->]. by left.
  - unfold_result.
    destruct (distance_of self scan (viewpoint q) goal) as [d|] eqn:Hd; [|done].
    destruct (decide (d < near_d)%Qc) as [Hlt|Hge]; intros Hloop;
      apply IH in Hloop
        as [[[= -> ->] Hall]|(pre & p & post & -> & Hp & Hd' & Hless & Hpre & Hpost)].
    + right. exists [], q, items. split_and!; try done. 
    + right. exists (q :: pre), p, post. split_and!; try done.
      * by etrans.
      * constructor; [|done]. by exists d.
    + left. split; [done|]. constructor; [|done].
      exists d. split; [done|]. by apply Qcnot_lt_le.
    + right. exists (q :: pre), p, post. split_and!; try done.
      constructor; [|done]. exists d. split; [done|].
      eapply Qclt_le_trans; [done|]. by apply Qcnot_lt_le.
Qed.

End Closest.

(** X1.  [_get_nearest] returns the first of the closest points.  When it
    returns, the trajectory splits at a point whose viewpoint is the one
    returned: every point before it is strictly farther from the goal,
    every point after it is at least as far. *)
Theorem get_nearest_first_closest (self : Evaluation) (scan goal : string)
    (path : list traj_point) (nearest : string) :
  _get_nearest self scan goal path = Ok nearest →
  ∃ pre p post o,
    path = pre ++ p :: post
    ∧ viewpoint p = nearest
    ∧ distance_of self scan nearest goal = Ok o
    ∧ Forall (goal_distance self scan goal Qclt o) pre
    ∧ Forall (goal_distance self scan goal Qcle o) post.
Proof.
  unfold _get_nearest. unfold_result.
  destruct (index path 0) as [p0|] eqn:Hp0; [|done].
  destruct (distance_of self scan (viewpoint p0) goal) as [d0|] eqn:Hd0; [|done].
  destruct (nearest_loop _ _ _ _ _ _) as [[id' d']|] eqn:Hloop; [|done].
  intros [= <-]. simpl.
  apply nearest_loop_first in Hloop
    as [[[= -> ->] Hall]|(pre & p' & post & Hpath & Hp & Hd' & _ & Hpre & Hpost)].
  - apply index_0_Ok in Hp0. destruct path as [|p path]; simplify_eq/=.
    exists [], p0, path, d0. split_and!; try done.
    by apply Forall_cons in Hall as [_ Hall].
  - exists pre, p', post, d'. by split_and!.
Qed.


Section Failures.
Variable self : Evaluation.

Lemma distance_of_Raise (scan a b : string) (e : exn) :
  distance_of self scan a b = Raise e → e = KeyError.
Proof.
  unfold distance_of, getitem. unfold_result.
  repeat case_match; naive_solver.
Qed.

Lemma not_reads_goal_distance (scan goal : string) (p : traj_point) :
  ¬ reads_goal_distance self scan goal p →
  distance_of self scan (viewpoint p) goal = Raise KeyError.
Proof.
  intros Hno. destruct (distance_of _ _ _ _) as [d|e] eqn:Hd.
  - destruct Hno. by exists d.
  - by rewrite (distance_of_Raise _ _ _ _ Hd).
Qed.

Lemma nearest_loop_KeyError (scan goal : string) (items : list traj_point) :
  ¬ Forall (reads_goal_distance self scan goal) items →
  ∀ near_id near_d,
    nearest_loop self scan goal items near_id near_d = Raise KeyError.
Proof.
  induction items as [|q items IH]; intros Hno near_id near_d; simpl.
  - destruct Hno. constructor.
  - unfold_result.
    destruct (distance_of self scan (viewpoint q) goal) as [d|e] eqn:Hd.
    + assert (¬ Forall (reads_goal_distance self scan goal) items) as Hrest.
      { intros Hall. apply Hno. constructor; [by exists d|done]. }
      destruct (decide _); by apply IH.
    + by rewrite (distance_of_Raise _ _ _ _ Hd).
Qed.

Lemma get_nearest_KeyError (scan goal : string) (path : list traj_point) :
  ¬ Forall (reads_goal_distance self scan goal) path →
  _get_nearest self scan goal path = Raise KeyError.
Proof.
  intros Hno. unfold _get_nearest. unfold_result.
  destruct path as [|p0 path]; [destruct Hno; constructor|].
  change (index (p0 :: path) 0) with (Ok p0). cbv beta iota.
  destruct (distance_of self scan (viewpoint p0) goal) as [d|e] eqn:Hd.
  - by rewrite nearest_loop_KeyError.
  - by rewrite (distance_of_Raise _ _ _ _ Hd).
Qed.

End Failures.

(** X2.  Calls of [_score_item] that fail before anything is appended.
    An id whose text before the underscore is not an integer raises
    [ValueError]; an id of no ground-truth item raises [KeyError]; an
    empty trajectory raises [IndexError]; and a trajectory that starts at
    the right viewpoint but visits a viewpoint without a distance to the
    goal in the table raises [KeyError].  In each case the score lists are
    left as they were. *)
Theorem score_item_fails_untouched (self : Evaluation) (id : string)
    (st : scores) :
  (int_of_str (split_underscore_0 id) = Raise ValueError →
   ∀ path, _score_item self id path st = (st, Raise ValueError))
  ∧ (∀ key, int_of_str (split_underscore_0 id) = Ok key →
       gt self !! key = None →
       ∀ path, _score_item self id path st = (st, Raise KeyError))
  ∧ (∀ key g, int_of_str (split_underscore_0 id) = Ok key →
       gt self !! key = Some g →
       _score_item self id [] st = (st, Raise IndexError))
  ∧ (∀ key g start goal p0 rest,
       int_of_str (split_underscore_0 id) = Ok key →
       gt self !! key = Some g →
       head (EvalPy.path g) = Some start →
       last (EvalPy.path g) = Some goal →
       (2 ≤ length (EvalPy.path g))%nat →
       viewpoint p0 = start →
       ¬ Forall (reads_goal_distance self (scan g) goal) (p0 :: rest) →
       _score_item self id (p0 :: rest) st = (st, Raise KeyError)).
Proof.
  split_and!.
  - intros Hkey path. unfold _score_item. by run_with Hkey.
  - intros key Hkey Hg path. unfold _score_item. run_with Hkey.
    unfold getitem. by rewrite Hg.
  - intros key g Hkey Hg. unfold _score_item. run_with Hkey.
    run_with (proj2 (getitem_Ok _ _ _) Hg).
    run_step. unfold index at 1. destruct (EvalPy.path g !! 0%nat); [|done].
    by run_step.
  - intros key g start goal p0 rest Hkey Hg Hstart Hgoal Hlen Hp0 Hno.
    unfold _score_item. run_with Hkey.
    run_with (proj2 (getitem_Ok _ _ _) Hg).
    run_with (proj2 (index_0_Ok _ _) Hstart).
    run_step. change (index (p0 :: rest) 0) with (Ok p0). cbv beta iota.
    run_step. rewrite bool_decide_eq_true_2 by done.
    change (assert true start_message) with (Ok tt). cbv beta iota.
    run_with (proj2 (index_last_Ok _ _) Hgoal).
    destruct (EvalPy.path g) as [|v0 [|v1 vs]] eqn:Hpath; [simpl in Hlen; lia..|].
    run_step. change (index (v0 :: v1 :: vs) 1) with (Ok v1). cbv beta iota.
    destruct (point_counts _ _) as [cnt mt].
    run_step.
    destruct (index_last (p0 :: rest)) as [final|] eqn:Hfinal.
    + cbv beta iota. run_step. by rewrite get_nearest_KeyError.
    + unfold index_last in Hfinal. by rewrite last_cons in Hfinal; destruct (last rest).
Qed.

Lemma Qcdiv_between_0_1 (a m : Qc) :
  (0 ≤ a)%Qc → (a ≤ m)%Qc → (0 < m)%Qc → (0 ≤ a / m)%Qc ∧ (a / m ≤ 1)%Qc.
Proof.
  intros Ha Ham Hm.
  assert (a / m * m = a)%Qc as Hcancel.
  { rewrite Qcmult_comm. apply Qcmult_div_r. intros ->.
    by apply (Qclt_not_le _ _ Hm). }
  split; apply (Qcmult_lt_0_le_reg_r _ _ m Hm); rewrite Hcancel.
  - by rewrite Qcmult_0_l.
  - by rewrite Qcmult_1_l.
Qed.

(** X3.  The success-weighted path length is a value between 0 and 1.
    On a table without negative distances, whenever [_score_item] returns
    the value it appended to [success_path_length] is at least 0 and at
    most 1. *)
Theorem success_path_length_bounded (self : Evaluation) (id : string)
    (path : list traj_point) (st st' : scores) (r : nat * nat) :
  (∀ scan a b x, distance_of self scan a b = Ok x → (0 ≤ x)%Qc) →
  _score_item self id path st = (st', Ok r) →
  ∃ v, success_path_length st' = success_path_length st ++ [v]
       ∧ (0 ≤ v)%Qc ∧ (v ≤ 1)%Qc.
Proof.
  intros Hnn Hrun.
  apply score_item_Ok_inv in Hrun
    as (key & g & start & p0 & goal & final & nearest & nav & oracle & len
        & d & v & _ & _ & _ & _ & _ & _ & _ & _ & _ & _ & _ & _ & Hd & Hv & _
        & ->).
  exists v. split; [done|]. simpl.
  destruct (decide (splits self = ["test"])) as [Htest|Htest].
  - subst v. split; [apply Qcle_refl|done].
  - destruct Hv as [Hnz ->]. apply Hnn in Hd.
    assert (d ≤ py_max d len)%Qc as Hmax.
    { unfold py_max. case_decide; [by apply Qclt_le_weak|apply Qcle_refl]. }
    assert (0 < py_max d len)%Qc as Hpos.
    { apply Qcle_lt_or_eq in Hmax as [?|Heq].
      - by eapply Qcle_lt_trans.
      - apply Qcle_lt_or_eq in Hd as [?|<-]; [by rewrite <-Heq|].
        by rewrite <-Heq in Hnz. }
    unfold spl_formula, bool_to_Qc.
    case_bool_decide.
    + rewrite Qcmult_1_l. by apply Qcdiv_between_0_1.
    + rewrite Qcmult_0_l. unfold Qcdiv. rewrite Qcmult_0_l.
      split; [apply Qcle_refl|done].
Qed.


Section Aggregate.
Variable self : Evaluation.

(** What holds of the score lists and the two counters before the loop of
    [score] and is kept by every entry that is scored holds when the loop
    has ended. *)
Lemma score_loop_invariant (Q : submission_item → Prop)
    (P : scores → nat → nat → Prop) :
  (∀ item st st' c cnt mt,
      Q item → P st cnt mt →
      _score_item self (instr_id item) (trajectory item) st = (st', Ok c) →
      P st' (cnt + c.1)%nat (mt + c.2)%nat) →
  ∀ items ids cnt mt st st' ids' cnt' mt',
    Forall Q items → P st cnt mt →
    score_loop self items ids cnt mt st = (st', Ok (ids', cnt', mt')) →
    P st' cnt' mt'.
Proof.
  intros Hstep. induction items as [|item items IH];
    intros ids cnt mt st st' ids' cnt' mt' Hall HP; simpl score_loop.
  - by intros [= <- <- <- <-].
  - apply Forall_cons in Hall as [HQ Hall]. case_decide.
    + unfold bind at 1.
      destruct (_score_item self (instr_id item) (trajectory item) st)
        as [st1 [c|e]] eqn:Hitem; [|done].
      apply IH; [done|]. by eapply Hstep.
    + by apply IH.
Qed.

Lemma point_counts_single (gt_path : list string) (path : list traj_point) :
  (length path ≤ 1)%nat → point_counts gt_path path = (0, 0)%nat.
Proof.
  intros Hlen. unfold point_counts.
  by replace (length path - 1)%nat with 0%nat by lia.
Qed.

Lemma score_item_oracle_le_nav (id : string) (path : list traj_point)
    (st st' : scores) (r : nat * nat) :
  _score_item self id path st = (st', Ok r) →
  ∃ nav oracle,
    nav_errors st' = nav_errors st ++ [nav]
    ∧ oracle_errors st' = oracle_errors st ++ [oracle]
    ∧ (oracle ≤ nav)%Qc.
Proof.
  intros Hrun.
  apply score_item_Ok_inv in Hrun
    as (key & g & start & p0 & goal & final & nearest & nav & oracle & len
        & d & v & _ & _ & _ & _ & _ & _ & _ & Hlast & Hnear & Hnav & Horacle
        & _ & _ & _ & _ & ->).
  exists nav, oracle. split_and!; [done..|].
  apply get_nearest_spec in Hnear as (_ & o & Ho & Hall).
  rewrite Forall_forall in Hall.
  destruct (Hall final) as (nav' & Hnav' & Hle).
  { rewrite last_Some in Hlast. destruct Hlast as [l' ->].
    apply elem_of_app. right. apply list_elem_of_here. }
  congruence.
Qed.

Lemma count_below_mono (margin : Qc) (lo hi : list Qc) :
  Forall2 Qcle lo hi → (count_below margin hi ≤ count_below margin lo)%nat.
Proof.
  unfold count_below. induction 1 as [|x y lo hi Hxy _ IH]; [done|].
  rewrite !filter_cons. repeat case_decide; simpl; try lia.
  destruct H0. by eapply Qcle_lt_trans.
Qed.

Lemma count_below_le (margin : Qc) (l : list Qc) :
  (count_below margin l ≤ length l)%nat.
Proof. apply length_filter. Qed.

Lemma Qc_of_nat_le (a b : nat) : (a ≤ b)%nat → (Qc_of_nat a ≤ Qc_of_nat b)%Qc.
Proof.
  intros Hab. unfold Qc_of_nat, Qc_of_Z, Qcle. cbn [this Q2Qc].
  rewrite <-Zle_Qle. lia.
Qed.

Lemma Qc_of_nat_pos (n : nat) : n ≠ 0%nat → (0 < Qc_of_nat n)%Qc.
Proof.
  intros Hn. unfold Qc_of_nat, Qc_of_Z, Qclt. cbn [this Q2Qc].
  change (Qred 0) with (inject_Z 0). rewrite <-Zlt_Qlt. lia.
Qed.

Lemma Qc_of_nat_0 (n : nat) : Qc_of_nat n = 0%Qc → n = 0%nat.
Proof.
  intros Hn. destruct (decide (n = 0%nat)) as [|Hnz]; [done|].
  apply Qc_of_nat_pos in Hnz. rewrite Hn in Hnz.
  by apply Qclt_not_le in Hnz; destruct Hnz.
Qed.

Lemma Qcdiv_le_mono (a b m : Qc) :
  (a ≤ b)%Qc → (0 < m)%Qc → (a / m ≤ b / m)%Qc.
Proof.
  intros Hab Hm.
  assert (∀ x, x / m * m = x)%Qc as Hcancel.
  { intros x. rewrite Qcmult_comm. apply Qcmult_div_r. intros ->.
    by apply (Qclt_not_le _ _ Hm). }
  apply (Qcmult_lt_0_le_reg_r _ _ m Hm). by rewrite !Hcancel.
Qed.

(** How [score] ends once the loop has ended, with the summary. *)
Lemma score_Ok_summary (output_file : string) (items : list submission_item)
    (sm : score_summary) (sc : scores) :
  score self output_file items = Ok (sm, sc) →
  ∃ ids cnt mt,
    score_loop self items (instr_ids self) 0 0 empty_scores
      = (sc, Ok (ids, cnt, mt))
    ∧ cnt ≠ 0%nat
    ∧ length (nav_errors sc) ≠ 0%nat
    ∧ length (oracle_errors sc) ≠ 0%nat
    ∧ success_rate sm
      = (Qc_of_nat (count_below (error_margin self) (nav_errors sc))
         / Qc_of_nat (length (nav_errors sc)))%Qc
    ∧ oracle_rate sm
      = (Qc_of_nat (count_below (error_margin self) (oracle_errors sc))
         / Qc_of_nat (length (oracle_errors sc)))%Qc.
Proof.
  unfold score.
  destruct (score_loop self items (instr_ids self) 0 0 empty_scores)
    as [sc' [[[ids cnt] mt]|e]] eqn:Hloop; [|done].
  unfold assert, truediv. unfold_result.
  case_bool_decide as Hids; [|done]. case_bool_decide as Hlen; [|done].
  case_decide as Hn; [done|]. case_decide as Ho; [done|].
  case_decide as Hc; [done|].
  intros [= <- <-]. exists ids, cnt, mt. simpl.
  split_and!; try done; intros Hz; [apply Hc|apply Hn|apply Ho];
    rewrite Hz; by apply Qc_is_canon.
Qed.

End Aggregate.

(** X4.  The rates of the summary.  When [score] returns, the success
    rate is at most the oracle success rate, and both lie between 0 and
    1. *)
Theorem success_rate_le_oracle_rate (self : Evaluation) (output_file : string)
    (items : list submission_item) (sm : score_summary) (sc : scores) :
  score self output_file items = Ok (sm, sc) →
  (0 ≤ success_rate sm)%Qc
  ∧ (success_rate sm ≤ oracle_rate sm)%Qc
  ∧ (oracle_rate sm ≤ 1)%Qc.
Proof.
  intros Hrun.
  apply score_Ok_summary in Hrun
    as (ids & cnt & mt & Hloop & _ & Hnav & Horacle & -> & ->).
  assert (Forall2 Qcle (oracle_errors sc) (nav_errors sc)) as Hpairs.
  { apply (score_loop_invariant self (λ _, True)
             (λ st _ _, Forall2 Qcle (oracle_errors st) (nav_errors st)))
      in Hloop; [done| | |by constructor].
    - intros item st st' c cnt0 mt0 _ HP Hitem.
      apply score_item_oracle_le_nav in Hitem
        as (nav & oracle & -> & -> & Hle).
      apply Forall2_app; [done|]. by repeat constructor.
    - by apply Forall_forall. }
  assert (length (oracle_errors sc) = length (nav_errors sc)) as Hsame
    by by apply Forall2_length in Hpairs.
  rewrite Hsame.
  pose proof (Qc_of_nat_pos _ Hnav) as Hpos.
  split_and!.
  - apply Qcdiv_between_0_1; [|apply Qc_of_nat_le, count_below_le|done].
    apply (Qc_of_nat_le 0), Nat.le_0_l.
  - apply Qcdiv_le_mono; [|done]. by apply Qc_of_nat_le, count_below_mono.
  - apply Qcdiv_between_0_1; [|apply Qc_of_nat_le|done].
    + apply (Qc_of_nat_le 0), Nat.le_0_l.
    + rewrite <-Hsame. apply count_below_le.
Qed.


Section NoStep.
Variable self : Evaluation.

(** A file whose trajectories all stop where they start leaves the step
    counter of [score] at zero. *)
Lemma score_loop_no_step (items : list submission_item)
    (sc : scores) (ids : gset string) (cnt mt : nat) :
  Forall (λ item, length (trajectory item) ≤ 1)%nat items →
  score_loop self items (instr_ids self) 0 0 empty_scores
    = (sc, Ok (ids, cnt, mt)) →
  cnt = 0%nat.
Proof.
  intros Hall Hloop.
  apply (score_loop_invariant self
           (λ item, length (trajectory item) ≤ 1)%nat
           (λ _ cnt _, cnt = 0%nat)) in Hloop; [done| |done..].
  intros item st st' c cnt0 mt0 Hlen -> Hitem.
  apply score_item_Ok_inv in Hitem
    as (key & g & start & p0 & goal & final & nearest & nav & oracle & len
        & d & v & _ & _ & _ & _ & _ & _ & _ & _ & _ & _ & _ & _ & _ & _ & ->
        & _).
  by rewrite point_counts_single.
Qed.

Lemma score_zero_steps (output_file : string) (items : list submission_item)
    (sc : scores) (ids : gset string) (mt : nat) :
  score_loop self items (instr_ids self) 0 0 empty_scores
    = (sc, Ok (ids, 0%nat, mt)) →
  size ids = 0%nat →
  score self output_file items = Raise ZeroDivisionError.
Proof.
  intros Hloop Hids. unfold score. rewrite Hloop.
  destruct (score_loop_Ok _ _ _ _ _ _ _ _ _ _ 0%nat Hloop lengths_are_empty)
    as [_ (Hnav & Horacle & _)].
  rewrite Hids, Nat.sub_0_r in Hnav, Horacle. simpl in Hnav, Horacle.
  rewrite bool_decide_eq_true_2 by done.
  rewrite bool_decide_eq_true_2 by done.
  unfold assert, truediv. unfold_result. rewrite Hnav, Horacle.
  case_decide; [done|].
  case_decide as Hz; [done|]. destruct Hz. by apply Qc_is_canon.
Qed.

End NoStep.

(** X5.  [score] needs a step to report on.  Its last statement divides
    the number of matched steps by the number of candidate steps: a
    summary is returned only if some entry of the file has a trajectory of
    at least two points; if every trajectory is a single point, a run that
    got through the loop and found every expected id raises
    [ZeroDivisionError]; so does every run of an evaluator without
    expected ids. *)
Theorem score_needs_a_step (self : Evaluation) (output_file : string)
    (items : list submission_item) :
  (∀ sm sc, score self output_file items = Ok (sm, sc) →
            Exists (λ item, 2 ≤ length (trajectory item))%nat items)
  ∧ (∀ sc ids cnt mt,
        score_loop self items (instr_ids self) 0 0 empty_scores
          = (sc, Ok (ids, cnt, mt)) →
        size ids = 0%nat →
        Forall (λ item, length (trajectory item) ≤ 1)%nat items →
        score self output_file items = Raise ZeroDivisionError)
  ∧ (instr_ids self = ∅ →
     score self output_file items = Raise ZeroDivisionError).
Proof.
  split_and!.
  - intros sm sc Hrun.
    destruct (Forall_Exists_dec (λ item, length (trajectory item) ≤ 1)%nat
                (λ item, 2 ≤ length (trajectory item))%nat
                (λ item, le_gt_dec (length (trajectory item)) 1) items)
      as [Hall|Hex]; [|done].
    apply score_Ok_summary in Hrun as (ids & cnt & mt & Hloop & Hcnt & _).
    by apply score_loop_no_step in Hloop.
  - intros sc ids cnt mt Hloop Hids Hall.
    pose proof (score_loop_no_step self _ _ _ _ _ Hall Hloop) as ->.
    by eapply score_zero_steps.
  - intros Hempty.
    assert (∀ cnt mt st, score_loop self items ∅ cnt mt st
                         = (st, Ok (∅, cnt, mt))) as Hskip.
    { induction items as [|item rest IH]; intros cnt mt st; simpl; [done|].
      rewrite decide_False by set_solver. apply IH. }
    eapply score_zero_steps; [rewrite Hempty; apply Hskip|done].
Qed.

End EvaluatorFacts.

(** ** Instruction ids *)

Module IdFacts.
Import EvalPy EvalNotions.
Local Open Scope list_scope.

Lemma digit_of_pretty_N_char (x : N) :
  (x < 10)%N → digit_of (pretty_N_char x) = Some (Z.of_N x).
Proof.
  intros Hx.
  assert (x = 0 ∨ x = 1 ∨ x = 2 ∨ x = 3 ∨ x = 4 ∨ x = 5 ∨ x = 6 ∨ x = 7
          ∨ x = 8 ∨ x = 9)%N as Hcases by lia.
  repeat (destruct Hcases as [->|Hcases]; [reflexivity|]). by subst.
Qed.

(** Reading back the digits [pretty] wrote in front of [s]. *)
Lemma int_digits_pretty_N_go (x : N) :
  ∀ s, (0 < x)%N →
    int_digits (pretty_N_go x s) 0 false = int_digits s (Z.of_N x) true
    ∧ ∃ c rest, pretty_N_go x s = String c rest ∧ is_Some (digit_of c).
Proof.
  induction (N.lt_wf_0 x) as [x _ IH]. intros s Hx.
  rewrite pretty_N_go_step by done.
  pose proof (digit_of_pretty_N_char (x `mod` 10)%N) as Hdigit.
  destruct (decide (x `div` 10 = 0)%N) as [Hz|Hnz].
  - rewrite Hz, pretty_N_go_0. simpl. rewrite Hdigit by (apply N.mod_lt; lia).
    split.
    + f_equal. pose proof (N.Div0.div_mod x 10) as H. rewrite Hz in H. lia.
    + eexists _, _. split; [done|]. rewrite Hdigit by (apply N.mod_lt; lia). done.
  - destruct (IH (x `div` 10)%N) with (s := String (pretty_N_char (x `mod` 10)) s)
      as [Hread Hhead].
    + apply N.div_lt; lia.
    + by apply N.neq_0_lt_0.
    + split; [|done]. rewrite Hread. simpl.
      rewrite Hdigit by (apply N.mod_lt; lia).
      f_equal. pose proof (N.Div0.div_mod x 10). lia.
Qed.

Lemma all_chars_pretty_N_go (P : ascii → Prop) (x : N) :
  (∀ d, P (pretty_N_char d)) →
  ∀ s, all_chars P s → all_chars P (pretty_N_go x s).
Proof.
  intros Hdigit. induction (N.lt_wf_0 x) as [x _ IH]. intros s Hs.
  destruct (decide (0 < x)%N) as [Hx|Hx].
  - rewrite pretty_N_go_step by done. apply IH; [by apply N.div_lt|].
    by split.
  - replace x with 0%N by lia. by rewrite pretty_N_go_0.
Qed.

Lemma all_chars_pretty_N (P : ascii → Prop) (x : N) :
  (∀ d, P (pretty_N_char d)) → all_chars P (pretty x).
Proof.
  intros Hdigit. unfold pretty, pretty_N. case_decide.
  - split; [apply (Hdigit 0%N)|done].
  - by apply all_chars_pretty_N_go.
Qed.

Lemma pretty_N_char_no_underscore (d : N) : pretty_N_char d ≠ "_"%char.
Proof. unfold pretty_N_char. by repeat case_match. Qed.

Lemma pretty_Z_no_underscore (p : Z) : all_chars (λ c, c ≠ "_"%char) (pretty p).
Proof.
  destruct p as [|x|x]; unfold pretty, pretty_Z.
  - by split.
  - apply all_chars_pretty_N, pretty_N_char_no_underscore.
  - split; [done|]. apply all_chars_pretty_N, pretty_N_char_no_underscore.
Qed.

Lemma split_underscore_0_app (s t : string) :
  all_chars (λ c, c ≠ "_"%char) s →
  split_underscore_0 (s +:+ "_" +:+ t) = s.
Proof.
  induction s as [|c s IH]; simpl; [done|]. intros [Hc Hs].
  destruct (Ascii.eqb_spec c "_"); [done|]. by rewrite IH.
Qed.

Lemma int_of_str_pretty_pos (x : positive) :
  int_of_str (pretty (N.pos x)) = Ok (Z.pos x)
  ∧ int_digits (pretty (N.pos x)) 0 false = Some (Z.pos x).
Proof.
  unfold pretty, pretty_N. rewrite decide_False by done.
  destruct (int_digits_pretty_N_go (N.pos x) "") as [Hread (c & rest & Hgo & Hc)];
    [done|].
  simpl in Hread. split; [|done].
  unfold int_of_str. rewrite Hgo in *.
  destruct c as [[] [] [] [] [] [] [] []];
    try (by destruct Hc as [d Hd]; vm_compute in Hd);
    lazy -[int_digits]; by rewrite Hread.
Qed.

Lemma int_of_str_pretty (p : Z) : int_of_str (pretty p) = Ok p.
Proof.
  destruct p as [|x|x]; unfold pretty, pretty_Z.
  - reflexivity.
  - apply int_of_str_pretty_pos.
  - destruct (int_of_str_pretty_pos x) as [_ Hread].
    unfold int_of_str. change ("-" +:+ pretty x) with (String "-" (pretty x)).
    simpl. unfold pretty, pretty_positive. by rewrite Hread.
Qed.

Lemma int_of_str_format (p : Z) (i : nat) :
  int_of_str (split_underscore_0 (format_instr_id p i)) = Ok p.
Proof.
  unfold format_instr_id.
  rewrite split_underscore_0_app by apply pretty_Z_no_underscore.
  apply int_of_str_pretty.
Qed.

Lemma format_instr_id_inj (p q : Z) (i j : nat) :
  format_instr_id p i = format_instr_id q j → p = q ∧ i = j.
Proof.
  intros Heq.
  assert (p = q) as ->.
  { pose proof (int_of_str_format p i) as Hp.
    rewrite Heq, int_of_str_format in Hp. congruence. }
  split; [done|]. unfold format_instr_id in Heq.
  do 2 apply String.app_inj in Heq. by apply (inj pretty) in Heq.
Qed.

(** X6.  Instruction ids lead back to their path.  The integer that
    [_score_item] reads from the id ['%d_%d' % (path_id, i)] is [path_id],
    for negative ids too, and two ids are equal only if both the path id
    and the index are. *)
Theorem instr_id_round_trip :
  (∀ (p : Z) (i : nat),
      int_of_str (split_underscore_0 (format_instr_id p i)) = Ok p)
  ∧ (∀ (p q : Z) (i j : nat),
        format_instr_id p i = format_instr_id q j → p = q ∧ i = j).
Proof. split; [apply int_of_str_format|apply format_instr_id_inj]. Qed.

End IdFacts.

(** ** [Evaluation.__init__] *)

Module InitFacts.
Import EvalPy Nx.
Local Open Scope list_scope.

Lemma load_datasets_Ok (files : gmap string (list gt_item))
    (splits : list string) (items : list gt_item) :
  load_datasets files splits = Ok items →
  Forall (λ split, is_Some (files !! split)) splits
  ∧ items = splits ≫= λ split, default [] (files !! split).
Proof.
  revert items. induction splits as [|split splits IH]; intros items; simpl.
  - by intros [= <-].
  - destruct (files !! split) as [data|] eqn:Hsplit; [|done]. unfold_result.
    destruct (load_datasets files splits) as [rest|]; [|done].
    intros [= <-]. destruct (IH rest eq_refl) as [Hall ->].
    split; [|done]. constructor; [|done]. by rewrite Hsplit.
Qed.

Lemma load_datasets_missing (files : gmap string (list gt_item))
    (splits : list string) :
  ¬ Forall (λ split, is_Some (files !! split)) splits →
  load_datasets files splits = Raise FileNotFoundError.
Proof.
  induction splits as [|split splits IH]; intros Hno; simpl.
  - destruct Hno. constructor.
  - destruct (files !! split) as [data|] eqn:Hsplit; [|done]. unfold_result.
    rewrite IH; [done|]. intros Hall. apply Hno. constructor; [|done].
    by rewrite Hsplit.
Qed.

(** The dictionary [self.gt] after the loop: the last item of each path
    id. *)
Lemma gt_lookup (items : list gt_item) (p : Z) :
  ∀ m0 : gmap Z gt_item,
    foldl (λ m item, <[path_id item := item]> m) m0 items !! p
    = match last (filter (λ item, path_id item = p) items) with
      | Some g => Some g
      | None => m0 !! p
      end.
Proof.
  induction items as [|item items IH]; intros m0; simpl; [done|].
  rewrite IH, filter_cons. case_decide as Hp.
  - rewrite last_cons. destruct (last (filter _ items)); [done|].
    subst p. by rewrite lookup_insert_eq.
  - destruct (last (filter _ items)); [done|].
    by rewrite lookup_insert_ne.
Qed.

Section Scans.
Context {T : Type} `{Num.ops T}.

Lemma load_scans_Ok (files : gmap string (list (Utils.conn_record T)))
    (scans : list string) (graphs : gmap string (Graph T)) :
  Utils.load_scans files scans = Ok graphs →
  ∀ scan, (is_Some (graphs !! scan) ↔ scan ∈ scans)
          ∧ ∀ g, graphs !! scan = Some g →
                 ∃ data, files !! scan = Some data
                         ∧ Utils.load_nav_graph data = Ok g.
Proof.
  revert graphs. induction scans as [|s scans IH]; intros graphs; simpl.
  - intros [= <-] scan. rewrite lookup_empty. split; [|done].
    split; [by intros [? ?]|by intros ?%elem_of_nil].
  - destruct (files !! s) as [data|] eqn:Hs; [|done]. unfold_result.
    destruct (Utils.load_nav_graph data) as [g|] eqn:Hg; [|done].
    destruct (Utils.load_scans files scans) as [rest|]; [|done].
    intros [= <-] scan. destruct (IH rest eq_refl scan) as [Hdom Hload].
    destruct (decide (s = scan)) as [->|Hne].
    + rewrite lookup_insert_eq. split.
      * split; [intros _; apply list_elem_of_here|eauto].
      * intros g' [= <-]. eauto.
    + rewrite lookup_insert_ne by done. split; [|done].
      rewrite Hdom, elem_of_cons. split; [by right|by intros [?|?]].
Qed.

End Scans.

Section Distances.
Variable root : Qc → Qc.

Lemma distances_loop_Ok (graphs : list (string * Graph Qc))
    (distances : gmap string (gmap string (gmap string Qc))) :
  NoDup graphs.*1 →
  distances_loop root graphs = Some (Ok distances) →
  ∀ scan, (is_Some (distances !! scan) ↔ scan ∈ graphs.*1)
          ∧ ∀ t, distances !! scan = Some t →
                 ∃ g, (scan, g) ∈ graphs
                      ∧ all_pairs_dijkstra_path_length (H := init_ops root) g
                        = Some (Ok t).
Proof.
  revert distances. induction graphs as [|[s g] graphs IH];
    intros distances Hnodup; simpl.
  - intros [= <-] scan. rewrite lookup_empty. split; [|done].
    split; [by intros [? ?]|by intros ?%elem_of_nil].
  - apply NoDup_cons in Hnodup as [Hs Hnodup].
    destruct (all_pairs_dijkstra_path_length g) as [[t|]|] eqn:Ht; [|done..].
    destruct (distances_loop root graphs) as [[rest|]|]; [|done..].
    intros [= <-] scan. destruct (IH rest Hnodup eq_refl scan) as [Hdom Hrun].
    destruct (decide (s = scan)) as [->|Hne].
    + rewrite lookup_insert_eq. split.
      * split; [intros _; apply list_elem_of_here|eauto].
      * intros t' [= <-]. exists g. split; [apply list_elem_of_here|done].
    + rewrite lookup_insert_ne by done. split.
      * rewrite Hdom, elem_of_cons. split; [by right|by intros [?|?]].
      * intros t' Ht'. destruct (Hrun t' Ht') as (g' & Hin & Hg').
        exists g'. split; [by apply list_elem_of_further|done].
Qed.

(** Everything a successful run of [__init__] went through. *)
Lemma init_Ok_inv (datasets : gmap string (list gt_item))
    (connectivity : gmap string (list (Utils.conn_record Qc)))
    (splits : list string) (e : Evaluation) :
  init root datasets connectivity splits = Some (Ok e) →
  ∃ items,
    load_datasets datasets splits = Ok items
    ∧ error_margin e = Qc_of_Z 3
    ∧ EvalPy.splits e = splits
    ∧ gt e = foldl (λ m item, <[path_id item := item]> m) ∅ items
    ∧ scans e = list_to_set (scan <$> items)
    ∧ instr_ids e
      = list_to_set
          (items ≫= λ item, format_instr_id (path_id item) <$> [0; 1; 2]%nat)
    ∧ Utils.load_nav_graphs (H := init_ops root) connectivity (scans e)
      = Ok (graphs e)
    ∧ distances_loop root (map_to_list (graphs e)) = Some (Ok (distances e)).
Proof.
  unfold init.
  destruct (load_datasets datasets splits) as [items|] eqn:Hitems; [|done].
  destruct (Utils.load_nav_graphs _ _) as [graphs|] eqn:Hgraphs; [|done].
  destruct (distances_loop root (map_to_list graphs)) as [[distances|]|] eqn:Hd;
    [|done..].
  intros [= <-]. exists items. by split_and!.
Qed.

End Distances.


Section Built.
Variable root : Qc → Qc.
Variable datasets : gmap string (list gt_item).
Variable connectivity : gmap string (list (Utils.conn_record Qc)).
Variable splits : list string.
Variable e : Evaluation.
Hypothesis Hinit : init root datasets connectivity splits = Some (Ok e).

Lemma built_gt_lookup (items : list gt_item) (p : Z) :
  load_datasets datasets splits = Ok items →
  gt e !! p = last (filter (λ item, path_id item = p) items).
Proof.
  intros Hitems.
  destruct (init_Ok_inv _ _ _ _ _ Hinit) as (items' & Hitems' & _ & _ & -> & _).
  rewrite Hitems in Hitems'. injection Hitems' as <-.
  rewrite gt_lookup, lookup_empty. by destruct (last _).
Qed.

Lemma built_gt_path_id (p : Z) (g : gt_item) :
  gt e !! p = Some g → path_id g = p.
Proof.
  destruct (init_Ok_inv _ _ _ _ _ Hinit) as (items & Hitems & _).
  rewrite (built_gt_lookup items) by done. intros Hlast.
  apply last_Some_elem_of, list_elem_of_filter in Hlast. tauto.
Qed.

Lemma built_gt_is_Some (items : list gt_item) :
  load_datasets datasets splits = Ok items →
  ∀ p, is_Some (gt e !! p) ↔ ∃ item, item ∈ items ∧ path_id item = p.
Proof.
  intros Hitems p. rewrite (built_gt_lookup items) by done.
  rewrite last_is_Some. split.
  - intros Hne. destruct (filter _ items) as [|item rest] eqn:Hf; [done|].
    assert (item ∈ filter (λ item, path_id item = p) items) as Hin
      by (rewrite Hf; apply list_elem_of_here).
    apply list_elem_of_filter in Hin. exists item. tauto.
  - intros (item & Hin & Hp) Hnil.
    assert (item ∈ filter (λ item, path_id item = p) items) as Hin'
      by by apply list_elem_of_filter.
    rewrite Hnil in Hin'. by apply elem_of_nil in Hin'.
Qed.

Lemma built_instr_ids (id : string) :
  id ∈ instr_ids e
  ↔ ∃ p i, is_Some (gt e !! p) ∧ (i < 3)%nat ∧ id = format_instr_id p i.
Proof.
  destruct (init_Ok_inv _ _ _ _ _ Hinit)
    as (items & Hitems & _ & _ & _ & _ & -> & _).
  rewrite elem_of_list_to_set, list_elem_of_bind.
  setoid_rewrite list_elem_of_fmap.
  setoid_rewrite (built_gt_is_Some items Hitems). split.
  - intros (item & (i & -> & Hi) & Hin). exists (path_id item), i.
    split; [eauto|]. split; [|done].
    rewrite !elem_of_cons, elem_of_nil in Hi.
    destruct Hi as [->|[->|[->|[]]]]; lia.
  - intros (p & i & (item & Hin & <-) & Hi & ->). exists item.
    split; [|done]. exists i. split; [done|].
    destruct i as [|[|[|i]]]; [repeat constructor..|lia].
Qed.

Lemma built_instr_ids_size : size (instr_ids e) = (3 * size (gt e))%nat.
Proof.
  set (f := λ p : Z, format_instr_id p <$> [0; 1; 2]%nat).
  assert (instr_ids e = list_to_set (elements (dom (gt e)) ≫= f)) as ->.
  { apply set_eq. intros id. rewrite built_instr_ids.
    rewrite elem_of_list_to_set, list_elem_of_bind. unfold f.
    setoid_rewrite list_elem_of_fmap. setoid_rewrite elem_of_elements.
    setoid_rewrite elem_of_dom. split.
    - intros (p & i & Hp & Hi & ->). exists p. split; [|done].
      exists i. split; [done|].
      destruct i as [|[|[|i]]]; [repeat constructor..|lia].
    - intros (p & (i & -> & Hi) & Hp). exists p, i. split_and!; [done| |done].
      rewrite !elem_of_cons, elem_of_nil in Hi.
      destruct Hi as [->|[->|[->|[]]]]; lia. }
  rewrite size_list_to_set.
  - rewrite <-(size_dom (D := gset Z) (gt e)).
    change (size (dom (gt e))) with (length (elements (dom (gt e)))).
    induction (elements (dom (gt e))) as [|p l IH]; [done|].
    csimpl. simpl in *. lia.
  - apply NoDup_bind; [| |apply NoDup_elements].
    + intros p q id _ _ (i & -> & _)%list_elem_of_fmap
        (j & Heq & _)%list_elem_of_fmap.
      by apply IdFacts.format_instr_id_inj in Heq as [-> _].
    + intros p _. unfold f. simpl.
      repeat (constructor; [rewrite ?elem_of_cons, ?elem_of_nil;
        intros Hdup; repeat destruct Hdup as [Hdup|Hdup]; try done;
        by apply IdFacts.format_instr_id_inj in Hdup as [_ ?]|]).
      constructor.
Qed.

End Built.

(** X7.  The expected ids of an evaluator that [__init__] built.  They
    are the ids ['p_0'], ['p_1'] and ['p_2'] of the keys [p] of [self.gt],
    three times as many as there are keys, and [_score_item] finds for
    each of them a ground-truth item, stored under its own path id. *)
Theorem init_instr_ids (root : Qc → Qc)
    (datasets : gmap string (list gt_item))
    (connectivity : gmap string (list (Utils.conn_record Qc)))
    (splits : list string) (e : Evaluation) :
  init root datasets connectivity splits = Some (Ok e) →
  (∀ id, id ∈ instr_ids e
         ↔ ∃ p i, is_Some (gt e !! p) ∧ (i < 3)%nat ∧ id = format_instr_id p i)
  ∧ size (instr_ids e) = (3 * size (gt e))%nat
  ∧ (∀ id, id ∈ instr_ids e →
       ∃ g, int_of_str (split_underscore_0 id) = Ok (path_id g)
            ∧ gt e !! path_id g = Some g).
Proof.
  intros Hinit. split_and!.
  - intros id. by eapply built_instr_ids.
  - by eapply built_instr_ids_size.
  - intros id Hid.
    eapply built_instr_ids in Hid as (p & i & [g Hg] & _ & ->); [|done].
    exists g. rewrite (built_gt_path_id _ _ _ _ _ Hinit p g Hg).
    split; [apply IdFacts.int_of_str_format|done].
Qed.


Section Tables.
Variable root : Qc → Qc.

Lemma distances_loop_fuel (graphs : list (string * Graph Qc)) :
  distances_loop root graphs ≠ None.
Proof.
  induction graphs as [|[s g] graphs IH]; simpl; [done|].
  pose proof (TableFacts.all_pairs_fuel_enough (H := init_ops root) g) as Hg.
  destruct (all_pairs_dijkstra_path_length g) as [[t|]|]; [|done..].
  by destruct (distances_loop root graphs) as [[d|]|].
Qed.

Lemma init_fuel (datasets : gmap string (list gt_item))
    (connectivity : gmap string (list (Utils.conn_record Qc)))
    (splits : list string) :
  init root datasets connectivity splits ≠ None.
Proof.
  unfold init. destruct (load_datasets datasets splits); [|done].
  destruct (Utils.load_nav_graphs _ _) as [graphs|]; [|done].
  pose proof (distances_loop_fuel (map_to_list graphs)) as Hd.
  by destruct (distances_loop root (map_to_list graphs)) as [[d|]|].
Qed.

(** The graph and the table an evaluator holds for a scan. *)
Lemma built_table (datasets : gmap string (list gt_item))
    (connectivity : gmap string (list (Utils.conn_record Qc)))
    (splits : list string) (e : Evaluation) :
  init root datasets connectivity splits = Some (Ok e) →
  ∀ s,
    (s ∈ scans e ↔ is_Some (graphs e !! s))
    ∧ (s ∈ scans e ↔ is_Some (distances e !! s))
    ∧ (∀ t, distances e !! s = Some t →
         ∃ data g,
           connectivity !! s = Some data
           ∧ Utils.load_nav_graph (H := init_ops root) data = Ok g
           ∧ graphs e !! s = Some g
           ∧ all_pairs_dijkstra_path_length (H := init_ops root) g
             = Some (Ok t)).
Proof.
  intros Hinit s.
  destruct (init_Ok_inv _ _ _ _ _ Hinit)
    as (items & _ & _ & _ & _ & _ & _ & Hgraphs & Hdist).
  unfold Utils.load_nav_graphs in Hgraphs.
  destruct (load_scans_Ok _ _ _ Hgraphs s) as [Hdom Hload].
  destruct (distances_loop_Ok root _ _ (NoDup_fst_map_to_list _) Hdist s)
    as [Hdom' Hrun].
  assert (s ∈ (map_to_list (graphs e)).*1 ↔ is_Some (graphs e !! s)) as Hkeys.
  { rewrite list_elem_of_fmap. split.
    - intros ([k g] & -> & Hin%elem_of_map_to_list). eauto.
    - intros [g Hg]. exists (s, g). by rewrite elem_of_map_to_list. }
  rewrite elem_of_elements in Hdom.
  split_and!.
  - by rewrite Hdom.
  - by rewrite Hdom', Hkeys, Hdom.
  - intros t Ht. destruct (Hrun t Ht) as (g & Hin%elem_of_map_to_list & Hg).
    destruct (Hload g Hin) as (data & Hdata & Hloadg). by exists data, g.
Qed.

End Tables.

(** X8.  What [__init__] reads.  The run always ends.  If a split has no
    data file it raises [FileNotFoundError].  When it returns, the items
    are those of the splits' files in order, [self.gt] holds for each path
    id the last item with that id, [self.scans] are the items' scans, and
    each of them has a connectivity file, a graph loaded from it and the
    distance table of that graph; graphs and tables exist for these scans
    only. *)
Theorem init_reads_files (root : Qc → Qc)
    (datasets : gmap string (list gt_item))
    (connectivity : gmap string (list (Utils.conn_record Qc)))
    (splits : list string) :
  init root datasets connectivity splits ≠ None
  ∧ (¬ Forall (λ split, is_Some (datasets !! split)) splits →
     init root datasets connectivity splits = Some (Raise FileNotFoundError))
  ∧ (∀ e, init root datasets connectivity splits = Some (Ok e) →
       ∃ items,
         load_datasets datasets splits = Ok items
         ∧ items = (splits ≫= λ split, default [] (datasets !! split))
         ∧ (∀ p, gt e !! p = last (filter (λ item, path_id item = p) items))
         ∧ (∀ s, s ∈ scans e ↔ ∃ item, item ∈ items ∧ scan item = s)
         ∧ (∀ s, s ∈ scans e →
              ∃ data g t,
                connectivity !! s = Some data
                ∧ Utils.load_nav_graph (H := init_ops root) data = Ok g
                ∧ graphs e !! s = Some g
                ∧ all_pairs_dijkstra_path_length (H := init_ops root) g
                  = Some (Ok t)
                ∧ distances e !! s = Some t)
         ∧ dom (graphs e) = scans e
         ∧ dom (distances e) = scans e).
Proof.
  split_and!.
  - apply init_fuel.
  - intros Hmissing. unfold init. by rewrite load_datasets_missing.
  - intros e Hinit.
    destruct (init_Ok_inv _ _ _ _ _ Hinit)
      as (items & Hitems & _ & _ & _ & Hscans & _).
    exists items. split_and!.
    + done.
    + by apply load_datasets_Ok in Hitems as [_ ->].
    + intros p. by eapply built_gt_lookup.
    + intros s. rewrite Hscans, elem_of_list_to_set, list_elem_of_fmap.
      split; intros (item & ? & ?); by exists item.
    + intros s Hs.
      destruct (built_table _ _ _ _ _ Hinit s) as (_ & Hd & Hrun).
      apply Hd in Hs as [t Ht].
      destruct (Hrun t Ht) as (data & g & ? & ? & ? & ?).
      by exists data, g, t.
    + apply set_eq. intros s. rewrite elem_of_dom.
      by destruct (built_table _ _ _ _ _ Hinit s) as (<- & _).
    + apply set_eq. intros s. rewrite elem_of_dom.
      by destruct (built_table _ _ _ _ _ Hinit s) as (_ & <- & _).
Qed.


Section Metric.
Variable root : Qc → Qc.
Hypothesis Hroot : ∀ q, (0 ≤ root q)%Qc.
Variable datasets : gmap string (list gt_item).
Variable connectivity : gmap string (list (Utils.conn_record Qc)).
Variable splits : list string.
Variable e : Evaluation.
Hypothesis Hinit : init root datasets connectivity splits = Some (Ok e).

#[local] Instance metric_ops : Num.ops Qc := init_ops root.
#[local] Instance metric_exact : Num.exact Qc := TableFacts.exact_Qc root Hroot.

Lemma distance_of_table (self : Evaluation) (scan u v : string) (y : Qc) :
  distance_of self scan u v = Ok y
  ↔ ∃ t, distances self !! scan = Some t ∧ table_at t u v = Some y.
Proof.
  unfold distance_of, getitem, table_at. unfold_result. split.
  - destruct (distances self !! scan) as [t|]; [|done]. intros Hy.
    exists t. split; [done|].
    destruct (t !! u) as [row|]; [|done]. simpl.
    by destruct (row !! v); simplify_eq.
  - intros (t & -> & Hy).
    destruct (t !! u) as [row|]; [|done]. simpl in Hy. by rewrite Hy.
Qed.

(** An entry of an evaluator's table is the weight of a lightest walk in
    the graph of the scan. *)
Lemma built_distance_shortest (scan a b : string) (x : Qc) :
  distance_of e scan a b = Ok x →
  ∃ g, graphs e !! scan = Some g
       ∧ undirected (adj g) ∧ nonnegative (adj g)
       ∧ is_node (adj g) a ∧ shortest (adj g) a b x
       ∧ ∀ u v y, distance_of e scan u v = Ok y
                  ↔ is_node (adj g) u ∧ shortest (adj g) u v y.
Proof.
  intros (t & Ht & Hx)%distance_of_table.
  destruct (built_table root _ _ _ _ Hinit scan) as (_ & _ & Hrun).
  destruct (Hrun t Ht) as (data & g & _ & Hload & Hg & Hall).
  pose proof (TableFacts.load_nav_graph_undirected data g Hload) as Hund.
  pose proof (TableFacts.load_nav_graph_nonnegative data g Hload) as Hnn.
  destruct (DijkstraFacts.all_pairs_correct g Hund Hnn) as (t' & Ht' & Hspec).
  rewrite Hall in Ht'. injection Ht' as <-.
  exists g. split; [done|]. split; [done|]. split; [done|].
  apply Hspec in Hx as [Ha Hshort]. split; [done|]. split; [done|].
  intros u v y. rewrite distance_of_table, <-Hspec. split.
  - intros (t' & Ht' & Hy). by simplify_eq.
  - intros Hy. by exists t.
Qed.

Lemma Num_le_Qcle (x y : Qc) : Num.le x y ↔ (x ≤ y)%Qc.
Proof.
  unfold Num.le. simpl. rewrite bool_decide_eq_false. split.
  - apply Qcnot_lt_le.
  - apply Qcle_not_lt.
Qed.

Lemma walk_nonneg_Qc (a : adjacency Qc) (s v : string) (x : Qc) :
  nonnegative a → walk a s v x → (0 ≤ x)%Qc.
Proof.
  intros Hnn Hwalk. apply Num_le_Qcle.
  change 0%Qc with (@Num.zero Qc metric_ops).
  by eapply DijkstraFacts.walk_nonneg.
Qed.

Lemma built_distance_metric (scan a b : string) (x : Qc) :
  distance_of e scan a b = Ok x →
  (0 ≤ x)%Qc
  ∧ distance_of e scan b a = Ok x
  ∧ distance_of e scan a a = Ok 0%Qc
  ∧ distance_of e scan b b = Ok 0%Qc
  ∧ ∀ c y z, distance_of e scan b c = Ok y → distance_of e scan a c = Ok z →
             (z ≤ x + y)%Qc.
Proof.
  intros Hx.
  destruct (built_distance_shortest _ _ _ _ Hx)
    as (g & Hg & Hund & Hnn & Ha & Hshort & Hspec).
  assert (is_node (adj g) b) as Hb
    by (destruct Hshort as [Hwalk _]; by eapply DijkstraFacts.walk_end_node).
  assert (∀ n, is_node (adj g) n → distance_of e scan n n = Ok 0%Qc) as Hdiag.
  { intros n Hn. apply Hspec. split; [done|].
    change 0%Qc with (@Num.zero Qc metric_ops).
    split; [apply walk_here|].
    intros y Hy. by eapply Num_le_Qcle, walk_nonneg_Qc. }
  split_and!.
  - destruct Hshort as [Hwalk _]. by eapply walk_nonneg_Qc.
  - apply Hspec. split; [done|]. by apply DijkstraFacts.shortest_reverse.
  - by apply Hdiag.
  - by apply Hdiag.
  - intros c y z [_ [Hbc _]]%Hspec [_ [_ Hmin]]%Hspec.
    apply Num_le_Qcle, Hmin. destruct Hshort as [Hab _].
    change (x + y)%Qc with (@Num.add Qc metric_ops x y).
    by eapply DijkstraFacts.walk_app.
Qed.

End Metric.


End InitFacts.

(** ** Trajectories on the tables [__init__] builds *)

Module WalkedFacts.
Import EvalPy EvalNotions Nx ScorerFacts InitFacts.
Local Open Scope list_scope.

Section Walked.
Variable root : Qc → Qc.
Hypothesis Hroot : ∀ q, (0 ≤ root q)%Qc.
Variable datasets : gmap string (list gt_item).
Variable connectivity : gmap string (list (Utils.conn_record Qc)).
Variable splits : list string.
Variable e : Evaluation.
Hypothesis Hinit : init root datasets connectivity splits = Some (Ok e).


End Walked.


End WalkedFacts.

(** ** The evaluator on concrete inputs, again *)

Module EvaluatorExamples.
Import EvalPy EvalNotions Nx Fixtures MoreFixtures ScorerFacts AggregatorFacts.
Import EvaluatorFacts IdFacts InitFacts WalkedFacts.
Local Open Scope list_scope.

Lemma detour_eval_built :
  init Num.sqrt_Qc detour_data triangle_files ["val_seen"]
  = Some (Ok detour_eval).
Proof.
  unfold detour_eval.
  by destruct (init Num.sqrt_Qc detour_data triangle_files ["val_seen"])
    as [[e|]|] eqn:Hinit; [|vm_compute in Hinit..].
Qed.

Lemma get_nearest_first_closest_witness :
  ∃ pre p post,
    past_c = pre ++ p :: post ∧ viewpoint p = "C"
    ∧ Forall (goal_distance detour_eval "scan" "C" Qclt 0%Qc) pre.
Proof.
  destruct (get_nearest_first_closest detour_eval "scan" "C" past_c "C")
    as (pre & p & post & o & Hpath & Hp & Ho & Hpre & _).
  - by vm_compute.
  - exists pre, p, post. split_and!; [done..|].
    assert (o = 0%Qc) as <-; [|done].
    assert (distance_of detour_eval "scan" "C" "C" = Ok 0%Qc) as H0
      by (vm_compute; f_equal; by apply Qc_is_canon).
    congruence.
Defined.

Lemma success_path_length_bounded_witness :
  ∃ v, success_path_length
         (_score_item detour_eval "7_0" along_abc empty_scores).1 = [v]
       ∧ (0 ≤ v)%Qc ∧ (v ≤ 1)%Qc.
Proof.
  destruct (_score_item detour_eval "7_0" along_abc empty_scores)
    as [st' [r|e]] eqn:Hrun; [|by vm_compute in Hrun].
  refine (success_path_length_bounded detour_eval _ _ empty_scores st' r _ Hrun).
  intros scan a b x Hx.
  by destruct (built_distance_metric Num.sqrt_Qc TableFacts.sqrt_Qc_nonneg
                 detour_data triangle_files ["val_seen"] detour_eval
                 detour_eval_built scan a b x Hx) as [? _].
Defined.

Lemma success_rate_le_oracle_rate_witness :
  ∃ sm sc, score detour_eval "out.json" complete_file = Ok (sm, sc)
           ∧ (success_rate sm ≤ oracle_rate sm)%Qc.
Proof.
  destruct (score detour_eval "out.json" complete_file) as [[sm sc]|e] eqn:Hrun;
    [|by vm_compute in Hrun].
  exists sm, sc. split; [done|].
  by destruct (success_rate_le_oracle_rate _ _ _ _ _ Hrun) as (_ & ? & _).
Defined.

Lemma score_needs_a_step_witness :
  score detour_eval "out.json" still_file = Raise ZeroDivisionError.
Proof.
  destruct (score_needs_a_step detour_eval "out.json" still_file)
    as (_ & Hstill & _).
  destruct (score_loop detour_eval still_file (instr_ids detour_eval) 0 0
              empty_scores) as [sc [[[ids cnt] mt]|e]] eqn:Hloop;
    [|by vm_compute in Hloop].
  eapply Hstill; [done| |].
  - assert (ids = ∅) as ->; [|done].
    vm_compute in Hloop. by injection Hloop as _ <- _ _.
  - repeat constructor.
Defined.

Lemma score_item_fails_untouched_witness :
  _score_item detour_eval "7_0" [] empty_scores = (empty_scores, Raise IndexError)
  ∧ _score_item detour_eval "x_0" along_abc empty_scores
    = (empty_scores, Raise ValueError)
  ∧ _score_item detour_eval "8_0" along_abc empty_scores
    = (empty_scores, Raise KeyError).
Proof.
  split_and!.
  - destruct (score_item_fails_untouched detour_eval "7_0" empty_scores)
      as (_ & _ & Hempty & _).
    by apply (Hempty 7%Z detour_item); vm_compute.
  - destruct (score_item_fails_untouched detour_eval "x_0" empty_scores)
      as (Hvalue & _).
    by apply Hvalue.
  - destruct (score_item_fails_untouched detour_eval "8_0" empty_scores)
      as (_ & Hkey & _).
    by apply (Hkey 8%Z); vm_compute.
Defined.

Lemma init_instr_ids_witness :
  size (instr_ids detour_eval) = 3%nat
  ∧ ∃ g, int_of_str (split_underscore_0 "7_1") = Ok (path_id g)
         ∧ gt detour_eval !! path_id g = Some g.
Proof.
  destruct (init_instr_ids Num.sqrt_Qc detour_data triangle_files
              ["val_seen"] detour_eval detour_eval_built)
    as (_ & Hsize & Hres).
  split.
  - rewrite Hsize. by vm_compute.
  - apply Hres. by vm_compute.
Defined.

Lemma init_reads_files_witness :
  init Num.sqrt_Qc detour_data triangle_files ["val_seen"; "test"]
  = Some (Raise FileNotFoundError).
Proof.
  destruct (init_reads_files Num.sqrt_Qc detour_data triangle_files
              ["val_seen"; "test"]) as (_ & Hmissing & _).
  apply Hmissing. intros Hall.
  apply Forall_cons in Hall as [_ Hall]. apply Forall_cons in Hall as [Htest _].
  by vm_compute in Htest; destruct Htest.
Defined.



End EvaluatorExamples.

(** ** Python text *)

Module TextFacts.
Import EvalNotions Text.
Local Open Scope list_scope.

(** *** Characters *)

Ltac each_char c := destruct c as [[] [] [] [] [] [] [] []]; vm_compute.

Lemma word_not_space (c : ascii) : is_word c = true → is_space c = false.
Proof. each_char c; congruence. Qed.

Lemma punctuation_not_space (c : ascii) :
  is_punctuation c = true → is_space c = false.
Proof. each_char c; congruence. Qed.

Lemma is_space_lower_char (c : ascii) : is_space (lower_char c) = is_space c.
Proof. by each_char c. Qed.

Lemma is_word_lower_char (c : ascii) : is_word (lower_char c) = is_word c.
Proof. by each_char c. Qed.

Lemma lower_char_idemp (c : ascii) : lower_char (lower_char c) = lower_char c.
Proof. by each_char c. Qed.

Lemma lower_char_punctuation (c : ascii) :
  is_punctuation c = true → lower_char c = c.
Proof. each_char c; congruence. Qed.


(** *** Predicates on all characters *)

Lemma all_in_spec (p : ascii → bool) (s : string) :
  all_in p s = true ↔ all_chars (λ c, p c = true) s.
Proof.
  induction s as [|c s IH]; simpl; [done|].
  by rewrite andb_true_iff, IH.
Qed.

Lemma all_chars_impl (P Q : ascii → Prop) (s : string) :
  (∀ c, P c → Q c) → all_chars P s → all_chars Q s.
Proof.
  intros HPQ. induction s as [|c s IH]; simpl; [done|].
  intros [Hc Hs]. split; [by apply HPQ|by apply IH].
Qed.

Lemma all_chars_app (P : ascii → Prop) (s t : string) :
  all_chars P (s +:+ t) ↔ all_chars P s ∧ all_chars P t.
Proof. induction s as [|c s IH]; simpl; [tauto|]. rewrite IH. tauto. Qed.

(** *** [lower] *)

Lemma lower_idemp (s : string) : lower (lower s) = lower s.
Proof.
  induction s as [|c s IH]; simpl; [done|]. by rewrite lower_char_idemp, IH.
Qed.


Lemma lower_length (s : string) : String.length (lower s) = String.length s.
Proof. induction s as [|c s IH]; simpl; [done|]. by rewrite IH. Qed.

Lemma all_chars_lower (p : ascii → bool) (s : string) :
  (∀ c, p (lower_char c) = p c) →
  all_chars (λ c, p c = true) (lower s) ↔ all_chars (λ c, p c = true) s.
Proof.
  intros Hp. induction s as [|c s IH]; simpl; [done|]. by rewrite Hp, IH.
Qed.

(** *** [strip] *)

Lemma lstrip_lower (s : string) : lstrip (lower s) = lower (lstrip s).
Proof.
  induction s as [|c s IH]; simpl; [done|].
  rewrite is_space_lower_char. by destruct (is_space c).
Qed.

Lemma rstrip_lower (s : string) : rstrip (lower s) = lower (rstrip s).
Proof.
  induction s as [|c s IH]; simpl; [done|].
  rewrite IH, is_space_lower_char.
  destruct (rstrip s); simpl; [by destruct (is_space c)|done].
Qed.

Lemma strip_lower (s : string) : strip (lower s) = lower (strip s).
Proof. unfold strip. by rewrite lstrip_lower, rstrip_lower. Qed.

(** A string that neither starts nor ends with white space. *)
Lemma lstrip_id (c : ascii) (s : string) :
  is_space c = false → lstrip (String c s) = String c s.
Proof. intros Hc. simpl. by rewrite Hc. Qed.

Lemma lstrip_idemp (s : string) : lstrip (lstrip s) = lstrip s.
Proof.
  induction s as [|c s IH]; simpl; [done|].
  destruct (is_space c) eqn:Hc; [done|]. by apply lstrip_id.
Qed.

Lemma rstrip_idemp (s : string) : rstrip (rstrip s) = rstrip s.
Proof.
  induction s as [|c s IH]; simpl; [done|].
  destruct (rstrip s) as [|d r] eqn:Hr.
  - destruct (is_space c) eqn:Hc; simpl; [done|]. by rewrite Hc.
  - simpl. simpl in IH. by rewrite IH.
Qed.

Lemma lstrip_rstrip (s : string) : lstrip (rstrip s) = rstrip (lstrip s).
Proof.
  induction s as [|c s IH]; simpl; [done|].
  destruct (is_space c) eqn:Hc.
  - rewrite <-IH. destruct (rstrip s); simpl; [done|]. by rewrite Hc.
  - simpl. destruct (rstrip s); simpl; by rewrite Hc.
Qed.

Lemma strip_idemp (s : string) : strip (strip s) = strip s.
Proof.
  unfold strip. by rewrite lstrip_rstrip, lstrip_idemp, rstrip_idemp.
Qed.

Lemma all_chars_lstrip (P : ascii → Prop) (s : string) :
  all_chars P s → all_chars P (lstrip s).
Proof.
  induction s as [|c s IH]; simpl; [done|]. intros [Hc Hs].
  destruct (is_space c); [by apply IH|by split].
Qed.

Lemma all_chars_rstrip (P : ascii → Prop) (s : string) :
  all_chars P s → all_chars P (rstrip s).
Proof.
  induction s as [|c s IH]; simpl; [done|]. intros [Hc Hs].
  specialize (IH Hs). destruct (rstrip s); simpl.
  - by destruct (is_space c).
  - by split.
Qed.

Lemma all_chars_strip (P : ascii → Prop) (s : string) :
  all_chars P s → all_chars P (strip s).
Proof. intros Hs. by apply all_chars_rstrip, all_chars_lstrip. Qed.

(** No white space, nothing to strip. *)
Lemma rstrip_no_space (s : string) :
  all_chars (λ c, is_space c = false) s → rstrip s = s.
Proof.
  induction s as [|c s IH]; simpl; [done|]. intros [Hc Hs].
  rewrite IH by done. destruct s; [by rewrite Hc|done].
Qed.

Lemma strip_no_space (s : string) :
  all_chars (λ c, is_space c = false) s → strip s = s.
Proof.
  intros Hs. unfold strip.
  destruct s as [|c s]; [done|].
  rewrite lstrip_id by apply Hs. by apply rstrip_no_space.
Qed.

(** *** [re.split] *)

Lemma re_split_nonword_alternating (s : string) :
  alternating (re_split_nonword s).
Proof.
  induction s as [|c s IH]; simpl; [by constructor|].
  destruct (re_split_nonword s) as [|first rest]; [inversion IH|].
  destruct (is_word c) eqn:Hc.
  - inversion IH; subst; constructor; simpl; try done; by rewrite Hc.
  - destruct first as [|d first].
    + destruct rest as [|sep rest'].
      * constructor; [done|by simpl; rewrite Hc|done|done].
      * inversion IH; subst. constructor; [done| |done|done].
        simpl. by rewrite Hc.
    + constructor; [done|by simpl; rewrite Hc|done|done].
Qed.

(** Each run holds word characters only, or none. *)
Lemma alternating_homogeneous (l : list string) (q : string) :
  alternating l → q ∈ l →
  all_in is_word q = true ∨ all_in (λ c, negb (is_word c)) q = true.
Proof.
  induction 1 as [w Hw|w sep l Hw Hsep Hne Hl IH]; intros Hq.
  - apply list_elem_of_singleton in Hq as ->. by left.
  - rewrite !elem_of_cons in Hq. destruct Hq as [->|[->|Hq]]; auto.
Qed.

(** *** [join] *)

Lemma append_cons (c : ascii) (s t : string) :
  String c s +:+ t = String c (s +:+ t).
Proof. reflexivity. Qed.







End TextFacts.

(** ** The class [Tokenizer] *)

Module TokenizerFacts.
Import EvalNotions Text Outcome TokenizerPy TextFacts.
Local Open Scope list_scope.

(** *** [split_sentence] *)

Lemma lower_not_empty (s : string) : s ≠ "" → lower s ≠ "".
Proof. by destruct s. Qed.

Lemma length_pos_not_empty (s : string) : (0 < String.length s)%nat ↔ s ≠ "".
Proof. destruct s; simpl; split; try done; lia. Qed.

(** What the pieces of a sentence are like. *)
Lemma pieces_spec (sentence p : string) :
  p ∈ pieces sentence →
  p ≠ "" ∧ strip p = p ∧ lower p = p
  ∧ (all_in is_word p = true ∨ all_in (λ c, negb (is_word c)) p = true).
Proof.
  unfold pieces. intros (q & -> & Hq)%list_elem_of_fmap.
  apply list_elem_of_filter in Hq as [Hlen Hq].
  apply length_pos_not_empty in Hlen.
  split_and!.
  - by apply lower_not_empty.
  - by rewrite strip_lower, strip_idemp.
  - apply lower_idemp.
  - pose proof (alternating_homogeneous _ q
                  (re_split_nonword_alternating (strip sentence)) Hq) as Hhom.
    destruct Hhom as [Hw|Hn]; [left|right]; apply all_in_spec.
    + apply (all_chars_lower is_word), all_chars_strip, all_in_spec;
        [apply is_word_lower_char|done].
    + apply (all_chars_lower (λ c, negb (is_word c))), all_chars_strip,
        all_in_spec; [|done].
      intros c. by rewrite is_word_lower_char.
Qed.

Lemma elem_of_chars (P : ascii → Prop) (s x : string) :
  x ∈ chars s → all_chars P s → ∃ c, x = String c "" ∧ P c.
Proof.
  induction s as [|c s IH]; simpl; [by intros ?%elem_of_nil|].
  intros [->|Hx]%elem_of_cons [Hc Hs]; [by exists c|by apply IH].
Qed.

(** A piece is a token as it is, unless it is made of punctuation that is
    not all full stops: then its characters are the tokens. *)
Lemma tokens_of_spec (p tok : string) :
  tok ∈ tokens_of p →
  (tok = p ∧ (all_in is_punctuation p = false ∨ all_in is_dot p = true))
  ∨ (all_in is_punctuation p = true ∧ all_in is_dot p = false
     ∧ ∃ c, tok = String c "" ∧ is_punctuation c = true).
Proof.
  unfold tokens_of.
  destruct (all_in is_punctuation p) eqn:Hp; simpl;
    [|intros ->%list_elem_of_singleton; left; auto].
  destruct (all_in is_dot p) eqn:Hd; simpl;
    [intros ->%list_elem_of_singleton; left; auto|].
  intros Htok. right. split; [done|]. split; [done|].
  apply all_in_spec in Hp. by eapply elem_of_chars.
Qed.

Lemma split_sentence_elem (sentence tok : string) :
  tok ∈ split_sentence sentence ↔
  ∃ p, p ∈ pieces sentence ∧ tok ∈ tokens_of p.
Proof.
  unfold split_sentence. rewrite list_elem_of_bind.
  split; intros (p & ? & ?); by exists p.
Qed.

Lemma split_sentence_token (sentence tok : string) :
  tok ∈ split_sentence sentence →
  tok ≠ "" ∧ strip tok = tok ∧ lower tok = tok
  ∧ (all_in is_word tok = true ∨ all_in (λ c, negb (is_word c)) tok = true).
Proof.
  intros (p & Hp & Htok)%split_sentence_elem.
  apply pieces_spec in Hp. apply tokens_of_spec in Htok
    as [[-> _]|(_ & _ & c & -> & Hc)]; [done|].
  split_and!.
  - done.
  - apply strip_no_space. split; [by apply punctuation_not_space|done].
  - simpl. by rewrite lower_char_punctuation.
  - simpl. destruct (is_word c); auto.
Qed.


(** X12.  Runs of punctuation are broken up.  A token of
    [split_sentence] that is made of punctuation marks only is a single
    mark, or else a run of full stops. *)
Theorem split_sentence_punctuation (sentence tok : string) :
  tok ∈ split_sentence sentence →
  all_in is_punctuation tok = true →
  String.length tok = 1%nat ∨ all_in is_dot tok = true.
Proof.
  intros (p & Hp & Htok)%split_sentence_elem Hpunct.
  apply tokens_of_spec in Htok as [[-> [Hno|Hdots]]|(_ & _ & c & -> & Hc)].
  - congruence.
  - by right.
  - by left.
Qed.


(** *** Nothing but white space is lost *)











(** *** [Tokenizer.__init__] *)

Lemma index_words_lookup (vocab : list string) :
  ∀ (i : nat) (m : gmap string nat) (w : string) (k : nat),
    index_words i vocab m !! w = Some k ↔
    (∃ j, k = (i + j)%nat ∧ vocab !! j = Some w
          ∧ ∀ j', (j < j')%nat → vocab !! j' ≠ Some w)
    ∨ ((w ∉ vocab) ∧ m !! w = Some k).
Proof.
  induction vocab as [|word vocab IH]; intros i m w k; simpl.
  - split.
    + intros Hm. right. split; [apply not_elem_of_nil|done].
    + intros [(j & _ & Hj & _)|[_ Hm]]; [by rewrite lookup_nil in Hj|done].
  - rewrite IH. split.
    + intros [(j & -> & Hj & Hlast)|[Hnot Hm]].
      * left. exists (S j). split; [lia|]. split; [done|].
        intros [|j'] Hlt; [lia|]. simpl. apply Hlast. lia.
      * destruct (decide (word = w)) as [->|Hne].
        -- rewrite lookup_insert_eq in Hm. injection Hm as <-.
           left. exists 0%nat. split; [lia|]. split; [done|].
           intros [|j'] Hlt; [lia|]. simpl. intros Hj'.
           apply Hnot. by eapply list_elem_of_lookup_2.
        -- rewrite lookup_insert_ne in Hm by done. right. split; [|done].
           rewrite not_elem_of_cons. by split.
    + intros [(j & -> & Hj & Hlast)|[Hnot Hm]].
      * destruct j as [|j].
        -- simpl in Hj. injection Hj as ->. right. split.
           ++ intros (j' & Hj')%list_elem_of_lookup_1.
              by apply (Hlast (S j')); [lia|].
           ++ rewrite lookup_insert_eq. f_equal. lia.
        -- left. exists j. split; [lia|]. split; [done|].
           intros j' Hlt. apply (Hlast (S j')). lia.
      * apply not_elem_of_cons in Hnot as [Hne Hnot]. right. split; [done|].
        by rewrite lookup_insert_ne.
Qed.

Section Init.
Variables (remove_punctuation reversed : bool) (words : list string).
Variable (encoding_length : Z).

Let self := init remove_punctuation reversed (Some words) encoding_length.

Lemma init_lookup (w : string) (k : nat) :
  word_to_index self !! w = Some k ↔
  words !! k = Some w ∧ ∀ j, (k < j)%nat → words !! j ≠ Some w.
Proof.
  subst self. unfold init. simpl.
  destruct words as [|word words'].
  - rewrite lookup_empty. split; [done|]. by intros [? _].
  - rewrite index_words_lookup. split.
    + intros [(j & -> & Hj & Hlast)|[_ Hm]]; [done|].
      by rewrite lookup_empty in Hm.
    + intros [Hk Hlast]. left. by exists k.
Qed.

Lemma init_is_Some (w : string) :
  is_Some (word_to_index self !! w) ↔ w ∈ words.
Proof.
  split.
  - intros [k [Hk _]%init_lookup]. by eapply list_elem_of_lookup_2.
  - intros Hw.
    (* the last position of [w] *)
    assert (∃ k, words !! k = Some w
                 ∧ ∀ j, (k < j)%nat → words !! j ≠ Some w) as (k & Hk).
    { clear self. induction words as [|x words' IH];
        [by apply elem_of_nil in Hw|].
      destruct (decide (w ∈ words')) as [Hin|Hnot].
      - destruct (IH Hin) as (k & Hk & Hlast). exists (S k).
        split; [done|]. intros [|j] Hlt; [lia|]. apply Hlast. lia.
      - apply elem_of_cons in Hw as [->|Hw]; [|done]. exists 0%nat.
        split; [done|]. intros [|j] Hlt; [lia|]. simpl. intros Hj.
        apply Hnot. by eapply list_elem_of_lookup_2. }
    exists k. by apply init_lookup.
Qed.

End Init.

(** X14.  The dictionary [word_to_index] that [__init__] builds.  It is
    empty when [vocab] is [None] or an empty list.  For a vocabulary
    [words], a word has the index [k] exactly if [k] is the last position
    at which it stands in [words]; the keys are the words of the
    vocabulary; and [words[word_to_index[w]]] is [w]. *)
Theorem tokenizer_word_to_index (remove_punctuation reversed : bool)
    (vocab : option (list string)) (encoding_length : Z) :
  let self := init remove_punctuation reversed vocab encoding_length in
  (vocab = None ∨ vocab = Some [] → word_to_index self = ∅)
  ∧ (∀ words, vocab = Some words →
       (∀ w k, word_to_index self !! w = Some k ↔
               words !! k = Some w
               ∧ ∀ j, (k < j)%nat → words !! j ≠ Some w)
       ∧ (∀ w, is_Some (word_to_index self !! w) ↔ w ∈ words)
       ∧ (∀ w k, word_to_index self !! w = Some k →
                 list_getitem words (Z.of_nat k) = Ok w)).
Proof.
  intros self. split; [by intros [->| ->]|].
  intros words ->. split_and!.
  - apply init_lookup.
  - apply init_is_Some.
  - intros w k [Hk _]%init_lookup. unfold list_getitem, index.
    rewrite (proj2 (Z.leb_le 0 (Z.of_nat k))) by lia.
    by rewrite Nat2Z.id, Hk.
Qed.

(** *** [encode_sentence] *)

Lemma encode_word (self : Tokenizer) (word : string) :
  match word_to_index self !! word with
  | Some i => Ok i
  | None => getitem (word_to_index self) "<UNK>"
  end
  = match word_index self word with
    | Some i => Ok i
    | None => Raise KeyError
    end.
Proof.
  unfold word_index, getitem. destruct (word_to_index self !! word); [done|].
  by destruct (word_to_index self !! "<UNK>").
Qed.

Lemma encode_words_Ok (self : Tokenizer) (words : list string) (ids : list nat) :
  encode_words self words = Ok ids ↔
  Forall2 (λ word i, word_index self word = Some i) words ids.
Proof.
  revert ids. induction words as [|word words IH]; intros ids; simpl.
  - split; [intros [= <-]; constructor|by intros ->%Forall2_nil_inv_l].
  - rewrite encode_word. unfold_result. split.
    + destruct (word_index self word) as [i|] eqn:Hw; [|done].
      destruct (encode_words self words) as [rest|]; [|done].
      intros [= <-]. constructor; [done|]. by apply IH.
    + intros (i & rest & Hi & Hrest & ->)%Forall2_cons_inv_l.
      apply IH in Hrest. by rewrite Hrest, Hi.
Qed.

Lemma encode_words_total (self : Tokenizer) (words : list string) :
  is_Some (word_to_index self !! "<UNK>") →
  ∃ ids, encode_words self words = Ok ids.
Proof.
  intros [u Hu]. induction words as [|word words [rest IH]]; simpl; [eauto|].
  unfold getitem. unfold_result. rewrite IH, Hu.
  destruct (word_to_index self !! word); eauto.
Qed.

(** Everything a call of [encode_sentence] that returns went through. *)
Lemma encode_sentence_Returns (self : Tokenizer) (sentence : string)
    (enc : list nat) :
  encode_sentence self sentence = Returns enc →
  size (word_to_index self) ≠ 0%nat
  ∧ ∃ ids start eos,
      encode_words self (splited self sentence) = Ok ids
      ∧ word_to_index self !! "<START>" = Some start
      ∧ word_to_index self !! "<EOS>" = Some eos
      ∧ (((Z.of_nat (length (start :: ids ++ [eos])) < encoding_length self)%Z
          ∧ (∃ pad,
               word_to_index self !! "<PAD>" = Some pad
               ∧ enc = slice_to
                         ((start :: ids ++ [eos])
                          ++ repeat_item pad
                               (encoding_length self
                                - Z.of_nat (length (start :: ids ++ [eos]))))
                         (encoding_length self)))
         ∨ ((encoding_length self ≤ Z.of_nat (length (start :: ids ++ [eos])))%Z
            ∧ enc = slice_to (start :: ids ++ [eos]) (encoding_length self))).
Proof.
  unfold encode_sentence. case_decide as Hsize; [done|].
  unfold getitem. unfold_outcome.
  destruct (encode_words self (splited self sentence)) as [ids|]; [|done].
  destruct (word_to_index self !! "<EOS>") as [eos|]; [|done].
  destruct (word_to_index self !! "<START>") as [start|]; [|done].
  intros Hrun. split; [done|]. exists ids, start, eos. split_and!; [done..|].
  case_decide as Hshort.
  - left. split; [done|].
    destruct (word_to_index self !! "<PAD>") as [pad|]; [|done].
    exists pad. split; [done|]. by injection Hrun as <-.
  - right. split; [lia|]. by injection Hrun as <-.
Qed.

(** With the four marks in the vocabulary, every sentence is encoded. *)
Lemma encode_sentence_total (self : Tokenizer) (sentence : string) :
  Forall (λ w, is_Some (word_to_index self !! w))
         ["<PAD>"; "<START>"; "<EOS>"; "<UNK>"] →
  returns (encode_sentence self sentence) = true.
Proof.
  intros Hbase. rewrite !Forall_cons in Hbase.
  destruct Hbase as ([pad Hpad] & [start Hstart] & [eos Heos] & Hunk & _).
  unfold encode_sentence. case_decide as Hsize.
  { apply map_size_empty_inv in Hsize.
    by rewrite Hsize, lookup_empty in Hpad. }
  destruct (encode_words_total self (splited self sentence) Hunk)
    as [ids Hids].
  unfold getitem. unfold_outcome. rewrite Hids, Heos, Hstart, Hpad.
  by case_decide.
Qed.

(** X15.  What [encode_sentence] gives.  With an empty [word_to_index]
    it leaves through [sys.exit('Tokenizer has no vocab')].  When it
    returns, the words were all given an index and the marks ['<START>']
    and ['<EOS>'] are in the vocabulary; for an [encoding_length] that is
    not negative the encoding has exactly [encoding_length] entries: it
    starts as the list of the start index, the word indices and the end
    index does, cut off at [encoding_length], and every entry behind that
    list is the index of ['<PAD>'].  It returns whenever the four marks
    of the base vocabulary are keys of [word_to_index]. *)
Theorem encode_sentence_shape (self : Tokenizer) (sentence : string) :
  (size (word_to_index self) = 0%nat →
   encode_sentence self sentence = Fails (SystemExit no_vocab_message))
  ∧ (∀ enc, encode_sentence self sentence = Returns enc →
       ∃ ids start eos,
         encode_words self (splited self sentence) = Ok ids
         ∧ word_to_index self !! "<START>" = Some start
         ∧ word_to_index self !! "<EOS>" = Some eos
         ∧ ((0 ≤ encoding_length self)%Z →
            length enc = Z.to_nat (encoding_length self)
            ∧ take (length (start :: ids ++ [eos])) enc
              = take (Z.to_nat (encoding_length self)) (start :: ids ++ [eos])
            ∧ ∀ i x, (length (start :: ids ++ [eos]) ≤ i)%nat →
                     enc !! i = Some x →
                     word_to_index self !! "<PAD>" = Some x))
  ∧ (Forall (λ w, is_Some (word_to_index self !! w))
            ["<PAD>"; "<START>"; "<EOS>"; "<UNK>"] →
     returns (encode_sentence self sentence) = true).
Proof.
  split_and!.
  - intros Hsize. unfold encode_sentence. by rewrite decide_True.
  - intros enc (_ & ids & start & eos & Hids & Hstart & Heos & Hshape)
      %encode_sentence_Returns.
    exists ids, start, eos. split_and!; [done..|]. intros HL.
    set (full := start :: ids ++ [eos]) in *.
    unfold slice_to, repeat_item in Hshape.
    rewrite (proj2 (Z.leb_le 0 _) HL) in Hshape.
    destruct Hshape as [[Hshort (pad & Hpad & ->)]|[Hlong ->]].
    + assert (Z.to_nat (encoding_length self)
              = (length full
                 + Z.to_nat (encoding_length self - Z.of_nat (length full)))%nat)
        as Hsum by lia.
      set (n := Z.to_nat (encoding_length self - Z.of_nat (length full))) in *.
      rewrite Hsum.
      rewrite (take_ge (full ++ replicate n pad))
        by (rewrite length_app, length_replicate; lia).
      split_and!.
      * by rewrite length_app, length_replicate.
      * rewrite take_app_length. by rewrite take_ge by lia.
      * intros i x Hi Hx. rewrite lookup_app_r in Hx by done.
        apply lookup_replicate in Hx as [-> _]. done.
    + split_and!.
      * rewrite length_take. lia.
      * rewrite take_take. f_equal. lia.
      * intros i x Hi Hx. apply lookup_lt_Some in Hx.
        rewrite length_take in Hx. lia.
  - apply encode_sentence_total.
Qed.

(** *** [decode_sentence] *)

Lemma decode_loop_app (self : Tokenizer) (words : list string) (pad : nat)
    (ids : list nat) (ws : list string) :
  vocab self = Some words →
  word_to_index self !! "<PAD>" = Some pad →
  Forall2 (λ i w, words !! i = Some w ∧ i ≠ pad) ids ws →
  ∀ rest acc,
    decode_loop self ((Z.of_nat <$> ids) ++ rest) acc
    = decode_loop self rest (acc ++ ws).
Proof.
  intros Hvocab Hpad. induction 1 as [|i w ids ws [Hi Hne] _ IH];
    intros rest acc.
  - by rewrite app_nil_r.
  - simpl. unfold getitem. unfold_outcome. rewrite Hpad, Hvocab.
    rewrite decide_False by lia.
    unfold list_getitem, index.
    rewrite (proj2 (Z.leb_le 0 (Z.of_nat i))) by lia.
    rewrite Nat2Z.id, Hi. rewrite IH. by rewrite <-app_assoc.
Qed.

Lemma decode_loop_pad (self : Tokenizer) (pad : nat) (rest : list Z)
    (acc : list string) :
  word_to_index self !! "<PAD>" = Some pad →
  decode_loop self (Z.of_nat pad :: rest) acc = Returns acc.
Proof.
  intros Hpad. simpl. unfold getitem. unfold_outcome. rewrite Hpad.
  by rewrite decide_True.
Qed.

Section RoundTrip.
Variables (remove_punctuation reversed : bool) (words : list string).
Variable (encoding_length : Z).

Let self := init remove_punctuation reversed (Some words) encoding_length.

Lemma lower_pad : lower "<PAD>" ≠ "<PAD>".
Proof. by vm_compute. Qed.

Lemma splited_token (sentence w : string) :
  w ∈ splited self sentence → lower w = w.
Proof.
  unfold splited. intros Hw.
  assert (w ∈ split_sentence sentence) as Htok.
  { destruct (TokenizerPy.remove_punctuation self);
      [apply list_elem_of_filter in Hw as [_ Hw]|];
      destruct (TokenizerPy.reversed self);
        by rewrite ?elem_of_reverse in Hw. }
  by apply split_sentence_token in Htok as (_ & _ & ? & _).
Qed.

(** The index written for a word is a position of the word that stands
    for it, and not the position of the padding. *)
Lemma word_index_known (sentence w : string) (i pad : nat) :
  w ∈ splited self sentence →
  word_to_index self !! "<PAD>" = Some pad →
  word_index self w = Some i →
  words !! i = Some (known words w) ∧ i ≠ pad.
Proof.
  intros Hw Hpad Hi.
  apply init_lookup in Hpad as [Hpad _].
  assert (words !! i = Some (known words w)) as Hknown.
  { pose proof (init_is_Some remove_punctuation reversed words
                  encoding_length w) as Hsome.
    fold self in Hsome.
    unfold word_index in Hi. unfold known.
    destruct (word_to_index self !! w) as [k|] eqn:Hk.
    - injection Hi as ->. rewrite decide_True by (apply Hsome; eauto).
      by apply init_lookup in Hk as [? _].
    - rewrite decide_False.
      + by apply init_lookup in Hi as [? _].
      + intros [k Hk']%Hsome. done. }
  split; [done|]. intros ->. rewrite Hpad in Hknown.
  injection Hknown as Hknown. unfold known in Hknown.
  case_decide; [|done]. apply splited_token in Hw.
  rewrite <-Hknown in Hw. by apply lower_pad.
Qed.

Lemma marked_indices (sentence : string) (ids : list nat)
    (start eos pad : nat) :
  encode_words self (splited self sentence) = Ok ids →
  word_to_index self !! "<START>" = Some start →
  word_to_index self !! "<EOS>" = Some eos →
  word_to_index self !! "<PAD>" = Some pad →
  Forall2 (λ i w, words !! i = Some w ∧ i ≠ pad)
          (start :: ids ++ [eos]) (marked self words sentence).
Proof.
  intros Hids Hstart Heos Hpad.
  pose proof Hpad as [Hpad' _]%init_lookup.
  assert (∀ w i, w ≠ "<PAD>" → word_to_index self !! w = Some i →
                 words !! i = Some w ∧ i ≠ pad) as Hmark.
  { intros w i Hw [Hi _]%init_lookup. split; [done|]. intros ->. congruence. }
  unfold marked. constructor; [by apply Hmark|].
  apply Forall2_app; [|constructor; [by apply Hmark|constructor]].
  apply encode_words_Ok in Hids.
  assert (∀ w, w ∈ splited self sentence → w ∈ splited self sentence) as Hsub
    by done.
  revert Hsub Hids. generalize (splited self sentence) at 1 3 4 as ws.
  intros ws Hsub Hids. induction Hids as [|w i ws ids Hi _ IH]; [constructor|].
  rewrite fmap_cons. constructor.
  - eapply word_index_known; [|done..]. apply Hsub, list_elem_of_here.
  - apply IH. intros w' Hw'. by apply Hsub, list_elem_of_further.
Qed.

End RoundTrip.

(** X16.  Decoding an encoding.  For a tokenizer over a vocabulary that
    has the word ['<PAD>'] and with an [encoding_length] that is not
    negative, [decode_sentence] of what [encode_sentence] returned is the
    text, joined by single blanks, of the first [encoding_length] of
    these words: ['<START>'], the words of the sentence as they were
    looked up, each word outside the vocabulary replaced by ['<UNK>'],
    and ['<EOS>']; the list is turned round if [reversed] is set. *)
Theorem decode_encode_sentence (remove_punctuation reversed : bool)
    (words : list string) (encoding_length : Z) (sentence : string)
    (enc : list nat) :
  let self := init remove_punctuation reversed (Some words) encoding_length in
  (0 ≤ encoding_length)%Z →
  "<PAD>" ∈ words →
  encode_sentence self sentence = Returns enc →
  decode_sentence self (Z.of_nat <$> enc)
  = Returns
      (join " "
         (let ws := take (Z.to_nat encoding_length)
                         (marked self words sentence) in
          if reversed then reverse ws else ws)).
Proof.
  intros self HL Hpadin
    (_ & ids & start & eos & Hids & Hstart & Heos & Hshape)
    %encode_sentence_Returns.
  apply (init_is_Some remove_punctuation reversed _ encoding_length)
    in Hpadin as [pad Hpad].
  pose proof (marked_indices _ _ _ _ _ _ _ _ _ Hids Hstart Heos Hpad) as Hall.
  fold self in Hall, Hpad.
  assert (decode_loop self (Z.of_nat <$> enc) []
          = Returns (take (Z.to_nat encoding_length)
                          (marked self words sentence))) as Hloop.
  { pose proof (Forall2_length _ _ _ Hall) as Hlen.
    unfold slice_to, repeat_item in Hshape. simpl TokenizerPy.encoding_length in *.
    rewrite (proj2 (Z.leb_le 0 _) HL) in Hshape.
    destruct Hshape as [[Hshort (pad' & Hpad' & ->)]|[Hlong ->]].
    - assert (pad' = pad) as -> by congruence.
      rewrite take_ge by (rewrite length_app, length_replicate; lia).
      rewrite (take_ge (marked self words sentence)) by lia.
      rewrite fmap_app.
      rewrite (decode_loop_app self words pad _ _ eq_refl Hpad Hall).
      destruct (Z.to_nat _) as [|n] eqn:Hn; [lia|].
      exact (decode_loop_pad self pad _ _ Hpad).
    - rewrite <-(app_nil_r (Z.of_nat <$> _)).
      rewrite (decode_loop_app self words pad _
                 (take (Z.to_nat encoding_length) (marked self words sentence))
                 eq_refl Hpad); [done|].
      by apply Forall2_take. }
  unfold decode_sentence. unfold_outcome. by rewrite Hloop.
Qed.

(** X17.  [decode_sentence] at its edges.  An empty encoding gives the
    empty string.  Without the key ['<PAD>'] any other encoding raises
    [KeyError].  Decoding stops at the first index of ['<PAD>']: what
    follows it is not read.  A single other index [ix] gives
    [vocab[ix]], a negative index counting from the end of the vocabulary
    and an index outside it raising [IndexError]. *)
Theorem decode_sentence_stops_at_padding (self : Tokenizer) :
  decode_sentence self [] = Returns ""
  ∧ (∀ ix encoding, word_to_index self !! "<PAD>" = None →
       decode_sentence self (ix :: encoding) = Fails (Exn KeyError))
  ∧ (∀ pad words before after,
       word_to_index self !! "<PAD>" = Some pad →
       vocab self = Some words →
       Z.of_nat pad ∉ before →
       decode_sentence self (before ++ Z.of_nat pad :: after)
       = decode_sentence self before)
  ∧ (∀ pad words ix,
       word_to_index self !! "<PAD>" = Some pad →
       vocab self = Some words →
       ix ≠ Z.of_nat pad →
       decode_sentence self [ix]
       = match list_getitem words ix with
         | Ok word => Returns word
         | Raise e => Fails (Exn e)
         end).
Proof.
  split_and!.
  - unfold decode_sentence. simpl. by destruct (TokenizerPy.reversed self).
  - intros ix encoding Hpad. unfold decode_sentence. simpl.
    unfold getitem. unfold_outcome. by rewrite Hpad.
  - intros pad words before after Hpad Hvocab Hno.
    unfold decode_sentence. f_equal.
    generalize (@nil string). induction before as [|ix before IH]; intros acc.
    + simpl. unfold getitem. unfold_outcome. rewrite Hpad.
      by rewrite decide_True.
    + apply not_elem_of_cons in Hno as [Hne Hno]. simpl.
      unfold getitem. unfold_outcome. rewrite Hpad, Hvocab.
      rewrite !decide_False by done.
      destruct (list_getitem words ix); [by apply IH|done].
  - intros pad words ix Hpad Hvocab Hne. unfold decode_sentence. simpl.
    unfold getitem. unfold_outcome. rewrite Hpad, Hvocab.
    rewrite decide_False by done.
    destruct (list_getitem words ix); [|done]. simpl.
    by destruct (TokenizerPy.reversed self).
Qed.

End TokenizerFacts.

(** ** Vocabularies *)

Module VocabFacts.
Import EvalNotions Text Outcome TokenizerPy VocabPy TextFacts TokenizerFacts.
Local Open Scope list_scope.

(** *** Counting *)

Lemma counted_count_word (word w : string) (count : Counter) :
  counted w (count_word word count)
  = if decide (w = word) then S (counted w count) else counted w count.
Proof.
  induction count as [|[w' n] count IH]; simpl.
  - by repeat case_decide; simplify_eq.
  - destruct (decide (w' = word)) as [->|Hne]; simpl.
    + by repeat case_decide; simplify_eq.
    + rewrite IH. by repeat case_decide; simplify_eq.
Qed.

Lemma keys_count_word (word : string) (count : Counter) :
  (count_word word count).*1
  = if decide (word ∈ count.*1) then count.*1 else count.*1 ++ [word].
Proof.
  induction count as [|[w' n] count IH].
  - case_decide as Hin; [by apply elem_of_nil in Hin|done].
  - simpl count_word. rewrite fmap_cons. simpl fst.
    destruct (decide (w' = word)) as [->|Hne].
    + by rewrite decide_True by apply list_elem_of_here.
    + rewrite fmap_cons, IH. simpl fst. case_decide as Hin.
      * by rewrite decide_True by by apply list_elem_of_further.
      * rewrite decide_False; [done|].
        rewrite not_elem_of_cons. by split.
Qed.

Lemma counted_key (count : Counter) (w : string) (n : nat) :
  NoDup count.*1 → (w, n) ∈ count → counted w count = n.
Proof.
  induction count as [|[w' n'] count IH]; simpl;
    [by intros _ ?%elem_of_nil|].
  intros [Hnot Hnodup]%NoDup_cons [[= -> ->]|Hin]%elem_of_cons.
  - by rewrite decide_True.
  - rewrite decide_False; [by apply IH|].
    intros ->. apply Hnot. apply list_elem_of_fmap. by exists (w, n).
Qed.

Lemma counted_zero (count : Counter) (w : string) :
  w ∉ count.*1 → counted w count = 0%nat.
Proof.
  induction count as [|[w' n'] count IH]; simpl; [done|].
  intros [Hne Hnot]%not_elem_of_cons. by rewrite decide_False, IH.
Qed.

Lemma count_word_entries (word : string) (count : Counter) :
  NoDup count.*1 → Forall (λ e, 0 < e.2)%nat count →
  NoDup (count_word word count).*1
  ∧ Forall (λ e, 0 < e.2)%nat (count_word word count).
Proof.
  intros Hnodup Hpos. split.
  - rewrite keys_count_word. case_decide as Hin; [done|].
    apply NoDup_app. split_and!; [done| |apply NoDup_singleton].
    intros w Hw ->%list_elem_of_singleton. done.
  - clear Hnodup. induction count as [|[w' n] count IH]; simpl.
    + repeat constructor.
    + apply Forall_cons in Hpos as [Hn Hpos].
      destruct (decide (w' = word)); constructor; simpl in *; auto with lia.
Qed.

Lemma update_spec (words : list string) :
  ∀ count : Counter,
    NoDup count.*1 → Forall (λ e, 0 < e.2)%nat count →
    NoDup (update count words).*1
    ∧ Forall (λ e, 0 < e.2)%nat (update count words)
    ∧ ∀ w, counted w (update count words)
           = (counted w count + occurrences w words)%nat.
Proof.
  unfold update, occurrences.
  induction words as [|word words IH]; intros count Hnodup Hpos; simpl.
  - split_and!; [done..|]. intros w. lia.
  - destruct (count_word_entries word count Hnodup Hpos)
      as [Hnodup' Hpos'].
    destruct (IH _ Hnodup' Hpos') as (? & ? & Hcount).
    split_and!; [done..|]. intros w. rewrite Hcount, counted_count_word.
    rewrite filter_cons. repeat case_decide; simplify_eq; simpl; lia.
Qed.

Lemma count_words_update (data : list EvalPy.gt_item) :
  count_words data = update [] (all_tokens data).
Proof.
  unfold count_words, all_tokens, update.
  generalize (@nil (string * nat)) as count.
  induction data as [|item data IH]; intros count; [done|].
  simpl foldl at 1. rewrite IH. rewrite bind_cons, foldl_app. f_equal.
  generalize count as c. clear.
  induction (EvalPy.instructions item) as [|instr instrs IH]; intros c; [done|].
  simpl foldl at 1. rewrite IH. by rewrite bind_cons, foldl_app.
Qed.

(** *** Sorting *)

Lemma place_spec (item : string * nat) (sorted : Counter) :
  StronglySorted by_count sorted →
  StronglySorted by_count (place item sorted) ∧ place item sorted ≡ₚ item :: sorted.
Proof.
  induction 1 as [|other sorted Hsorted IH Hall]; simpl.
  - split; [repeat constructor|done].
  - destruct IH as [IHsorted IHperm].
    destruct (item.2 <? other.2)%nat eqn:Hlt.
    + apply Nat.ltb_lt in Hlt. split.
      * constructor; [done|]. rewrite IHperm. constructor; [|done].
        unfold by_count. lia.
      * rewrite IHperm. apply perm_swap.
    + apply Nat.ltb_ge in Hlt. split; [|done].
      constructor; [by constructor|]. constructor; [done|].
      eapply Forall_impl; [done|]. unfold by_count. intros; lia.
Qed.

Lemma most_common_spec (count : Counter) :
  StronglySorted by_count (most_common count) ∧ most_common count ≡ₚ count.
Proof.
  unfold most_common. induction count as [|item count [IHsorted IHperm]]; simpl.
  - split; [constructor|done].
  - destruct (place_spec item _ IHsorted) as [? Hperm].
    split; [done|]. by rewrite Hperm, IHperm.
Qed.

(** On a list sorted by decreasing count, the loop with its [break]
    takes every word that is counted often enough. *)
Lemma frequent_filter (min_count : Z) (items : Counter) :
  StronglySorted by_count items →
  frequent min_count items
  = (filter (λ e, (min_count ≤ Z.of_nat e.2)%Z) items).*1.
Proof.
  induction 1 as [|[w n] items Hsorted IH Hall]; simpl; [done|].
  rewrite filter_cons. simpl. destruct (min_count <=? Z.of_nat n)%Z eqn:Hn.
  - apply Z.leb_le in Hn. rewrite decide_True by done. by rewrite IH.
  - apply Z.leb_gt in Hn. rewrite decide_False by lia.
    assert (filter (λ e : string * nat, (min_count ≤ Z.of_nat e.2)%Z) items = [])
      as ->; [|done].
    clear IH Hsorted. induction Hall as [|[w' n'] items Hle _ IH]; [done|].
    rewrite filter_cons. unfold by_count in Hle. simpl in *.
    by rewrite decide_False by lia.
Qed.


Lemma StronglySorted_lookup {A} (R : A → A → Prop) (l : list A)
    (i j : nat) (a b : A) :
  StronglySorted R l → (i < j)%nat → l !! i = Some a → l !! j = Some b → R a b.
Proof.
  intros Hsorted. revert i j.
  induction Hsorted as [|x l Hsorted IH Hall]; intros i j Hlt Hi Hj;
    [by rewrite lookup_nil in Hi|].
  destruct j as [|j]; [lia|]. destruct i as [|i]; simpl in *.
  - injection Hi as ->. rewrite Forall_forall in Hall.
    apply Hall. by eapply list_elem_of_lookup_2.
  - apply (IH i j); [lia|done..].
Qed.

Lemma StronglySorted_filter {A} (R : A → A → Prop) (P : A → Prop)
    `{∀ x, Decision (P x)} (l : list A) :
  StronglySorted R l → StronglySorted R (filter P l).
Proof.
  induction 1 as [|x l Hsorted IH Hall]; [constructor|].
  rewrite filter_cons. case_decide; [|done].
  constructor; [done|]. apply Forall_forall.
  intros y [_ Hy]%list_elem_of_filter. rewrite Forall_forall in Hall.
  by apply Hall.
Qed.

(** *** [build_vocab] *)

(** What the counter of [build_vocab] holds when the data are read. *)
Lemma count_words_spec (data : list EvalPy.gt_item) :
  NoDup (count_words data).*1
  ∧ (∀ w n, (w, n) ∈ count_words data ↔
            n = occurrences w (all_tokens data) ∧ w ∈ all_tokens data).
Proof.
  rewrite count_words_update.
  destruct (update_spec (all_tokens data) [])
    as (Hnodup & Hpos & Hcount); [constructor..|].
  split; [done|]. intros w n. simpl in Hcount. split.
  - intros Hin. pose proof (counted_key _ _ _ Hnodup Hin) as Hn.
    rewrite Hcount in Hn. split; [done|].
    rewrite Forall_forall in Hpos. apply Hpos in Hin. simpl in Hin.
    unfold occurrences in Hn.
    destruct (filter (λ w0, w0 = w) (all_tokens data)) as [|w' l] eqn:Hf;
      [simpl in Hn; lia|].
    assert (w' ∈ filter (λ w0, w0 = w) (all_tokens data)) as Hw'
      by (rewrite Hf; apply list_elem_of_here).
    by apply list_elem_of_filter in Hw' as [-> ?].
  - intros [-> Hw].
    destruct (decide (w ∈ (update [] (all_tokens data)).*1)) as [Hkey|Hno].
    + apply list_elem_of_fmap in Hkey as ([w' n] & -> & Hin). simpl.
      pose proof (counted_key _ _ _ Hnodup Hin) as Hn.
      rewrite Hcount in Hn. by rewrite Hn.
    + apply counted_zero in Hno. rewrite Hcount in Hno.
      unfold occurrences in Hno.
      assert (w ∈ filter (λ w0, w0 = w) (all_tokens data)) as Hf
        by by apply list_elem_of_filter.
      destruct (filter _ _); [by apply elem_of_nil in Hf|simpl in Hno; lia].
Qed.

Lemma build_vocab_Ok (files : gmap string (list EvalPy.gt_item))
    (splits : list string) (min_count : Z) (start_vocab vocab : list string) :
  build_vocab files splits min_count start_vocab = Ok vocab →
  ∃ data added,
    EvalPy.load_datasets files splits = Ok data
    ∧ vocab = start_vocab ++ added
    ∧ NoDup added
    ∧ (∀ w, w ∈ added ↔
            w ∈ all_tokens data
            ∧ (min_count ≤ Z.of_nat (occurrences w (all_tokens data)))%Z)
    ∧ (∀ i j w1 w2,
          (i < j)%nat → added !! i = Some w1 → added !! j = Some w2 →
          (occurrences w2 (all_tokens data)
           ≤ occurrences w1 (all_tokens data))%nat).
Proof.
  unfold build_vocab. unfold_result.
  destruct (EvalPy.load_datasets files splits) as [data|]; [|done].
  intros [= <-].
  exists data, (frequent min_count (most_common (count_words data))).
  split; [done|]. split; [done|].
  destruct (count_words_spec data) as [Hnodup Hentries].
  destruct (most_common_spec (count_words data)) as [Hsorted Hperm].
  rewrite (frequent_filter _ _ Hsorted).
  set (often := λ e : string * nat, (min_count ≤ Z.of_nat e.2)%Z).
  assert (∀ w n, (w, n) ∈ filter often (most_common (count_words data)) ↔
                 n = occurrences w (all_tokens data) ∧ w ∈ all_tokens data
                 ∧ (min_count ≤ Z.of_nat n)%Z) as Hkept.
  { intros w n. rewrite list_elem_of_filter, Hperm, Hentries.
    unfold often. simpl. tauto. }
  split_and!.
  - apply (sublist_NoDup (filter often (most_common (count_words data))).*1
             (most_common (count_words data)).*1).
    + by rewrite Hperm.
    + apply fmap_sublist, sublist_filter.
  - intros w. rewrite list_elem_of_fmap. split.
    + intros ([w' n] & -> & (-> & ? & ?)%Hkept). done.
    + intros [Hw Hn]. exists (w, occurrences w (all_tokens data)).
      split; [done|]. by apply Hkept.
  - intros i j w1 w2 Hlt Hi Hj.
    rewrite list_lookup_fmap in Hi, Hj.
    destruct (filter often _ !! i) as [[w1' n1]|] eqn:Hi'; simplify_eq/=.
    destruct (filter often _ !! j) as [[w2' n2]|] eqn:Hj'; simplify_eq/=.
    pose proof (StronglySorted_lookup by_count _ i j _ _
                  (StronglySorted_filter _ often _ Hsorted) Hlt Hi' Hj') as Hle.
    apply list_elem_of_lookup_2, Hkept in Hi' as [<- _].
    apply list_elem_of_lookup_2, Hkept in Hj' as [<- _].
    done.
Qed.

(** X18.  The vocabulary that [build_vocab] returns.  It is
    [start_vocab] followed by words added: these are, each once, exactly
    the tokens of the instructions of the data set that occur at least
    [min_count] times, in an order in which no word comes before a word
    that occurs more often. *)
Theorem build_vocab_frequent_words
    (files : gmap string (list EvalPy.gt_item)) (splits : list string)
    (min_count : Z) (start_vocab vocab : list string) :
  build_vocab files splits min_count start_vocab = Ok vocab →
  ∃ data added,
    EvalPy.load_datasets files splits = Ok data
    ∧ vocab = start_vocab ++ added
    ∧ NoDup added
    ∧ (∀ w, w ∈ added ↔
            w ∈ all_tokens data
            ∧ (min_count ≤ Z.of_nat (occurrences w (all_tokens data)))%Z)
    ∧ (∀ i j w1 w2,
          (i < j)%nat → added !! i = Some w1 → added !! j = Some w2 →
          (occurrences w2 (all_tokens data)
           ≤ occurrences w1 (all_tokens data))%nat).
Proof. apply build_vocab_Ok. Qed.


(** *** A tokenizer over a built vocabulary *)

Lemma all_tokens_lower (data : list EvalPy.gt_item) (w : string) :
  w ∈ all_tokens data → lower w = w.
Proof.
  unfold all_tokens.
  intros (item & (instr & Hw & _)%list_elem_of_bind & _)%list_elem_of_bind.
  by apply split_sentence_token in Hw as (_ & _ & ? & _).
Qed.

(** A mark of [base_vocab] keeps its index: no word that was added is
    spelled like it, since added words are in lower case. *)
Lemma base_mark_index (remove_punctuation reversed : bool)
    (encoding_length : Z) (added : list string) (mark : string) (k : nat) :
  Forall (λ w, lower w = w) added →
  lower mark ≠ mark →
  base_vocab !! k = Some mark →
  (∀ j, (k < j)%nat → base_vocab !! j ≠ Some mark) →
  word_to_index (init remove_punctuation reversed
                      (Some (base_vocab ++ added)) encoding_length) !! mark
  = Some k.
Proof.
  intros Hadded Hmark Hk Hlast. apply init_lookup. split.
  - by apply lookup_app_l_Some.
  - intros j Hlt Hj. apply lookup_app_Some in Hj as [Hj|[_ Hj]].
    + by apply (Hlast j).
    + rewrite Forall_forall in Hadded. apply Hmark, Hadded.
      by eapply list_elem_of_lookup_2.
Qed.

(** X19.  A tokenizer over a vocabulary built from [base_vocab].  The
    words that [build_vocab] adds are in lower case, so none of them takes
    the place of a mark: ['<PAD>'], ['<START>'], ['<EOS>'] and ['<UNK>']
    keep the indices 0, 1, 2 and 3, the index of ['<PAD>'] is
    [padding_idx], and [encode_sentence] returns for every sentence. *)
Theorem built_vocab_tokenizer (files : gmap string (list EvalPy.gt_item))
    (splits : list string) (min_count : Z) (vocab : list string)
    (remove_punctuation reversed : bool) (encoding_length : Z) :
  build_vocab files splits min_count base_vocab = Ok vocab →
  let self := init remove_punctuation reversed (Some vocab) encoding_length in
  word_to_index self !! "<PAD>" = Some 0%nat
  ∧ word_to_index self !! "<START>" = Some 1%nat
  ∧ word_to_index self !! "<EOS>" = Some 2%nat
  ∧ word_to_index self !! "<UNK>" = Some 3%nat
  ∧ padding_idx = Ok 0%nat
  ∧ ∀ sentence, returns (encode_sentence self sentence) = true.
Proof.
  intros (data & added & _ & -> & _ & Hadded & _)%build_vocab_Ok self.
  assert (Forall (λ w, lower w = w) added) as Hlower.
  { apply Forall_forall. intros w [Hw _]%Hadded.
    by eapply all_tokens_lower. }
  assert (∀ mark k,
            lower mark ≠ mark → base_vocab !! k = Some mark →
            (∀ j, (k < j)%nat → base_vocab !! j ≠ Some mark) →
            word_to_index self !! mark = Some k) as Hmark
    by (intros; by apply base_mark_index).
  assert (∀ mark k, base_vocab !! k = Some mark →
                    ∀ j, (k < j)%nat → base_vocab !! j ≠ Some mark) as Hlast.
  { intros mark k Hk j Hlt Hj.
    destruct k as [|[|[|[|k]]]], j as [|[|[|[|j]]]]; simplify_eq/=; lia. }
  assert (word_to_index self !! "<PAD>" = Some 0%nat) as Hpad
    by (apply Hmark; [by vm_compute|done|by apply Hlast]).
  assert (word_to_index self !! "<START>" = Some 1%nat) as Hstart
    by (apply Hmark; [by vm_compute|done|by apply Hlast]).
  assert (word_to_index self !! "<EOS>" = Some 2%nat) as Heos
    by (apply Hmark; [by vm_compute|done|by apply Hlast]).
  assert (word_to_index self !! "<UNK>" = Some 3%nat) as Hunk
    by (apply Hmark; [by vm_compute|done|by apply Hlast]).
  split_and!; [done..|].
  intros sentence. apply encode_sentence_total.
  repeat (constructor; [eauto|]). constructor.
Qed.

(** *** Vocabulary files *)

Lemma universal_newlines_id (s : string) :
  all_chars (λ c, c ≠ carriage_return) s → universal_newlines s = s.
Proof.
  induction s as [|c s IH]; [done|]. intros [Hc Hs]. simpl.
  destruct (Ascii.eqb_spec c carriage_return); [done|]. by rewrite IH.
Qed.

Lemma lines_app_newline (w rest : string) :
  all_chars (λ c, c ≠ newline) w →
  lines (w +:+ String newline rest) = (w +:+ String newline "") :: lines rest.
Proof.
  induction w as [|c w IH]; intros Hw.
  - reflexivity.
  - destruct Hw as [Hc Hw]. rewrite !append_cons. simpl.
    destruct (Ascii.eqb_spec c newline); [done|]. by rewrite IH.
Qed.

Lemma rstrip_app_space (s : string) (c : ascii) :
  is_space c = true → rstrip (s +:+ String c "") = rstrip s.
Proof.
  intros Hc. induction s as [|d s IH].
  - change ("" +:+ ?x) with x. simpl. by rewrite Hc.
  - rewrite append_cons. simpl. by rewrite IH.
Qed.

Lemma lstrip_length (s : string) :
  (String.length (lstrip s) ≤ String.length s)%nat.
Proof.
  induction s as [|c s IH]; simpl; [done|].
  destruct (is_space c); simpl; lia.
Qed.

Lemma rstrip_length (s : string) :
  (String.length (rstrip s) ≤ String.length s)%nat.
Proof.
  induction s as [|c s IH]; simpl; [done|].
  destruct (rstrip s); simpl in *; [destruct (is_space c); simpl; lia|lia].
Qed.

(** A word that [strip] leaves alone is what is read back from its
    line. *)
Lemma strip_line (w : string) :
  strip w = w → strip (w +:+ String newline "") = w.
Proof.
  intros Hw. unfold strip in *. destruct w as [|c w].
  - reflexivity.
  - destruct (is_space c) eqn:Hc.
    + exfalso. simpl in Hw. rewrite Hc in Hw.
      pose proof (rstrip_length (lstrip w)) as H1.
      pose proof (lstrip_length w) as H2.
      rewrite Hw in H1. simpl in H1. lia.
    + rewrite lstrip_id in Hw by done.
      rewrite append_cons, lstrip_id by done.
      rewrite <-append_cons. by rewrite rstrip_app_space.
Qed.

Lemma all_chars_vocab_text (P : ascii → Prop) (vocab : list string) :
  P newline → Forall (all_chars P) vocab → all_chars P (vocab_text vocab).
Proof.
  intros Hnl. induction 1 as [|w vocab Hw _ IH]; [done|].
  simpl. apply all_chars_app. split; [done|]. by split.
Qed.

Lemma readlines_vocab_text (vocab : list string) :
  Forall one_line vocab →
  readlines (vocab_text vocab) = (λ w, w +:+ String newline "") <$> vocab.
Proof.
  intros Hlines. unfold readlines.
  rewrite universal_newlines_id.
  - induction Hlines as [|w vocab Hw _ IH]; [done|].
    simpl vocab_text. rewrite lines_app_newline, IH; [done|].
    eapply all_chars_impl; [|done]. by intros c [? _].
  - apply all_chars_vocab_text; [done|].
    eapply Forall_impl; [done|]. intros w Hw.
    eapply all_chars_impl; [|done]. by intros c [_ ?].
Qed.

(** X20.  Writing a vocabulary and reading it back.  [read_vocab] of the
    file that [write_vocab] wrote gives the vocabulary back, provided
    that no word has white space at either end or a line break inside.
    Files at other paths read as before, and reading a path at which
    there is no file raises [FileNotFoundError]. *)
Theorem read_vocab_write_vocab (vocab : list string) (path : string)
    (fs : gmap string string) :
  (Forall (λ w, strip w = w ∧ one_line w) vocab →
   read_vocab path (write_vocab vocab path fs) = Ok vocab)
  ∧ (∀ other, other ≠ path →
       read_vocab other (write_vocab vocab path fs) = read_vocab other fs)
  ∧ (fs !! path = None → read_vocab path fs = Raise FileNotFoundError).
Proof.
  split_and!.
  - intros Hwords. unfold read_vocab, write_vocab.
    rewrite lookup_insert_eq. f_equal.
    rewrite readlines_vocab_text
      by (eapply Forall_impl; [done|]; by intros w [_ ?]).
    rewrite <-list_fmap_compose.
    induction Hwords as [|w vocab [Hw _] _ IH]; [done|].
    rewrite fmap_cons, IH. simpl. by rewrite strip_line.
  - intros other Hne. unfold read_vocab, write_vocab.
    by rewrite lookup_insert_ne.
  - intros Hnone. unfold read_vocab. by rewrite Hnone.
Qed.

End VocabFacts.

(** ** [AverageMeter] *)

Module MeterFacts.
Import MeterPy.

Lemma update_Ok (self : AverageMeter) (v n : Qc) :
  (count self + n ≠ 0)%Qc →
  update self v n
  = (MkAverageMeter v ((sum self + v * n) / (count self + n))%Qc
                    (sum self + v * n)%Qc (count self + n)%Qc, Ok tt).
Proof.
  intros Hne. unfold update, EvalPy.truediv. by rewrite decide_False.
Qed.

Lemma update_Raise (self : AverageMeter) (v n : Qc) :
  (count self + n = 0)%Qc →
  update self v n
  = (MkAverageMeter v (avg self) (sum self + v * n)%Qc 0%Qc,
     Raise ZeroDivisionError).
Proof.
  intros Hz. unfold update, EvalPy.truediv. rewrite decide_True by done.
  by rewrite Hz.
Qed.

Lemma weight_pos (calls : list (Qc * Qc)) :
  Forall (λ c, 0 < c.2)%Qc calls → (0 ≤ weight calls)%Qc.
Proof.
  induction 1 as [|[v n] calls Hn _ IH]; simpl; [done|].
  apply Qclt_le_weak in Hn.
  replace 0%Qc with (0 + 0)%Qc by ring. by apply Qcplus_le_compat.
Qed.

Lemma weighted_sum_bounds (calls : list (Qc * Qc)) (lo hi : Qc) :
  Forall (λ c, 0 < c.2)%Qc calls →
  Forall (λ c, lo ≤ c.1 ∧ c.1 ≤ hi)%Qc calls →
  (lo * weight calls ≤ weighted_sum calls
   ∧ weighted_sum calls ≤ hi * weight calls)%Qc.
Proof.
  induction 1 as [|[v n] calls Hn _ IH]; intros Hb; simpl.
  { split; (replace (_ * 0)%Qc with 0%Qc by ring); done. }
  apply Forall_cons in Hb as [[Hlo Hhi] Hb]. simpl in *.
  destruct (IH Hb) as [IHlo IHhi]. apply Qclt_le_weak in Hn.
  split.
  - replace (lo * (n + weight calls))%Qc
      with (lo * n + lo * weight calls)%Qc by ring.
    apply Qcplus_le_compat; [|done]. by apply Qcmult_le_compat_r.
  - replace (hi * (n + weight calls))%Qc
      with (hi * n + hi * weight calls)%Qc by ring.
    apply Qcplus_le_compat; [|done]. by apply Qcmult_le_compat_r.
Qed.

(** Updates with positive weights, from a meter whose count is not
    negative. *)
Lemma updates_Ok (self : AverageMeter) (calls : list (Qc * Qc)) :
  (0 ≤ count self)%Qc →
  Forall (λ c, 0 < c.2)%Qc calls →
  calls ≠ [] →
  ∃ self',
    updates self calls = (self', Ok tt)
    ∧ count self' = (count self + weight calls)%Qc
    ∧ sum self' = (sum self + weighted_sum calls)%Qc
    ∧ (0 < count self')%Qc
    ∧ avg self' = (sum self' / count self')%Qc
    ∧ (fst <$> last calls) = Some (val self').
Proof.
  intros Hcount Hpos. revert self Hcount.
  induction Hpos as [|[v n] calls Hn Hpos IH]; intros self Hcount Hne; [done|].
  simpl in Hn.
  assert (0 < count self + n)%Qc as Hlt.
  { apply (Qclt_le_trans _ n); [done|].
    replace n with (0 + n)%Qc at 1 by ring.
    by apply Qcplus_le_compat. }
  assert (count self + n ≠ 0)%Qc as Hnz.
  { intros Hz. rewrite Hz in Hlt. by apply Qclt_not_eq in Hlt. }
  simpl. rewrite update_Ok by done.
  destruct calls as [|c calls].
  - eexists. split; [done|]. simpl.
    split_and!; [ring|ring|done|done|done].
  - destruct (IH (MkAverageMeter v ((sum self + v * n) / (count self + n))%Qc
                                 (sum self + v * n)%Qc (count self + n)%Qc))
      as (self' & Hrun & Hc & Hs & Hp & Ha & Hv); [by apply Qclt_le_weak|done|].
    exists self'. split; [done|]. simpl in Hc, Hs.
    split_and!; [|..|done|done|].
    + rewrite Hc. simpl. ring.
    + rewrite Hs. simpl. ring.
    + by rewrite last_cons_cons.
Qed.

(** X21.  An [AverageMeter] keeps the weighted mean.  After updates of
    a fresh meter with positive weights [n], [count] is the sum of the
    weights, [sum] the sum of the products [val * n], [avg] their
    quotient and [val] the last value; [avg] lies between any two bounds
    between which all the values lie.  An update that brings [count] to
    0 raises [ZeroDivisionError] after it has changed [val], [sum] and
    [count], and leaves [avg] as it was. *)
Theorem average_meter_weighted_mean (calls : list (Qc * Qc)) :
  (Forall (λ c, 0 < c.2)%Qc calls → calls ≠ [] →
   ∃ self,
     updates init calls = (self, Ok tt)
     ∧ count self = weight calls
     ∧ sum self = weighted_sum calls
     ∧ avg self = (weighted_sum calls / weight calls)%Qc
     ∧ fst <$> last calls = Some (val self)
     ∧ ∀ lo hi, Forall (λ c, lo ≤ c.1 ∧ c.1 ≤ hi)%Qc calls →
                (lo ≤ avg self ∧ avg self ≤ hi)%Qc)
  ∧ (∀ self v n, (count self + n = 0)%Qc →
       update self v n
       = (MkAverageMeter v (avg self) (sum self + v * n)%Qc 0%Qc,
          Raise ZeroDivisionError)).
Proof.
  split; [|apply update_Raise].
  intros Hpos Hne.
  destruct (updates_Ok init calls) as (self & Hrun & Hc & Hs & Hp & Ha & Hv);
    [done..|].
  simpl in Hc, Hs.
  assert (count self = weight calls) as Hc' by (rewrite Hc; ring).
  assert (sum self = weighted_sum calls) as Hs' by (rewrite Hs; ring).
  exists self. split_and!; [done..| |done|].
  { by rewrite Ha, Hc', Hs'. }
  intros lo hi Hb.
  destruct (weighted_sum_bounds calls lo hi Hpos Hb) as [Hlo Hhi].
  rewrite Ha, Hs', Hc'. rewrite Hc' in Hp.
  assert (weight calls ≠ 0)%Qc as Hnz.
  { intros Hz. rewrite Hz in Hp. by apply Qclt_not_eq in Hp. }
  split.
  - apply (Qcmult_lt_0_le_reg_r _ _ (weight calls)); [done|].
    by replace (weighted_sum calls / weight calls * weight calls)%Qc
      with (weighted_sum calls) by (by field).
  - apply (Qcmult_lt_0_le_reg_r _ _ (weight calls)); [done|].
    by replace (weighted_sum calls / weight calls * weight calls)%Qc
      with (weighted_sum calls) by (by field).
Qed.

End MeterFacts.

(** ** [save_checkpoint] and [EarlyStopping] *)

Module StoppingFacts.
Import StoppingPy StoppingNotions.

(** Inequalities between rationals, by linear arithmetic. *)
Ltac qc_to_Q :=
  unfold Qclt, Qcle, Qcminus, Qcplus, Qcopp, Q2Qc in *; cbn [this] in *;
  rewrite ?Qred_correct in *.

Lemma filename_ne_best (checkpoint_dir name : string) :
  filename checkpoint_dir name ≠ best_filename checkpoint_dir name.
Proof.
  unfold filename, best_filename.
  induction (checkpoint_dir +:+ name) as [|c s IH]; [done|].
  intros [=]. by apply IH.
Qed.

Section AnyArithmetic.

Context {T : Type} `{ops T} {State : Type}.

Implicit Types (self : EarlyStopping T) (fs : gmap string State).

Lemma save_checkpoint_Ok (state : State) (checkpoint_dir name : string) fs :
  checkpoint_dir ≠ "" →
  save_checkpoint state true checkpoint_dir name fs
  = (<[best_filename checkpoint_dir name := state]>
       (<[filename checkpoint_dir name := state]> fs), Ok tt).
Proof.
  intros Hdir. unfold save_checkpoint.
  rewrite decide_False by done. by rewrite lookup_insert_eq.
Qed.

Lemma save_checkpoint_no_dir (state : State) (is_best : bool) (name : string) fs :
  save_checkpoint state is_best "" name fs = (fs, Raise FileNotFoundError).
Proof. done. Qed.


Lemma kept_refl self fs opts : kept self fs self fs opts.
Proof. by split. Qed.

Lemma kept_trans self1 fs1 self2 fs2 self3 fs3 opts :
  kept self1 fs1 self2 fs2 opts → kept self2 fs2 self3 fs3 opts →
  kept self1 fs1 self3 fs3 opts.
Proof.
  intros [? ? ? ? ? ? Hfiles1] [? ? ? ? ? ? Hfiles2].
  split; [congruence..|tauto|tauto|].
  intros p ??. by rewrite Hfiles2, Hfiles1.
Qed.

Lemma save_checkpoint_files (state : State) (is_best : bool)
    (checkpoint_dir name : string) fs fs' (r : result unit) (p : string) :
  save_checkpoint state is_best checkpoint_dir name fs = (fs', r) →
  p ≠ filename checkpoint_dir name →
  p ≠ best_filename checkpoint_dir name →
  fs' !! p = fs !! p.
Proof.
  unfold save_checkpoint. intros Hsave Hp Hbest.
  case_decide; [by simplify_eq|].
  rewrite lookup_insert_eq in Hsave.
  destruct is_best; simplify_eq; by rewrite !lookup_insert_ne.
Qed.

Lemma call_kept self (opts : Opts) (state : State) (val_loss : T) fs
    self' fs' (r : result unit) :
  call self opts state val_loss fs = (self', fs', r) →
  kept self fs self' fs' opts.
Proof.
  unfold call. intros Hcall.
  destruct (best_score self) as [best|] eqn:Hbest.
  - destruct (ltb _ _).
    + simplify_eq. split; try (by case_decide). done.
    + destruct (save_checkpoint _ _ _ _ _) as [fs'' [[]|e]] eqn:Hsave;
        simplify_eq; split; try done; simpl; try (by eauto);
        intros; by eapply save_checkpoint_files.
  - destruct (save_checkpoint _ _ _ _ _) as [fs'' r'] eqn:Hsave.
    simplify_eq. split; try done; simpl; try (by eauto).
    intros; by eapply save_checkpoint_files.
Qed.

Lemma calls_kept (epochs : list (State * T)) self (opts : Opts) fs
    self' fs' (r : result unit) :
  calls self opts epochs fs = (self', fs', r) →
  kept self fs self' fs' opts.
Proof.
  revert self fs.
  induction epochs as [|[state val_loss] epochs IH]; intros self fs Hcalls.
  { simplify_eq/=. apply kept_refl. }
  simpl in Hcalls.
  destruct (call self opts state val_loss fs) as [[self1 fs1] [[]|e]] eqn:Hcall.
  - eapply kept_trans; [by eapply call_kept|by eapply IH].
  - simplify_eq. by eapply call_kept.
Qed.

Lemma calls_app (epochs1 epochs2 : list (State * T)) self (opts : Opts) fs :
  calls self opts (epochs1 ++ epochs2) fs
  = match calls self opts epochs1 fs with
    | (self', fs', Ok _) => calls self' opts epochs2 fs'
    | failed => failed
    end.
Proof.
  revert self fs.
  induction epochs1 as [|[state val_loss] epochs1 IH]; intros self fs; [done|].
  simpl. destruct (call self opts state val_loss fs) as [[self1 fs1] [[]|e]];
    [apply IH|done].
Qed.

(** X22.  What calls of an [EarlyStopping] object leave alone, however
    they end.  Once [early_stop] is set it stays set.  The only files
    written are the two checkpoint files named by [opts]: every other
    file, the one at [self.path] among them, is as before.  [patience],
    [delta] and [path] do not change.  With an empty [checkpoint_dir] the
    first call of a fresh object raises [FileNotFoundError] and writes
    nothing, but has set [best_score] already. *)
Theorem early_stopping_leaves_alone (self : EarlyStopping T) (opts : Opts)
    (epochs : list (State * T)) (fs : gmap string State)
    (self' : EarlyStopping T) (fs' : gmap string State) (r : result unit) :
  calls self opts epochs fs = (self', fs', r) →
  (early_stop self = true → early_stop self' = true)
  ∧ (∀ p, p ≠ filename (checkpoint_dir opts) (exp_name opts) →
          p ≠ best_filename (checkpoint_dir opts) (exp_name opts) →
          fs' !! p = fs !! p)
  ∧ patience self' = patience self
  ∧ delta self' = delta self
  ∧ path self' = path self
  ∧ (checkpoint_dir opts = "" → best_score self = None →
     ∀ state val_loss epochs', epochs = (state, val_loss) :: epochs' →
       r = Raise FileNotFoundError ∧ fs' = fs
       ∧ best_score self' = Some (neg val_loss)).
Proof.
  intros Hcalls. pose proof (calls_kept _ _ _ _ _ _ _ Hcalls) as [].
  split_and!; [done..|].
  intros Hdir Hnone state val_loss epochs' ->. simpl in Hcalls.
  unfold call in Hcalls. rewrite Hnone, Hdir in Hcalls.
  rewrite save_checkpoint_no_dir in Hcalls. by simplify_eq.
Qed.






End AnyArithmetic.

Section Exact.

Context {State : Type}.

#[local] Instance exact_ops : ops Qc := for_Qc.

Implicit Types (self : EarlyStopping Qc) (fs : gmap string State).


Lemma call_first (patience0 : Z) (delta0 : Qc) (path0 : string) (verbose0 : bool)
    (opts : Opts) (state : State) (loss : Qc) fs :
  checkpoint_dir opts ≠ "" →
  ∃ self' fs',
    call (init patience0 delta0 path0 verbose0) opts state loss fs
    = (self', fs', Ok tt)
    ∧ tracked patience0 delta0 opts [(state, loss)] self' fs' 0 state loss.
Proof.
  intros Hdir. unfold call. simpl. rewrite save_checkpoint_Ok by done.
  do 2 eexists. split; [done|]. split; simpl; try done.
  - rewrite lookup_insert_ne by (symmetry; apply filename_ne_best).
    by rewrite lookup_insert_eq.
  - by rewrite lookup_insert_eq.
  - intros j st l _ ?. lia.
  - intros [|j] st l Hj ?; [lia|done].
  - by left.
Qed.

Lemma call_next (patience0 : Z) (delta0 : Qc) (opts : Opts)
    (epochs : list (State * Qc)) self fs (k : nat) (state0 : State) (loss0 : Qc)
    (state : State) (loss : Qc) :
  (0 <= delta0)%Qc →
  checkpoint_dir opts ≠ "" →
  tracked patience0 delta0 opts epochs self fs k state0 loss0 →
  ∃ self' fs' k' state' loss',
    call self opts state loss fs = (self', fs', Ok tt)
    ∧ tracked patience0 delta0 opts (epochs ++ [(state, loss)]) self' fs'
              k' state' loss'.
Proof.
  intros Hdelta Hdir [Hp Hd Hk Hfile Hbest Hscore Hcounter Hbefore Hafter Hstop].
  pose proof (lookup_lt_Some _ _ _ Hk) as Hlt.
  unfold call. rewrite Hscore, Hd. simpl.
  case_bool_decide as Hworse.
  - (* no improvement *)
    eexists _, fs, k, state0, loss0. split; [done|].
    assert ((counter self + 1)%Z
            = Z.of_nat (length (epochs ++ [(state, loss)]) - 1 - k)) as Hc.
    { rewrite length_app. simpl. lia. }
    split; try done.
    + by case_decide.
    + by case_decide.
    + by apply lookup_app_l_Some.
    + case_decide; simpl; by rewrite Hscore.
    + by case_decide.
    + intros j st l Hj Hjk. apply (Hbefore j st l); [|done].
      rewrite lookup_app_l in Hj by lia. done.
    + intros j st l Hj Hjk.
      apply lookup_app_Some in Hj as [Hj|[Hlen Hj]]; [by eapply Hafter|].
      apply list_lookup_singleton_Some in Hj as [_ [= <- <-]].
      clear -Hworse. qc_to_Q. lra.
    + case_decide as Hpat; simpl; [done|]. rewrite Hp in Hpat. intros _.
      right. lia.
  - (* improvement *)
    rewrite save_checkpoint_Ok by done.
    assert (loss <= loss0 - delta0)%Qc as Hle by (clear -Hworse; qc_to_Q; lra).
    assert (loss <= loss0)%Qc as Hle0 by (clear -Hle Hdelta; qc_to_Q; lra).
    eexists _, _, (length epochs), state, loss. split; [done|].
    split; simpl; try done.
    + by rewrite lookup_app_r, Nat.sub_diag by lia.
    + rewrite lookup_insert_ne by (symmetry; apply filename_ne_best).
      by rewrite lookup_insert_eq.
    + by rewrite lookup_insert_eq.
    + rewrite length_app. simpl. lia.
    + intros j st l Hj Hjk. rewrite lookup_app_l in Hj by done.
      destruct (decide (j < k)%nat) as [Hjk'|Hjk'].
      * etrans; [done|]. by eapply Hbefore.
      * destruct (decide (j = k)) as [->|Hne]; [by simplify_eq|].
        assert (loss0 - delta0 < l)%Qc as Hl by (eapply Hafter; [done|lia]).
        apply Qclt_le_weak. by apply (Qcle_lt_trans _ (loss0 - delta0)%Qc).
    + intros j st l Hj Hjk. apply lookup_lt_Some in Hj.
      rewrite length_app in Hj. simpl in Hj. lia.
    + by left.
Qed.

Lemma calls_tracked (patience0 : Z) (delta0 : Qc) (path0 : string)
    (verbose0 : bool) (opts : Opts) (epochs : list (State * Qc)) fs :
  (0 <= delta0)%Qc →
  checkpoint_dir opts ≠ "" →
  epochs ≠ [] →
  ∃ self' fs' k state loss,
    calls (init patience0 delta0 path0 verbose0) opts epochs fs
    = (self', fs', Ok tt)
    ∧ tracked patience0 delta0 opts epochs self' fs' k state loss.
Proof.
  intros Hdelta Hdir.
  induction epochs as [|[state loss] epochs IH] using rev_ind; [done|].
  intros _. destruct epochs as [|epoch epochs].
  - destruct (call_first patience0 delta0 path0 verbose0 opts state loss fs Hdir)
      as (self' & fs' & Hcall & Htracked).
    exists self', fs', 0%nat, state, loss. split; [|done].
    simpl. by rewrite Hcall.
  - destruct IH as (self1 & fs1 & k & state0 & loss0 & Hcalls & Htracked);
      [done|].
    destruct (call_next _ _ _ _ _ _ _ _ _ state loss Hdelta Hdir Htracked)
      as (self' & fs' & k' & state' & loss' & Hcall & Htracked').
    exists self', fs', k', state', loss'. split; [|done].
    rewrite calls_app, Hcalls. simpl. by rewrite Hcall.
Qed.

(** X24.  The checkpoint that early stopping keeps, in exact arithmetic
    and for a [delta] that is not negative.  After the calls of a fresh
    object for the epochs of a run, both checkpoint files hold the state
    of one epoch [k], and [best_score] is the negated loss of that
    epoch.  No earlier epoch had a smaller loss, and every later epoch
    had a loss greater than that of [k] less [delta]: for [delta = 0]
    the checkpoint is that of the last epoch with the least loss.  The
    counter is the number of epochs after [k], and as long as
    [early_stop] is not set it is 0 or less than [patience]. *)
Theorem early_stopping_checkpoint (patience : Z) (delta : Qc) (path : string)
    (verbose : bool) (opts : Opts) (epochs : list (State * Qc))
    (fs : gmap string State) :
  (0 <= delta)%Qc →
  checkpoint_dir opts ≠ "" →
  epochs ≠ [] →
  ∃ self fs' k state loss,
    calls (init patience delta path verbose) opts epochs fs = (self, fs', Ok tt)
    ∧ epochs !! k = Some (state, loss)
    ∧ fs' !! filename (checkpoint_dir opts) (exp_name opts) = Some state
    ∧ fs' !! best_filename (checkpoint_dir opts) (exp_name opts) = Some state
    ∧ best_score self = Some (- loss)%Qc
    ∧ counter self = Z.of_nat (length epochs - 1 - k)
    ∧ (∀ j st l, epochs !! j = Some (st, l) →
         ((j < k)%nat → (loss <= l)%Qc)
         ∧ ((k < j)%nat → (loss - delta < l)%Qc))
    ∧ (early_stop self = false →
       counter self = 0%Z ∨ (counter self < patience)%Z).
Proof.
  intros Hdelta Hdir Hne.
  destruct (calls_tracked patience delta path verbose opts epochs fs
                          Hdelta Hdir Hne)
    as (self & fs' & k & state & loss & Hcalls & []).
  exists self, fs', k, state, loss. split_and!; try done.
  intros j st l Hj. split; eauto.
Qed.

End Exact.

Section Binary64.

Context {State : Type}.

#[local] Instance float_ops : ops float := for_float.

Implicit Types (self : EarlyStopping float) (fs : gmap string State).

Lemma SFcompare_refl (s : spec_float) :
  s ≠ S754_nan → SFcompare s s = Some Eq.
Proof.
  assert (∀ e, IntDef.Z.compare e e = Eq) as Hexp
    by (intros e; apply Z.compare_refl).
  assert (∀ m, PosDef.Pos.compare_cont Eq m m = Eq) as Hman
    by (intros m; apply Pos.compare_cont_refl).
  destruct s as [?| [] | |[] m e]; try done; intros _; simpl.
  - by rewrite Hexp, Hman.
  - by rewrite Hexp, Hman.
Qed.

Lemma is_nan_Prim2SF (x : float) :
  PrimFloat.is_nan x = true → Prim2SF x = S754_nan.
Proof.
  unfold PrimFloat.is_nan. rewrite FloatAxioms.eqb_spec. unfold SFeqb.
  destruct (Prim2SF x) as [?|?| |? m e] eqn:Hx; [..|done|];
    by rewrite SFcompare_refl.
Qed.

(** Nothing is less than the sum of a NaN and a number, and the negation
    of a NaN is less than nothing. *)
Lemma ltb_nan (x y d : float) :
  PrimFloat.is_nan x = true ∨ PrimFloat.is_nan y = true →
  ltb (neg x) (add y d) = false.
Proof.
  intros Hnan. simpl.
  rewrite FloatAxioms.ltb_spec, FloatAxioms.opp_spec, FloatAxioms.add_spec.
  unfold SFltb.
  destruct Hnan as [Hx%is_nan_Prim2SF|Hy%is_nan_Prim2SF].
  - by rewrite Hx.
  - rewrite Hy. simpl. by destruct (SFopp (Prim2SF x)).
Qed.

Lemma is_nan_neg (x : float) :
  PrimFloat.is_nan x = true → PrimFloat.is_nan (neg x) = true.
Proof.
  intros Hx%is_nan_Prim2SF. unfold PrimFloat.is_nan. simpl.
  by rewrite FloatAxioms.eqb_spec, FloatAxioms.opp_spec, Hx.
Qed.

Lemma call_nan self (opts : Opts) (state : State) (val_loss : float) fs :
  checkpoint_dir opts ≠ "" →
  PrimFloat.is_nan val_loss = true
  ∨ (∃ best, best_score self = Some best ∧ PrimFloat.is_nan best = true) →
  ∃ self' fs',
    call self opts state val_loss fs = (self', fs', Ok tt)
    ∧ fs' !! filename (checkpoint_dir opts) (exp_name opts) = Some state
    ∧ fs' !! best_filename (checkpoint_dir opts) (exp_name opts) = Some state
    ∧ best_score self' = Some (neg val_loss)
    ∧ early_stop self' = early_stop self
    ∧ (is_Some (best_score self) → counter self' = 0%Z).
Proof.
  intros Hdir Hnan. unfold call. rewrite save_checkpoint_Ok by done.
  assert (∀ saved : State,
            <[best_filename (checkpoint_dir opts) (exp_name opts) := saved]>
              (<[filename (checkpoint_dir opts) (exp_name opts) := saved]> fs)
            !! filename (checkpoint_dir opts) (exp_name opts) = Some saved)
    as Hfile.
  { intros saved.
    rewrite lookup_insert_ne by (symmetry; apply filename_ne_best).
    by rewrite lookup_insert_eq. }
  destruct (best_score self) as [best|] eqn:Hbest.
  - rewrite ltb_nan.
    + eexists _, _. split; [done|]. simpl.
      split_and!; [by apply Hfile|by rewrite lookup_insert_eq|done..].
    + destruct Hnan as [?|(? & [= <-] & ?)]; [by left|by right].
  - eexists _, _. split; [done|]. simpl.
    split_and!; [by apply Hfile|by rewrite lookup_insert_eq|done|done|].
    by intros [? [=]].
Qed.

(** X25.  A loss that is not a number, in binary64.  No comparison with
    a NaN holds, so a call with a NaN loss counts as an improvement: it
    writes its state to the checkpoint files and does not set
    [early_stop].  The call after it counts as an improvement as well,
    whatever its loss: it replaces the checkpoint and sets the counter
    to 0. *)
Theorem early_stopping_nan_loss (self : EarlyStopping float) (opts : Opts)
    (state : State) (val_loss : float) (fs : gmap string State) :
  checkpoint_dir opts ≠ "" →
  PrimFloat.is_nan val_loss = true →
  ∃ self1 fs1,
    call self opts state val_loss fs = (self1, fs1, Ok tt)
    ∧ fs1 !! best_filename (checkpoint_dir opts) (exp_name opts) = Some state
    ∧ early_stop self1 = early_stop self
    ∧ ∀ state' val_loss',
        ∃ self2 fs2,
          call self1 opts state' val_loss' fs1 = (self2, fs2, Ok tt)
          ∧ fs2 !! best_filename (checkpoint_dir opts) (exp_name opts)
            = Some state'
          ∧ best_score self2 = Some (neg val_loss')
          ∧ counter self2 = 0%Z
          ∧ early_stop self2 = early_stop self.
Proof.
  intros Hdir Hnan.
  destruct (call_nan self opts state val_loss fs Hdir)
    as (self1 & fs1 & Hcall & _ & Hbest & Hscore & Hstop & _); [by left|].
  exists self1, fs1. split_and!; [done..|].
  intros state' val_loss'.
  destruct (call_nan self1 opts state' val_loss' fs1 Hdir)
    as (self2 & fs2 & Hcall' & _ & Hbest' & Hscore' & Hstop' & Hcounter).
  { right. exists (neg val_loss). split; [done|]. by apply is_nan_neg. }
  exists self2, fs2. split_and!; [done..| |congruence].
  apply Hcounter. by rewrite Hscore.
Qed.

End Binary64.

End StoppingFacts.

(** ** Padding tensors *)

Module TensorFacts.
Import Outcome TensorPy.

Section Tensors.

Context {A : Type} (zero : A).

Implicit Types (t : Tensor A) (ts : list (Tensor A)).

Lemma sizes_Returns ts :
  Forall (λ t, shape t ≠ []) ts → sizes ts = Returns (first_dim <$> ts).
Proof.
  induction 1 as [|t ts Ht _ IH]; [done|]. simpl. unfold size0, first_dim.
  destruct (shape t) as [|n rest]; [done|]. unfold_outcome. by rewrite IH.
Qed.

Lemma sizes_Fails ts :
  Exists (λ t, shape t = []) ts → sizes ts = Fails (Exn IndexError).
Proof.
  induction ts as [|t ts IH]; intros Hex; [by apply Exists_nil in Hex|].
  simpl. unfold size0. destruct (shape t) as [|n rest] eqn:Ht; [done|].
  apply Exists_cons in Hex as [Hex|Hex]; [congruence|].
  unfold_outcome. by rewrite IH.
Qed.

(** [pad_tensor] on a tensor with no more than [max_length] rows. *)
Lemma pad_tensor_Returns t (n : nat) (rest : list nat) (max_length : nat) :
  shape t = n :: rest → (n ≤ max_length)%nat →
  pad_tensor zero t (Z.of_nat max_length)
  = Returns (MkTensor (max_length :: rest) (padded zero max_length rest t)).
Proof.
  intros Ht Hn. unfold pad_tensor, size0, padded, first_dim. rewrite Ht. simpl.
  unfold_outcome. case_decide as Heq.
  - apply (inj Z.of_nat) in Heq as ->. rewrite Nat.sub_diag. simpl.
    rewrite (right_id_L [] app). destruct t. simpl in *. by subst.
  - unfold new_zero. rewrite (proj2 (Z.ltb_ge _ _)) by lia.
    unfold cat. rewrite Ht. simpl. rewrite decide_True by done.
    do 3 f_equal; [lia|]. f_equal. f_equal. lia.
Qed.

Lemma pad_tensor_Fails t (n : nat) (rest : list nat) (max_length : Z) :
  shape t = n :: rest → (max_length < Z.of_nat n)%Z →
  pad_tensor zero t max_length = Fails RuntimeError.
Proof.
  intros Ht Hn. unfold pad_tensor, size0. rewrite Ht. simpl.
  unfold_outcome. rewrite decide_False by lia.
  unfold new_zero. by rewrite (proj2 (Z.ltb_lt _ _)) by lia.
Qed.

Lemma pad_loop_Returns ts (max_length : nat) :
  Forall (λ t, shape t ≠ [] ∧ (first_dim t ≤ max_length)%nat) ts →
  pad_loop zero ts (Z.of_nat max_length)
  = Returns ((λ t, MkTensor (max_length :: tail (shape t))
                            (padded zero max_length (tail (shape t)) t))
               <$> ts).
Proof.
  induction 1 as [|t ts [Ht Hn] _ IH]; [done|]. simpl.
  unfold size0, first_dim in *.
  destruct (shape t) as [|n rest] eqn:Hshape; [done|]. simpl in *.
  unfold_outcome. rewrite IH.
  case_decide as Hne.
  - by rewrite (pad_tensor_Returns t n rest).
  - apply (inj Z.of_nat) in Hne as ->.
    unfold padded, first_dim. rewrite Hshape. simpl.
    rewrite Nat.sub_diag. simpl. rewrite (right_id_L [] app).
    destruct t. simpl in *. by subst.
Qed.

Lemma pad_loop_Fails ts (max_length : Z) :
  Forall (λ t, shape t ≠ []) ts →
  Exists (λ t, max_length < Z.of_nat (first_dim t))%Z ts →
  pad_loop zero ts max_length = Fails RuntimeError.
Proof.
  induction 1 as [|t ts Ht Hts IH]; intros Hex; [by apply Exists_nil in Hex|].
  simpl. unfold size0, first_dim in *.
  destruct (shape t) as [|n rest] eqn:Hshape; [done|]. simpl in *.
  unfold_outcome.
  destruct (decide (max_length < Z.of_nat n)%Z) as [Hlt|Hge].
  { rewrite decide_True by lia.
    by rewrite (pad_tensor_Fails t n rest). }
  rewrite Exists_cons in Hex. destruct Hex as [Hex|Hex].
  { rewrite Hshape in Hex. simpl in Hex. lia. }
  rewrite IH by done.
  case_decide; [|done].
  replace max_length with (Z.of_nat (Z.to_nat max_length)) by lia.
  rewrite (pad_tensor_Returns t n rest) by (done || lia). done.
Qed.

Lemma find_length_Returns ts :
  ts ≠ [] → Forall (λ t, shape t ≠ []) ts →
  find_length ts = Returns (first_dim <$> ts).
Proof.
  intros Hne Hts. unfold find_length. rewrite <-sizes_Returns by done.
  by destruct ts.
Qed.

Lemma stack_Returns ts (sh : list nat) :
  ts ≠ [] → Forall (λ t, shape t = sh) ts →
  stack ts = Returns (MkTensor (length ts :: sh) (ts ≫= data)).
Proof.
  intros Hne Hall. unfold stack. destruct ts as [|t0 ts']; [done|].
  assert (forallb (λ t', bool_decide (shape t' = shape t0)) (t0 :: ts') = true)
    as ->.
  { apply Is_true_true, forallb_True. eapply Forall_impl; [done|].
    intros t Ht. apply bool_decide_pack.
    apply Forall_cons in Hall as [-> _]. done. }
  by apply Forall_cons in Hall as [-> _].
Qed.

Lemma stack_Fails ts t1 t2 :
  t1 ∈ ts → t2 ∈ ts → shape t1 ≠ shape t2 → stack ts = Fails RuntimeError.
Proof.
  intros H1 H2 Hne. unfold stack. destruct ts as [|t0 ts]; [done|].
  destruct (forallb _ _) eqn:Hall; [|done].
  apply Is_true_true, forallb_True in Hall. rewrite Forall_forall in Hall.
  exfalso. apply Hne.
  pose proof (Hall t1 H1) as E1%bool_decide_unpack.
  pose proof (Hall t2 H2) as E2%bool_decide_unpack. congruence.
Qed.

Lemma numel_cons (n : nat) (rest : list nat) :
  numel (n :: rest) = (n * numel rest)%nat.
Proof. done. Qed.

Lemma padded_length t (n : nat) (rest : list nat) (max_length : nat) :
  shape t = n :: rest → (n ≤ max_length)%nat → well_formed t →
  length (padded zero max_length rest t) = (max_length * numel rest)%nat.
Proof.
  unfold well_formed, padded, first_dim. intros Ht Hn Hwf.
  rewrite length_app, length_replicate, Hwf, Ht, numel_cons. simpl. nia.
Qed.

Lemma bind_fmap_data ts (sh : list nat) (f : Tensor A → list A) :
  ((λ t, MkTensor sh (f t)) <$> ts) ≫= data = ts ≫= f.
Proof.
  induction ts as [|t ts IH]; [done|].
  by rewrite fmap_cons, !bind_cons, IH.
Qed.

(** X26.  What [pad_list_tensors] returns.  For a list, not empty, of
    tensors whose shapes differ in the first dimension at most, and with
    [max_length] left out or at least every first dimension, the result
    is the pair of a tensor and of the first dimensions of the tensors
    given.  The tensor has the shape (number of tensors, [rows], other
    dimensions), where [rows] is [max_length] or else the greatest first
    dimension; its elements are those of each tensor in turn, each
    followed by the zeros that fill it up to [rows] rows. *)
Theorem pad_list_tensors_Returns ts (rest : list nat) (max_length : option Z)
    (rows : nat) :
  ts ≠ [] →
  Forall (λ t, ∃ n, shape t = n :: rest ∧ (n ≤ rows)%nat) ts →
  (max_length = Some (Z.of_nat rows)
   ∨ (max_length = None ∧ rows = max_list (first_dim <$> ts))) →
  ∃ stacked,
    pad_list_tensors zero ts max_length = Returns (stacked, first_dim <$> ts)
    ∧ shape stacked = length ts :: rows :: rest
    ∧ data stacked = ts ≫= padded zero rows rest
    ∧ (Forall well_formed ts → well_formed stacked).
Proof.
  intros Hne Hts Hmax.
  assert (Forall (λ t, shape t ≠ []) ts) as Hshape.
  { eapply Forall_impl; [done|]. by intros t (n & -> & _). }
  unfold pad_list_tensors. rewrite find_length_Returns by done.
  unfold_outcome.
  assert (match max_length with
          | Some m => m
          | None => Z.of_nat (max_list (first_dim <$> ts))
          end = Z.of_nat rows) as ->
    by (by destruct Hmax as [->|[-> ->]]).
  rewrite pad_loop_Returns.
  2:{ apply (Forall_impl _ _ _ Hts).
      intros t (n & Ht & Hn). unfold first_dim. by rewrite Ht. }
  set (pad := λ t, MkTensor (rows :: tail (shape t))
                            (padded zero rows (tail (shape t)) t)).
  assert (pad <$> ts = (λ t, MkTensor (rows :: rest) (padded zero rows rest t))
                         <$> ts) as ->.
  { apply list_fmap_ext. intros i t Hi. unfold pad.
    rewrite Forall_forall in Hts.
    destruct (Hts t) as (n & -> & _); [by eapply list_elem_of_lookup_2|]. done. }
  rewrite (stack_Returns _ (rows :: rest)).
  2:{ by destruct ts. }
  2:{ apply Forall_fmap. by apply Forall_true. }
  rewrite bind_fmap_data, length_fmap.
  eexists. split; [done|]. split_and!; [done..|].
  intros Hwf. unfold well_formed. cbn [shape data].
  clear Hne Hmax Hshape.
  induction ts as [|t ts IH]; [done|].
  apply Forall_cons in Hts as [(n & Ht & Hn) Hts].
  apply Forall_cons in Hwf as [Hwf Hwfs].
  rewrite bind_cons, length_app, (padded_length t n) by done.
  rewrite (IH Hts Hwfs). rewrite !numel_cons. simpl. lia.
Qed.

(** X27.  When [pad_list_tensors] fails.  An empty list, or a tensor
    without dimensions in the list, raises [IndexError].  Otherwise a
    [max_length] smaller than the first dimension of one of the tensors,
    or two tensors that differ in another dimension than the first, raise
    [RuntimeError]. *)
Theorem pad_list_tensors_Fails ts (max_length : option Z) :
  (ts = [] ∨ Exists (λ t, shape t = []) ts →
   pad_list_tensors zero ts max_length = Fails (Exn IndexError))
  ∧ (Forall (λ t, shape t ≠ []) ts →
     (∃ m, max_length = Some m
           ∧ Exists (λ t, m < Z.of_nat (first_dim t))%Z ts)
     ∨ (∃ t1 t2, t1 ∈ ts ∧ t2 ∈ ts ∧ tail (shape t1) ≠ tail (shape t2)) →
     pad_list_tensors zero ts max_length = Fails RuntimeError).
Proof.
  split.
  - intros [->|Hex]; [done|]. unfold pad_list_tensors, find_length.
    rewrite sizes_Fails by done. destruct ts; [|done].
    by apply Exists_nil in Hex.
  - intros Hshape Hbad.
    assert (ts ≠ []) as Hne.
    { intros ->. destruct Hbad as [(m & _ & Hex)|(t1 & _ & Ht1 & _)].
      - by apply Exists_nil in Hex.
      - by apply elem_of_nil in Ht1. }
    unfold pad_list_tensors. rewrite find_length_Returns by done.
    unfold_outcome.
    set (m := match max_length with
              | Some m => m
              | None => Z.of_nat (max_list (first_dim <$> ts))
              end).
    destruct (decide (Exists (λ t, m < Z.of_nat (first_dim t))%Z ts))
      as [Hlong|Hfit].
    { by rewrite pad_loop_Fails. }
    apply not_Exists_Forall in Hfit; [|intros t; apply _].
    destruct Hbad as [(m' & Hmax & Hex)|(t1 & t2 & Ht1 & Ht2 & Hne12)].
    { exfalso. subst m. rewrite Hmax in Hfit.
      apply Exists_exists in Hex as (t & Ht & Hlt).
      rewrite Forall_forall in Hfit. by apply (Hfit t Ht). }
    assert (0 ≤ m)%Z as Hm.
    { rewrite Forall_forall in Hfit. pose proof (Hfit t1 Ht1) as Hle.
      simpl in Hle. lia. }
    replace m with (Z.of_nat (Z.to_nat m)) by lia.
    rewrite pad_loop_Returns.
    + set (pad := λ t, MkTensor (Z.to_nat m :: tail (shape t))
                         (padded zero (Z.to_nat m) (tail (shape t)) t)).
      rewrite (stack_Fails _ (pad t1) (pad t2)); [done|..].
      * by apply list_elem_of_fmap_2.
      * by apply list_elem_of_fmap_2.
      * unfold pad. simpl. congruence.
    + apply Forall_forall. intros t Ht.
      rewrite Forall_forall in Hshape, Hfit. split; [by apply Hshape|].
      pose proof (Hfit t Ht) as Hle. simpl in Hle. lia.
Qed.

End Tensors.

End TensorFacts.

(** ** The statements about [utils.py] at concrete inputs *)

Module UtilsExamples.
Import Text Outcome MoreFixtures.

Lemma sofa_vocab_built :
  VocabPy.build_vocab sofa_data ["train"] 2 VocabPy.base_vocab = Ok sofa_vocab.
Proof. by vm_compute. Qed.

Lemma sofa_tokens :
  TokenizerPy.split_sentence "Wait... stop!!" = ["wait"; "..."; "stop"; "!"; "!"].
Proof. by vm_compute. Qed.

Lemma sofa_encoding :
  TokenizerPy.encode_sentence sofa_tokenizer "Go past the sofa!"
  = Returns [1; 8; 5; 4; 7; 3; 2; 0]%nat.
Proof. by vm_compute. Qed.

(** The tokens ["..."] and ["!"] of ["Wait... stop!!"]. *)
Lemma split_sentence_punctuation_witness :
  (String.length "..." = 1%nat ∨ all_in is_dot "..." = true)
  ∧ (String.length "!" = 1%nat ∨ all_in is_dot "!" = true).
Proof.
  split.
  - apply (TokenizerFacts.split_sentence_punctuation "Wait... stop!!" "...").
    + rewrite sofa_tokens. rewrite !elem_of_cons. tauto.
    + reflexivity.
  - apply (TokenizerFacts.split_sentence_punctuation "Wait... stop!!" "!").
    + rewrite sofa_tokens. rewrite !elem_of_cons. tauto.
    + reflexivity.
Defined.

(** ["Go past the sofa!"], encoded and decoded again: the unknown word
    comes back as the mark ["<UNK>"]. *)
Lemma decode_encode_sentence_witness :
  TokenizerPy.decode_sentence sofa_tokenizer
                              (Z.of_nat <$> [1; 8; 5; 4; 7; 3; 2; 0]%nat)
  = Returns "<EOS> <UNK> past the sofa ! <START>".
Proof.
  refine (eq_trans
            (TokenizerFacts.decode_encode_sentence
               false true sofa_vocab 8 "Go past the sofa!"
               [1; 8; 5; 4; 7; 3; 2; 0]%nat _ _ sofa_encoding) _).
  - lia.
  - unfold sofa_vocab. rewrite !elem_of_cons. tauto.
  - by vm_compute.
Defined.

(** The vocabulary of the sofa data set. *)
Lemma build_vocab_frequent_words_witness :
  ∃ data added,
    EvalPy.load_datasets sofa_data ["train"] = Ok data
    ∧ sofa_vocab = (VocabPy.base_vocab ++ added)%list
    ∧ NoDup added
    ∧ (∀ w, w ∈ added ↔
            w ∈ VocabPy.all_tokens data
            ∧ (2 ≤ Z.of_nat (VocabPy.occurrences w (VocabPy.all_tokens data)))%Z)
    ∧ (∀ i j w1 w2,
          (i < j)%nat → added !! i = Some w1 → added !! j = Some w2 →
          (VocabPy.occurrences w2 (VocabPy.all_tokens data)
           ≤ VocabPy.occurrences w1 (VocabPy.all_tokens data))%nat).
Proof.
  exact (VocabFacts.build_vocab_frequent_words
           sofa_data ["train"] 2 VocabPy.base_vocab sofa_vocab sofa_vocab_built).
Defined.

(** The tokenizer over that vocabulary. *)
Lemma built_vocab_tokenizer_witness :
  TokenizerPy.word_to_index sofa_tokenizer !! "<PAD>" = Some 0%nat
  ∧ TokenizerPy.word_to_index sofa_tokenizer !! "<START>" = Some 1%nat
  ∧ TokenizerPy.word_to_index sofa_tokenizer !! "<EOS>" = Some 2%nat
  ∧ TokenizerPy.word_to_index sofa_tokenizer !! "<UNK>" = Some 3%nat
  ∧ VocabPy.padding_idx = Ok 0%nat
  ∧ ∀ sentence,
      returns (TokenizerPy.encode_sentence sofa_tokenizer sentence) = true.
Proof.
  exact (VocabFacts.built_vocab_tokenizer
           sofa_data ["train"] 2 sofa_vocab false true 8 sofa_vocab_built).
Defined.

(** The vocabulary written to a file and read back. *)
Lemma read_vocab_write_vocab_witness :
  VocabPy.read_vocab "vocab.txt" (VocabPy.write_vocab sofa_vocab "vocab.txt" ∅)
  = Ok sofa_vocab.
Proof.
  apply (VocabFacts.read_vocab_write_vocab sofa_vocab "vocab.txt" ∅).
  unfold sofa_vocab.
  repeat (apply Forall_cons; split;
          [split; [reflexivity|vm_compute; repeat split; discriminate]|]).
  by apply Forall_nil.
Defined.

(** Three updates of a fresh meter: the mean is 4, between 2 and 6. *)
Lemma average_meter_weighted_mean_witness :
  ∃ self,
    MeterPy.updates MeterPy.init three_updates = (self, Ok tt)
    ∧ MeterPy.count self = MeterPy.weight three_updates
    ∧ MeterPy.sum self = MeterPy.weighted_sum three_updates
    ∧ MeterPy.avg self
      = (MeterPy.weighted_sum three_updates / MeterPy.weight three_updates)%Qc
    ∧ fst <$> last three_updates = Some (MeterPy.val self)
    ∧ ∀ lo hi, Forall (λ c, lo ≤ c.1 ∧ c.1 ≤ hi)%Qc three_updates →
               (lo ≤ MeterPy.avg self ∧ MeterPy.avg self ≤ hi)%Qc.
Proof.
  apply (MeterFacts.average_meter_weighted_mean three_updates).
  - unfold three_updates. repeat (apply Forall_cons; split; [by vm_compute|]).
    by apply Forall_nil.
  - discriminate.
Defined.

(** The run of five epochs with a patience of 2: the file at the path
    given to the stopper is as it was. *)
Lemma early_stopping_leaves_alone_witness :
  ∃ self' fs' r,
    StoppingPy.calls (H := StoppingPy.for_Qc)
      (StoppingPy.init 2 0%Qc "checkpoint.pt" false) run_opts five_epochs
      files_before = (self', fs', r)
    ∧ fs' !! "checkpoint.pt" = Some 7%nat
    ∧ StoppingPy.path self' = "checkpoint.pt".
Proof.
  destruct (StoppingPy.calls (H := StoppingPy.for_Qc)
              (StoppingPy.init 2 0%Qc "checkpoint.pt" false) run_opts
              five_epochs files_before) as [[self' fs'] r] eqn:Hcalls.
  exists self', fs', r. split; [reflexivity|].
  destruct (StoppingFacts.early_stopping_leaves_alone
              (StoppingPy.init 2 0%Qc "checkpoint.pt" false) run_opts
              five_epochs files_before self' fs' r Hcalls)
    as (_ & Hfiles & _ & _ & Hpath & _).
  split; [|exact Hpath].
  rewrite (Hfiles "checkpoint.pt"); [reflexivity|discriminate|discriminate].
Defined.

(** The same run: the checkpoint is that of an epoch with the least
    loss. *)
Lemma early_stopping_checkpoint_witness :
  ∃ self fs' k state loss,
    StoppingPy.calls (H := StoppingPy.for_Qc)
      (StoppingPy.init 2 0%Qc "checkpoint.pt" false) run_opts five_epochs
      files_before = (self, fs', Ok tt)
    ∧ five_epochs !! k = Some (state, loss)
    ∧ fs' !! StoppingPy.filename "checkpoints/" "run" = Some state
    ∧ fs' !! StoppingPy.best_filename "checkpoints/" "run" = Some state
    ∧ StoppingPy.best_score self = Some (- loss)%Qc
    ∧ StoppingPy.counter self = Z.of_nat (length five_epochs - 1 - k)
    ∧ (∀ j st l, five_epochs !! j = Some (st, l) →
         ((j < k)%nat → (loss <= l)%Qc)
         ∧ ((k < j)%nat → (loss - 0 < l)%Qc))
    ∧ (StoppingPy.early_stop self = false →
       StoppingPy.counter self = 0%Z ∨ (StoppingPy.counter self < 2)%Z).
Proof.
  apply (StoppingFacts.early_stopping_checkpoint
           2 0%Qc "checkpoint.pt" false run_opts five_epochs files_before).
  - discriminate.
  - discriminate.
  - discriminate.
Defined.


(** A NaN loss in the third epoch of a run in binary64. *)
Lemma early_stopping_nan_loss_witness :
  ∃ self1 fs1,
    StoppingPy.call (H := StoppingPy.for_float)
      (StoppingPy.init 2 0%float "checkpoint.pt" false) run_opts 2%nat
      PrimFloat.nan files_before = (self1, fs1, Ok tt)
    ∧ fs1 !! StoppingPy.best_filename "checkpoints/" "run" = Some 2%nat
    ∧ StoppingPy.early_stop self1 = false
    ∧ ∀ state' val_loss',
        ∃ self2 fs2,
          StoppingPy.call (H := StoppingPy.for_float) self1 run_opts state'
                          val_loss' fs1 = (self2, fs2, Ok tt)
          ∧ fs2 !! StoppingPy.best_filename "checkpoints/" "run" = Some state'
          ∧ StoppingPy.best_score self2 = Some (- val_loss')%float
          ∧ StoppingPy.counter self2 = 0%Z
          ∧ StoppingPy.early_stop self2 = false.
Proof.
  apply (StoppingFacts.early_stopping_nan_loss
           (StoppingPy.init 2 0%float "checkpoint.pt" false) run_opts 2%nat
           PrimFloat.nan files_before).
  - discriminate.
  - reflexivity.
Defined.

(** The two matrices, padded to three rows and stacked. *)
Lemma pad_list_tensors_Returns_witness :
  ∃ stacked,
    TensorPy.pad_list_tensors 0%Z [one_row; three_rows] None
    = Returns (stacked, [1; 3]%nat)
    ∧ TensorPy.shape stacked = [2; 3; 2]%nat
    ∧ TensorPy.data stacked = [1; 2; 0; 0; 0; 0; 3; 4; 5; 6; 7; 8]%Z.
Proof.
  destruct (TensorFacts.pad_list_tensors_Returns
              0%Z [one_row; three_rows] [2%nat] None 3%nat)
    as (stacked & Hrun & Hshape & Hdata & _).
  - discriminate.
  - apply Forall_cons. split; [exists 1%nat; split; [reflexivity|lia]|].
    apply Forall_cons. split; [exists 3%nat; split; [reflexivity|lia]|].
    by apply Forall_nil.
  - right. split; reflexivity.
  - exists stacked. split_and!; [exact Hrun|exact Hshape|exact Hdata].
Defined.

(** The same matrices with a [max_length] of 2. *)
Lemma pad_list_tensors_Fails_witness :
  TensorPy.pad_list_tensors 0%Z [one_row; three_rows] (Some 2%Z)
  = Fails RuntimeError.
Proof.
  apply (TensorFacts.pad_list_tensors_Fails 0%Z [one_row; three_rows] (Some 2%Z)).
  - apply Forall_cons. split; [discriminate|].
    apply Forall_cons. split; [discriminate|]. by apply Forall_nil.
  - left. exists 2%Z. split; [reflexivity|].
    apply Exists_cons_tl, Exists_cons_hd. reflexivity.
Defined.

End UtilsExamples.
